(** * A shallow embedding of [sudoku_v1.c]

    The C program solves Sudoku as an exact-cover problem: [sd_genmat] builds a
    sparse 729x324 incidence matrix, [sd_update] adds or removes one choice
    from the two counter vectors, [sd_solve] runs a backtracking search over
    an explicit stack and [main] feeds it the lines of standard input.

    C integers are modelled as [Z] with the conversions to the narrow types
    ([int8_t], [int16_t], [uint16_t]) written out.  Arrays are lists indexed by
    [Z]; every access is bounds-checked and an access outside the array is the
    undefined behaviour of C, modelled as [None].  The operators [/] and [%]
    of C are applied to non-negative values only (loop indices and
    [uint16_t] cells), where they agree with [Z.div] and [Z.modulo]. *)

From Stdlib Require Import ZArith List Lia Bool String Ascii Permutation.
From stdpp Require Import base option list numbers.
Import ListNotations.
Local Open Scope Z_scope.

(** ** Machine integers *)

Definition wrap_signed (bits x : Z) : Z :=
  (x + 2 ^ (bits - 1)) mod 2 ^ bits - 2 ^ (bits - 1).

Definition int8 (x : Z) : Z := wrap_signed 8 x.
Definition int16 (x : Z) : Z := wrap_signed 16 x.
Definition uint16 (x : Z) : Z := x mod 65536.

Definition in_int8 (x : Z) : Prop := -128 <= x <= 127.
Definition in_int16 (x : Z) : Prop := -32768 <= x <= 32767.

(** ** Arrays *)

Definition getZ {A} (a : list A) (i : Z) : option A :=
  if i <? 0 then None else a !! Z.to_nat i.

Definition setZ {A} (a : list A) (i : Z) (x : A) : option (list A) :=
  if (0 <=? i) && (i <? Z.of_nat (length a)) then Some (<[Z.to_nat i := x]> a)
  else None.

(** [a[i][j]] for a two-dimensional array stored as a list of rows. *)
Definition getZ2 {A} (a : list (list A)) (i j : Z) : option A :=
  row ← getZ a i; getZ row j.

Definition setZ2 {A} (a : list (list A)) (i j : Z) (x : A) : option (list (list A)) :=
  row ← getZ a i; row' ← setZ row j x; setZ a i row'.

(** [a[i] += v] on an array whose cells are converted by [conv] on store. *)
Definition add_at (conv : Z -> Z) (a : list Z) (i v : Z) : option (list Z) :=
  x ← getZ a i; setZ a i (conv (x + v)).

(** [for (k = lo; k < lo + n; ++k) body], threading the state [s]. *)
Fixpoint for_range {S} (lo : Z) (n : nat) (body : Z -> S -> option S) (s : S)
  : option S :=
  match n with
  | O => Some s
  | Datatypes.S n' => s' ← body lo s; for_range (lo + 1) n' body s'
  end.

(** ** The sparse matrix *)

Record sdaux_t := mk_sdaux {
  aux_r : list (list Z);  (* uint16_t r[324][9] *)
  aux_c : list (list Z)   (* uint16_t c[729][4] *)
}.

(** [calloc(1, sizeof(sdaux_t))] *)
Definition sdaux_zero : sdaux_t :=
  mk_sdaux (replicate 324 (replicate 9 0)) (replicate 729 (replicate 4 0)).

(** The four stores of lines 88-91 for one [(i, j, k)], at row [r] of [c]. *)
Definition genmat_cell (i j k r : Z) (c : list (list Z)) : option (list (list Z)) :=
  c ← setZ2 c r 0 (uint16 (9 * i + j));
  c ← setZ2 c r 1 (uint16 ((i / 3 * 3 + j / 3) * 9 + k + 81));
  c ← setZ2 c r 2 (uint16 (9 * i + k + 162));
  setZ2 c r 3 (uint16 (9 * j + k + 243)).

(** Lines 85-92: the triple loop, with the running row counter [r]. *)
Definition genmat_c (c : list (list Z)) : option (list (list Z) * Z) :=
  for_range 0 9 (fun i st =>
    for_range 0 9 (fun j st =>
      for_range 0 9 (fun k '(c, r) =>
        c' ← genmat_cell i j k r c; Some (c', r + 1)) st) st) (c, 0).

(** Lines 94-96: invert [c] into [r] with the write cursors [nr]. *)
Definition genmat_r (c : list (list Z)) (r : list (list Z)) (nr : list Z)
  : option (list (list Z) * list Z) :=
  for_range 0 729 (fun row st =>
    for_range 0 4 (fun c2 '(r, nr) =>
      k ← getZ2 c row c2;
      n ← getZ nr k;
      r' ← setZ2 r k n (uint16 row);
      nr' ← setZ nr k (int8 (n + 1));
      Some (r', nr')) st) (r, nr).

(** [sd_genmat] returns the matrix; the final cursors are kept as a second
    component so that the number of entries written per constraint can be
    stated. *)
Definition sd_genmat_nr : option (sdaux_t * list Z) :=
  '(c, _) ← genmat_c (aux_c sdaux_zero);
  '(r, nr) ← genmat_r c (aux_r sdaux_zero) (replicate 324 0);
  Some (mk_sdaux r c, nr).

Definition sd_genmat : option sdaux_t := fst <$> sd_genmat_nr.

(** ** The update primitive *)

(** Lines 100-108. *)
Definition sd_update (aux : sdaux_t) (sr sc : list Z) (r v : Z)
  : option (list Z * list Z) :=
  for_range 0 4 (fun c2 '(sr, sc) =>
    c ← getZ2 (aux_c aux) r c2;
    sc' ← add_at int8 sc c v;
    sr' ← for_range 0 9 (fun r2 sr =>
             x ← getZ2 (aux_r aux) c r2; add_at int16 sr x v) sr;
    Some (sr', sc')) (sr, sc).

(** ** The search *)

Inductive pc_t :=
| Head      (* line 125, about to test the [while] condition *)
| Advance.  (* line 139, after the forward scan of lines 126-138 *)

(** The local variables of [sd_solve] that live across loop iterations, and
    the lines written to standard output so far. *)
Record state := mk_state {
  st_pc : pc_t;
  st_i : Z;
  st_dir : Z;
  st_c0 : Z;
  st_hints : Z;
  st_sc : list Z;   (* int8_t sc[324] *)
  st_cr : list Z;   (* int8_t cr[81] *)
  st_cc : list Z;   (* int16_t cc[81] *)
  st_sr : list Z;   (* int16_t sr[729] *)
  st_out : list Z;  (* char out[82] *)
  st_stdout : list (list Z)
}.

(** The characters of a C string: everything before the first NUL. *)
Fixpoint c_string (buf : list Z) : list Z :=
  match buf with
  | [] => []
  | ch :: rest => if ch =? 0 then [] else ch :: c_string rest
  end.

Definition is_digit (ch : Z) : bool := (49 <=? ch) && (ch <=? 57).

(** Lines 116-123 and the initialisers of line 124.  [cr], [cc] and [out] are
    uninitialised at their declaration; every cell of them is written here
    before it is read, so their initial contents are immaterial. *)
Definition sd_init_cell (aux : sdaux_t) (s : list Z) (i : Z) (st : state)
  : option state :=
  ch ← getZ s i;
  let a := if is_digit ch then ch - 49 else -1 in
  '(sr, sc) ← (if 0 <=? a then sd_update aux (st_sr st) (st_sc st) (i * 9 + a) 1
               else Some (st_sr st, st_sc st));
  let hints := if 0 <=? a then st_hints st + 1 else st_hints st in
  cc ← setZ (st_cc st) i (int16 (-1));
  cr ← setZ (st_cr st) i (int8 (-1));
  out ← setZ (st_out st) i ch;
  Some (mk_state Head (st_i st) (st_dir st) (st_c0 st) hints sc cr cc sr out
          (st_stdout st)).

Definition sd_init (aux : sdaux_t) (s : list Z) : option state :=
  st ← for_range 0 81 (sd_init_cell aux s)
         (mk_state Head 0 1 0 0 (replicate 324 0) (replicate 81 0)
            (replicate 81 0) (replicate 729 0) (replicate 82 0) []);
  out ← setZ (st_out st) 81 0;
  Some (mk_state Head 0 1 0 (st_hints st) (st_sc st) (st_cr st) (st_cc st)
          (st_sr st) out []).

(** Lines 132-133: the number of choices of constraint [c] whose state is 0. *)
Definition count_free (aux : sdaux_t) (sr : list Z) (c : Z) : option Z :=
  for_range 0 9 (fun r2 n =>
    x ← getZ2 (aux_r aux) c r2;
    v ← getZ sr x;
    Some (if v =? 0 then n + 1 else n)) 0.

(** Lines 128-136: the scan over [j], with [break] as an early return.  Note
    that [c0] is updated inside the loop and read again by the next
    iteration. *)
Fixpoint scan (aux : sdaux_t) (sr sc : list Z) (i : Z) (fuel : nat)
    (j min : Z) (cc : list Z) (c0 : Z) : option (Z * list Z * Z) :=
  match fuel with
  | O => Some (min, cc, c0)
  | S fuel' =>
      let c := if j + c0 <? 324 then j + c0 else j + c0 - 324 in
      scv ← getZ sc c;
      if negb (scv =? 0) then scan aux sr sc i fuel' (j + 1) min cc c0
      else
        n ← count_free aux sr c;
        '(min', cc', c0') ← (if n <? min
                             then cc' ← setZ cc i (int16 c); Some (n, cc', c + 1)
                             else Some (min, cc, c0));
        if n <=? 1 then Some (min', cc', c0')
        else scan aux sr sc i fuel' (j + 1) min' cc' c0'
  end.

(** Lines 141-142: the first [r2 >= start] below 9 whose choice has state 0,
    or 9.  Ten iterations are enough: a negative [start] faults at once. *)
Fixpoint find_free (aux : sdaux_t) (sr : list Z) (c : Z) (fuel : nat) (r2 : Z)
  : option Z :=
  match fuel with
  | O => Some r2
  | S fuel' =>
      if r2 <? 9 then
        x ← getZ2 (aux_r aux) c r2;
        v ← getZ sr x;
        if v =? 0 then Some r2 else find_free aux sr c fuel' (r2 + 1)
      else Some r2
  end.

(** Line 149: write the choices of the stack into [out]. *)
Definition fill_out (aux : sdaux_t) (cc cr : list Z) (i : Z) (out : list Z)
  : option (list Z) :=
  for_range 0 (Z.to_nat i) (fun j out =>
    c ← getZ cc j;
    k ← getZ cr j;
    r ← getZ2 (aux_r aux) c k;
    setZ out (r / 9) (r mod 9 + 49)) out.

Inductive step_result :=
| Next (st : state)
| Stop     (* [break] at line 148, then [return 0] *)
| Fault.   (* an access outside an array *)

Definition of_option (o : option state) : step_result :=
  match o with Some st => Next st | None => Fault end.

(** From the [while] test of line 125 to line 139, or through lines 148-151. *)
Definition step_head (aux : sdaux_t) (st : state) : step_result :=
  let '(mk_state _ i dir c0 hints sc cr cc sr out lines) := st in
  if (0 <=? i) && (i <? 81 - hints) then
    if dir =? 1 then
      of_option (
        '(min, cc', c0') ← scan aux sr sc i 324 0 10 cc c0;
        if (min =? 0) || (min =? 10) then
          cr' ← setZ cr i (int8 (-1));
          Some (mk_state Advance (i - 1) (-1) c0' hints sc cr' cc' sr out lines)
        else
          Some (mk_state Advance i dir c0' hints sc cr cc' sr out lines))
    else Next (mk_state Advance i dir c0 hints sc cr cc sr out lines)
  else if i <? 0 then Stop
  else
    of_option (
      out' ← fill_out aux cc cr i out;
      Some (mk_state Head (i - 1) (-1) c0 hints sc cr cc sr out'
              (lines ++ [c_string out']))).

(** Lines 139-146. *)
Definition step_advance (aux : sdaux_t) (st : state) : step_result :=
  let '(mk_state _ i dir c0 hints sc cr cc sr out lines) := st in
  of_option (
    c ← getZ cc i;
    k ← getZ cr i;
    '(sr1, sc1) ← (if (dir =? -1) && (0 <=? k)
                   then r ← getZ2 (aux_r aux) c k; sd_update aux sr sc r (-1)
                   else Some (sr, sc));
    r2 ← find_free aux sr1 c 10 (k + 1);
    if r2 <? 9 then
      r ← getZ2 (aux_r aux) c r2;
      '(sr2, sc2) ← sd_update aux sr1 sc1 r 1;
      cr' ← setZ cr i (int8 r2);
      Some (mk_state Head (i + 1) 1 c0 hints sc2 cr' cc sr2 out lines)
    else
      cr' ← setZ cr i (int8 (-1));
      Some (mk_state Head (i - 1) (-1) c0 hints sc1 cr' cc sr1 out lines)).

Definition step (aux : sdaux_t) (st : state) : step_result :=
  match st_pc st with
  | Head => step_head aux st
  | Advance => step_advance aux st
  end.

Inductive outcome :=
| Returned (lines : list (list Z)) (ret : Z)
| Undefined       (* the run reached an access outside an array *)
| Timeout.        (* not enough fuel *)

Fixpoint run (aux : sdaux_t) (fuel : nat) (st : state) : outcome :=
  match fuel with
  | O => Timeout
  | S fuel' =>
      match step aux st with
      | Next st' => run aux fuel' st'
      | Stop => Returned (st_stdout st) 0
      | Fault => Undefined
      end
  end.

(** [sd_solve aux _s]: the lines written by [puts] and the return value. *)
Definition sd_solve (aux : sdaux_t) (fuel : nat) (s : list Z) : outcome :=
  match sd_init aux s with
  | Some st => run aux fuel st
  | None => Undefined
  end.

(** ** The driver *)

(** [fgets(buf, n + 1, stdin)]: at most [n] characters, stopping after a
    newline; the characters read and the rest of the stream. *)
Fixpoint fgets (n : nat) (input : list Z) : list Z * list Z :=
  match n, input with
  | S n', ch :: rest =>
      if ch =? 10 then ([ch], rest)
      else let '(line, rest') := fgets n' rest in (ch :: line, rest')
  | _, _ => ([], input)
  end.

Definition strlen (buf : list Z) : Z := Z.of_nat (length (c_string buf)).

(** What [puts] and [putchar] append to the output stream. *)
Definition puts_bytes (lines : list (list Z)) : list Z :=
  concat (map (fun l => l ++ [10]) lines).

(** The result of [main]: the bytes written to standard output and the exit
    status. *)
Inductive main_outcome :=
| MReturned (output : list Z) (ret : Z)
| MUndefined
| MTimeout.

(** Lines 160-164.  [n] bounds the number of [fgets] calls (each call on a
    non-empty stream consumes at least one character); [fuel] bounds the
    steps of each search. *)
Fixpoint main_loop (aux : sdaux_t) (fuel : nat) (n : nat) (input : list Z)
    (output : list Z) : main_outcome :=
  match n with
  | O => MTimeout
  | S n' =>
      match fgets 1023 input with
      | ([], _) => MReturned output 0          (* fgets returned NULL *)
      | (line, rest) =>
          let buf := line ++ [0] in
          if strlen buf <? 81 then main_loop aux fuel n' rest output
          else
            match sd_solve aux fuel buf with
            | Returned lines _ =>
                main_loop aux fuel n' rest (output ++ puts_bytes lines ++ [10])
            | Undefined => MUndefined
            | Timeout => MTimeout
            end
      end
  end.

Definition main (fuel : nat) (stdin : list Z) : main_outcome :=
  match sd_genmat with
  | Some a => main_loop a fuel (S (length stdin)) stdin []
  | None => MUndefined
  end.

(** The character codes of a string literal. *)
Definition chars (s : string) : list Z :=
  map (fun a => Z.of_N (N_of_ascii a)) (list_ascii_of_string s).

(** * Specification-side definitions *)

(** The value [sd_genmat] computes (it has no input). *)
Definition the_matrix : sdaux_t := Eval vm_compute in default sdaux_zero sd_genmat.

Definition the_cursors : list Z := Eval vm_compute in default [] (snd <$> sd_genmat_nr).

(** The four constraints of a choice and the nine choices of a constraint,
    read off the matrix. *)
Definition Cs (p : Z) : list Z := default [] (getZ (aux_c the_matrix) p).
Definition Rs (c : Z) : list Z := default [] (getZ (aux_r the_matrix) c).

Definition inb (x : Z) (l : list Z) : bool := existsb (Z.eqb x) l.

Fixpoint nodupb (l : list Z) : bool :=
  match l with
  | [] => true
  | x :: l' => negb (inb x l') && nodupb l'
  end.

Definition all_below (n : Z) (l : list Z) : bool :=
  forallb (fun x => (0 <=? x) && (x <? n)) l.

(** The incidences of lines 88-91 as a function of [(i, j, k)]. *)
Definition incidences (i j k : Z) : list Z :=
  [9 * i + j; (i / 3 * 3 + j / 3) * 9 + k + 81; 9 * i + k + 162; 9 * j + k + 243].

Definition incid_ok (i : Z) : bool :=
  forallb (fun j => forallb (fun k =>
    bool_decide (getZ (aux_c the_matrix) (81 * i + 9 * j + k) = Some (incidences i j k)))
    (seqZ 0 9)) (seqZ 0 9).

Definition row_ok (c : Z) : bool :=
  (Z.of_nat (length (Rs c)) =? 9) && nodupb (Rs c) && all_below 729 (Rs c)
  && bool_decide (getZ the_cursors c = Some 9)
  && bool_decide (is_Some (getZ (aux_r the_matrix) c)).

Definition col_ok (p : Z) : bool :=
  (Z.of_nat (length (Cs p)) =? 4) && nodupb (Cs p) && all_below 324 (Cs p)
  && bool_decide (is_Some (getZ (aux_c the_matrix) p)).

Definition row_in_cols (c : Z) : bool :=
  forallb (fun p => inb c (Cs p)) (Rs c).

Definition col_in_rows (p : Z) : bool :=
  forallb (fun c => inb p (Rs c)) (Cs p).

(** ** Loops as folds over what they read *)

(** The values [f lo, ..., f (lo + n - 1)], if all are defined. *)
Fixpoint reads {A} (f : Z → option A) (lo : Z) (n : nat) : option (list A) :=
  match n with
  | O => Some []
  | S n' => x ← f lo; xs ← reads f (lo + 1) n'; Some (x :: xs)
  end.

Fixpoint fold_opt {A S} (g : A → S → option S) (xs : list A) (s : S) : option S :=
  match xs with
  | [] => Some s
  | x :: xs' => s' ← g x s; fold_opt g xs' s'
  end.

(** [a[x] += v] for every [x] of a list; cells outside the array are
    skipped. *)
Definition bump (conv : Z → Z) (v : Z) (a : list Z) (x : Z) : list Z :=
  default a (add_at conv a x v).

Definition bumps (conv : Z → Z) (v : Z) (xs : list Z) (a : list Z) : list Z :=
  foldl (bump conv v) a xs.

Fixpoint countZ (k : Z) (xs : list Z) : Z :=
  match xs with
  | [] => 0
  | x :: xs' => (if x =? k then 1 else 0) + countZ k xs'
  end.

(** The cells [sd_update aux _ _ r _] touches: the constraints of [r] (cells
    of [sc]) and, for each, its nine choices (cells of [sr]). *)
Fixpoint rows_of (aux : sdaux_t) (cs : list Z) : option (list Z) :=
  match cs with
  | [] => Some []
  | c :: cs' =>
      xs ← reads (getZ2 (aux_r aux) c) 0 9;
      rest ← rows_of aux cs';
      Some (xs ++ rest)
  end.

Definition touches (aux : sdaux_t) (r : Z) : option (list Z * list Z) :=
  cs ← reads (getZ2 (aux_c aux) r) 0 4;
  xs ← rows_of aux cs;
  Some (cs, xs).

(** The 36 choices (with repetition) that share a constraint with [p]. *)
Definition Ts (p : Z) : list Z := concat (map Rs (Cs p)).

(** ** Puzzles used as concrete inputs *)

Definition puzzle_classic : list Z :=
  chars "53..7....6..195....98....6.8...6...34..8.3..17...2...6.6....28....419..5....8..79".

Definition solved_classic : list Z :=
  chars "534678912672195348198342567859761423426853791713924856961537284287419635345286179".

(** Cell (0,8) has no candidate: its row holds 1-8 and its column holds 9. *)
Definition puzzle_dead_cell : list Z :=
  chars "12345678.........9...............................................................".

(** A solved grid with its last cell emptied and its first cell changed from
    5 to 3, so that row 0 starts with two 3s. *)
Definition puzzle_conflict : list Z :=
  chars "33467891267219534819834256785976142342685379171392485696153728428741963534528617.".

Definition grid_conflict : list Z :=
  chars "334678912672195348198342567859761423426853791713924856961537284287419635345286179".

(** The first 80 characters of a solved grid followed by a newline, as
    [fgets] delivers an 80-character line. *)
Definition line_80 : list Z :=
  chars "53467891267219534819834256785976142342685379171392485696153728428741963534528617"
  ++ [10].

(** Two givens with the same digit in the same row and different columns. *)
Definition row_conflict (s : list Z) : Prop :=
  ∃ x y ch, 0 <= x < 81 ∧ 0 <= y < 81 ∧ x / 9 = y / 9 ∧ x mod 9 ≠ y mod 9 ∧
    is_digit ch = true ∧ getZ s x = Some ch ∧ getZ s y = Some ch.

(** ** Choices, constraints and counters *)

(** How much choosing [p] adds to [sr[k]] and to [sc[c]]. *)
Definition hit (p k : Z) : Z := countZ k (Ts p).
Definition inc (p c : Z) : Z := countZ c (Cs p).

(** Two choices exclude each other when they lie in a common constraint. *)
Definition shares (p q : Z) : Prop := ∃ c, c ∈ Cs p ∧ c ∈ Cs q.

(** The value of a counter after the choices of [P] have been applied. *)
Fixpoint weight (f : Z → Z → Z) (P : list Z) (k : Z) : Z :=
  match P with
  | [] => 0
  | p :: P' => f p k + weight f P' k
  end.

(** The choice that line 120 applies for cell [x], if it holds a digit. *)
Definition hint_at (s : list Z) (x : Z) : option Z :=
  ch ← getZ s x; if is_digit ch then Some (x * 9 + (ch - 49)) else None.

Definition hintP (s : list Z) : list Z := omap (hint_at s) (seqZ 0 81).

(** The givens, cell by cell, as the initialisation loop meets them. *)
Definition hints_upto (s : list Z) (n : nat) : list Z :=
  omap (hint_at s) (seqZ 0 (Z.of_nat n)).

(** A stack entry [(cc[j], cr[j])] denotes the choice [aux->r[cc[j]][cr[j]]]. *)
Definition choice_of (e : Z * Z) : Z := default 0 (getZ (Rs e.1) e.2).
Definition choices (stk : list (Z * Z)) : list Z := map choice_of stk.

(** [q] is a choice whose state is 0 once [P] is applied. *)
Definition free (P : list Z) (q : Z) : Prop :=
  0 <= q < 729 ∧ weight hit P q = 0.

(** Every choice of [Q] was free when it was made, after [H] and the
    choices before it. *)
Definition chain (H Q : list Z) : Prop :=
  ∀ j q, Q !! j = Some q → free (H ++ take j Q) q.

(** ** Grids *)

Definition cell_value (g : list Z) (x : Z) : Z := default 0 (getZ g x).

(** Grid [g] has the digit of choice [p] in the cell of [p]. *)
Definition contains (g : list Z) (p : Z) : Prop :=
  getZ g (p / 9) = Some (p mod 9 + 49).

(** The choice that grid [g] makes for cell [x]. *)
Definition pl (g : list Z) (x : Z) : Z := 9 * x + (cell_value g x - 49).

Definition row_cells (a : Z) : list Z := map (fun b => 9 * a + b) (seqZ 0 9).
Definition col_cells (b : Z) : list Z := map (fun a => 9 * a + b) (seqZ 0 9).
Definition box_cells (k : Z) : list Z :=
  flat_map (fun u => map (fun v => 27 * (k / 3) + 3 * (k mod 3) + 9 * u + v) (seqZ 0 3))
    (seqZ 0 3).

(** The 27 units: rows, columns, boxes. *)
Definition units : list (list Z) :=
  map row_cells (seqZ 0 9) ++ map col_cells (seqZ 0 9) ++ map box_cells (seqZ 0 9).

(** Every row, column and 3x3 box contains each digit '1'-'9' exactly once. *)
Definition valid_grid (g : list Z) : Prop :=
  length g = 81%nat ∧
  ∀ u d, u ∈ units → 49 <= d <= 57 → countZ d (map (cell_value g) u) = 1.

(** Every given of [s] is in [g]. *)
Definition keeps_hints (s g : list Z) : Prop :=
  ∀ x ch, 0 <= x < 81 → getZ s x = Some ch → is_digit ch = true →
          getZ g x = Some ch.

Definition solves (s g : list Z) : Prop := valid_grid g ∧ keeps_hints s g.

(** What holds of every line the search writes: 81 digits, the givens kept,
    and no two cells excluding each other unless both are givens. *)
Definition line_ok (s g : list Z) : Prop :=
  length g = 81%nat ∧
  (∀ x, 0 <= x < 81 → ∃ ch, getZ g x = Some ch ∧ is_digit ch = true) ∧
  keeps_hints s g ∧
  (∀ x y, 0 <= x < 81 → 0 <= y < 81 → x ≠ y → shares (pl g x) (pl g y) →
          is_Some (hint_at s x) ∧ is_Some (hint_at s y)).

(** ** Checks on the matrix, decided by evaluation *)

Definition touches_ok (p : Z) : bool :=
  bool_decide (touches the_matrix p = Some (Cs p, Ts p)).

(** The only constraint below 81 of a choice is its cell. *)
Definition cell_constraint_ok (p : Z) : bool :=
  inb (p / 9) (Cs p) && forallb (fun c => (81 <=? c) || (c =? p / 9)) (Cs p).

(** Constraint [c < 81] lists the nine choices of cell [c]. *)
Definition cell_row_ok (c : Z) : bool :=
  bool_decide (Rs c = map (fun d => 9 * c + d) (seqZ 0 9)).

Definition unit_cells_of (c : Z) : list Z := map (fun q => q / 9) (Rs c).

(** Unit [ui] (in the order of [units]) and digit [d] as a constraint. *)
Definition unit_constraint (ui d : Z) : Z :=
  if ui <? 9 then 162 + 9 * ui + d
  else if ui <? 18 then 243 + 9 * (ui - 9) + d
  else 81 + 9 * (ui - 18) + d.

(** A constraint from 81 on lists the nine cells of a unit, all with the
    digit [c mod 9]. *)
Definition unit_row_ok (c : Z) : bool :=
  (c <? 81) ||
  (existsb (fun u => bool_decide (unit_cells_of c = u)) units
   && forallb (fun q => q mod 9 =? c mod 9) (Rs c)).

Definition unit_constraint_ok (ui : Z) : bool :=
  forallb (fun d =>
    let c := unit_constraint ui d in
    (81 <=? c) && (c <? 324) && (c mod 9 =? d)
    && bool_decide (units !! Z.to_nat ui = Some (unit_cells_of c)))
    (seqZ 0 9).

Definition Ts_length_ok (p : Z) : bool := Z.of_nat (length (Ts p)) =? 36.

(** The counter vectors hold exactly what the choices of [P] add up to. *)
Definition tracks (sr sc : list Z) (P : list Z) : Prop :=
  length sr = 729%nat ∧ length sc = 324%nat ∧
  (∀ k, 0 <= k < 729 → getZ sr k = Some (weight hit P k)) ∧
  (∀ c, 0 <= c < 324 → getZ sc c = Some (weight inc P c)).

Definition unit_shape_ok (u : list Z) : bool :=
  (Z.of_nat (length u) =? 9) && nodupb u && all_below 81 u.

Definition cell_in_unit_ok (x : Z) : bool := existsb (inb x) units.

(** ** The invariant of the search loop *)

(** The number of stack entries whose choice is applied to the counters. *)
Definition depth (st : state) : Z :=
  if st_dir st =? 1 then st_i st else st_i st + 1.

(** A constraint nothing covers and whose nine choices are all excluded. *)
Definition dead (P : list Z) : Prop :=
  ∃ c, 0 <= c < 324 ∧ weight inc P c = 0 ∧ ∀ q, q ∈ Rs c → weight hit P q ≠ 0.

(** [stk] lists the applied stack entries [(cc[j], cr[j])], bottom first. *)
Record inv (s : list Z) (stk : list (Z * Z)) (st : state) : Prop := mk_inv {
  inv_hints : st_hints st = Z.of_nat (length (hintP s));
  inv_dir : st_dir st = 1 ∨ st_dir st = -1;
  inv_depth : depth st = Z.of_nat (length stk);
  inv_bound : depth st <= 81 - st_hints st;
  inv_c0 : 0 <= st_c0 st <= 324;
  inv_len_cr : length (st_cr st) = 81%nat;
  inv_len_cc : length (st_cc st) = 81%nat;
  inv_len_out : length (st_out st) = 82%nat;
  inv_stack : ∀ j c k, stk !! j = Some (c, k) →
    getZ (st_cc st) (Z.of_nat j) = Some c ∧
    getZ (st_cr st) (Z.of_nat j) = Some k ∧ 0 <= c < 324 ∧ 0 <= k < 9;
  inv_cr_top : ∀ j, depth st <= j < 81 → getZ (st_cr st) j = Some (-1);
  inv_tracks : tracks (st_sr st) (st_sc st) (hintP s ++ choices stk);
  inv_chain : chain (hintP s) (choices stk);
  inv_out_nul : getZ (st_out st) 81 = Some 0;
  inv_out : ∀ x ch, 0 <= x < 81 → getZ s x = Some ch → is_digit ch = true →
    getZ (st_out st) x = Some ch;
  inv_lines : Forall (line_ok s) (st_stdout st);
  inv_adv : st_pc st = Advance → st_dir st = 1 →
    st_i st < 81 - st_hints st ∧
    ∃ c, getZ (st_cc st) (st_i st) = Some c ∧ 0 <= c < 324 ∧
         weight inc (hintP s ++ choices stk) c = 0
}.

(** The constraint the scan looks at in its [j]-th iteration. *)
Definition rot (c0 j : Z) : Z := if j + c0 <? 324 then j + c0 else j + c0 - 324.

(** [n] steps of the loop lead from [st] to [st']. *)
Fixpoint steps (aux : sdaux_t) (n : nat) (st st' : state) : Prop :=
  match n with
  | O => st = st'
  | S n' => ∃ st1, step aux st = Next st1 ∧ steps aux n' st1 st'
  end.

(** [sd_solve] on input [s] writes the line [g], at some point of its run. *)
Definition yields (s g : list Z) : Prop :=
  ∃ st0 n st, sd_init the_matrix s = Some st0 ∧ steps the_matrix n st0 st ∧
              g ∈ st_stdout st.

(** ** Solutions found *)

(** Grid [g] contains every choice of [Q]. *)
Definition extends (g : list Z) (Q : list Z) : Prop := ∀ q, q ∈ Q → contains g q.

(** How many times [g] occurs among the lines [L]. *)
Definition occ (g : list Z) (L : list (list Z)) : nat :=
  length (filter (fun l => l = g) L).

(** Among the lines [L], every valid grid that keeps the givens and contains
    the choices [Q] occurs exactly once, and no other valid grid that keeps
    the givens occurs. *)
Definition found_once (s : list Z) (Q : list Z) (L : list (list Z)) : Prop :=
  ∀ g, valid_grid g → keeps_hints s g →
    (extends g Q → occ g L = 1%nat) ∧ (¬ extends g Q → occ g L = 0%nat).

(** Grid [g] holds one of the choices of constraint [c] listed after index
    [k0]. *)
Definition later_choice (g : list Z) (c k0 : Z) : Prop :=
  ∃ r q, k0 < r < 9 ∧ getZ (Rs c) r = Some q ∧ contains g q.

(** From [st], in the forward direction with the stack [stk], the search
    comes back to the depth below with the stack unchanged, having written
    exactly the solutions that contain the choices of the stack. *)
Definition explored (s : list Z) (stk : list (Z * Z)) (st : state) : Prop :=
  ∃ m st' L, steps the_matrix m st st' ∧ inv s stk st' ∧
    st_dir st' = -1 ∧ st_i st' = st_i st - 1 ∧
    st_stdout st' = st_stdout st ++ L ∧
    (st_pc st' = Head ∨ (st_pc st' = Advance ∧ L = [])) ∧
    found_once s (choices stk) L.

(** [valid_grid] as a check by evaluation. *)
Definition valid_gridb (g : list Z) : bool :=
  (Z.of_nat (length g) =? 81) &&
  forallb (fun u => forallb (fun d => countZ d (map (cell_value g) u) =? 1) (seqZ 49 9))
    units.

Definition keeps_hintsb (s g : list Z) : bool :=
  forallb (fun x =>
    match getZ s x with
    | Some ch => negb (is_digit ch) || bool_decide (getZ g x = Some ch)
    | None => true
    end) (seqZ 0 81).

(** * Further notions used to state properties of the four functions *)

(** Two givens with the same digit stand in one row, column or box. *)
Definition givens_conflict (s : list Z) : Prop :=
  ∃ u x y ch, u ∈ units ∧ x ∈ u ∧ y ∈ u ∧ x ≠ y ∧ is_digit ch = true ∧
              getZ s x = Some ch ∧ getZ s y = Some ch.

(** [givens_conflict] as a check by evaluation. *)
Definition givens_conflictb (s : list Z) : bool :=
  existsb (fun u =>
    existsb (fun x =>
      existsb (fun y =>
        negb (x =? y) &&
        match getZ s x, getZ s y with
        | Some a, Some b => is_digit a && (a =? b)
        | _, _ => false
        end) u) u) units.

(** Givens without a conflict and without a solution: cells (0,7) and (0,8)
    can both only take 9.  The first scan finds a constraint with one
    candidate, so the dead end is met at depth 1. *)
Definition puzzle_stuck : list Z :=
  chars "1234567...........................8...........................8..................".

(** After [k] steps: the search is at depth 0 in the forward direction only
    at the very start, and can have fallen below depth 0 at the bottom half
    of the loop body only in the first iteration; nothing is written yet in
    either case. *)
Definition quiet (k : nat) (st : state) : Prop :=
  (st_pc st = Head → st_dir st = 1 → st_i st <= 0 →
   k = 0%nat ∧ st_stdout st = []) ∧
  (st_pc st = Advance → st_i st < 0 → k = 1%nat ∧ st_stdout st = []).


(** What one iteration of the loop of [main] (lines 160-164) appends to the
    output for the line [l], given without its newline: nothing when the
    guard of line 161 skips it, else the lines of [sd_solve] and a newline. *)
Definition line_output (aux : sdaux_t) (fuel : nat) (l : list Z) : option (list Z) :=
  let buf := (l ++ [10]) ++ [0] in
  if strlen buf <? 81 then Some []
  else match sd_solve aux fuel buf with
       | Returned lines _ => Some (puts_bytes lines ++ [10])
       | _ => None
       end.

(** The standard input made of the lines [ls], each ended by a newline. *)
Definition input_of_lines (ls : list (list Z)) : list Z :=
  concat (map (fun l => l ++ [10]) ls).

(** A puzzle with exactly two solutions: [solved_classic] with the cells
    (0,3), (0,4), (3,3) and (3,4) emptied, which hold 6, 7 and 7, 6. *)
Definition puzzle_two : list Z :=
  chars "534..8912672195348198342567859..1423426853791713924856961537284287419635345286179".

Definition solved_two : list Z :=
  chars "534768912672195348198342567859671423426853791713924856961537284287419635345286179".

(** A line that is too short to be a puzzle. *)
Definition line_short : list Z := chars "53..7....".

(** Two inputs hold the same givens: wherever one of them has a digit among
    its first 81 characters, the other has the same character. *)
Definition same_givens (s s' : list Z) : Prop :=
  ∀ x ch ch', 0 <= x < 81 → getZ s x = Some ch → getZ s' x = Some ch' →
    is_digit ch = true ∨ is_digit ch' = true → ch = ch'.

(** Two states of the search that differ at most in the buffer [out]. *)
Definition same_but_out (a b : state) : Prop :=
  st_pc a = st_pc b ∧ st_i a = st_i b ∧ st_dir a = st_dir b ∧
  st_c0 a = st_c0 b ∧ st_hints a = st_hints b ∧ st_sc a = st_sc b ∧
  st_cr a = st_cr b ∧ st_cc a = st_cc b ∧ st_sr a = st_sr b ∧
  st_stdout a = st_stdout b.

(** [same_givens] as a check by evaluation. *)
Definition same_givensb (s s' : list Z) : bool :=
  forallb (fun x =>
    match getZ s x, getZ s' x with
    | Some a, Some b => negb (is_digit a || is_digit b) || (a =? b)
    | _, _ => true
    end) (seqZ 0 81).

(** The classic puzzle with 0 in place of the dots. *)
Definition puzzle_classic_zeros : list Z :=
  chars "530070000600195000098000060800060003400803001700020006060000280000419005000080079".

(** * Arrays and loops *)

(** The tables are kept folded when goals are simplified. *)
#[global] Arguments the_matrix : simpl never.
#[global] Arguments the_cursors : simpl never.
#[global] Arguments Rs : simpl never.
#[global] Arguments Cs : simpl never.
#[global] Arguments Ts : simpl never.
#[global] Arguments getZ2 : simpl never.
#[global] Arguments replicate : simpl never.

Lemma getZ_Some {A} (a : list A) i x :
  getZ a i = Some x ↔ 0 <= i ∧ a !! Z.to_nat i = Some x.
Proof.
  unfold getZ. destruct (Z.ltb_spec i 0).
  - split; [discriminate | intros [? _]; lia].
  - split; [intros; split; [lia | done] | tauto].
Qed.

Lemma getZ_range {A} (a : list A) i x :
  getZ a i = Some x → 0 <= i < Z.of_nat (length a).
Proof.
  rewrite getZ_Some. intros [? H%lookup_lt_Some]. lia.
Qed.

Lemma getZ_is_Some {A} (a : list A) i :
  0 <= i < Z.of_nat (length a) → is_Some (getZ a i).
Proof.
  intros. unfold getZ. destruct (Z.ltb_spec i 0); [lia|].
  apply lookup_lt_is_Some. lia.
Qed.

Lemma getZ_None {A} (a : list A) i :
  getZ a i = None ↔ ¬ (0 <= i < Z.of_nat (length a)).
Proof.
  split.
  - intros E H. destruct (getZ_is_Some a i H) as [x Hx]. congruence.
  - intros H. destruct (getZ a i) eqn:E; [|done].
    apply getZ_range in E. tauto.
Qed.

Lemma setZ_Some {A} (a : list A) i x a' :
  setZ a i x = Some a' ↔
  0 <= i < Z.of_nat (length a) ∧ a' = <[Z.to_nat i := x]> a.
Proof.
  unfold setZ.
  destruct (Z.leb_spec 0 i), (Z.ltb_spec i (Z.of_nat (length a))); simpl;
    split; intros H1; try (destruct H1; lia); try discriminate.
  - inversion H1. split; [lia | done].
  - destruct H1 as [_ ->]. done.
Qed.

Lemma setZ_is_Some {A} (a : list A) i x :
  0 <= i < Z.of_nat (length a) → ∃ a', setZ a i x = Some a'.
Proof.
  intros. exists (<[Z.to_nat i := x]> a). apply setZ_Some. done.
Qed.

Lemma setZ_length {A} (a : list A) i x a' :
  setZ a i x = Some a' → length a' = length a.
Proof. rewrite setZ_Some. intros [_ ->]. apply length_insert. Qed.

Lemma getZ_setZ_eq {A} (a : list A) i x a' :
  setZ a i x = Some a' → getZ a' i = Some x.
Proof.
  rewrite setZ_Some. intros [? ->]. apply getZ_Some. split; [lia|].
  apply list_lookup_insert_eq. lia.
Qed.

Lemma getZ_setZ_ne {A} (a : list A) i j x a' :
  setZ a i x = Some a' → i ≠ j → getZ a' j = getZ a j.
Proof.
  rewrite setZ_Some. intros [? ->] Hne. unfold getZ.
  destruct (Z.ltb_spec j 0); [done|].
  apply list_lookup_insert_ne. lia.
Qed.

Lemma getZ_setZ {A} (a : list A) i j x a' :
  setZ a i x = Some a' →
  getZ a' j = if Z.eqb i j then Some x else getZ a j.
Proof.
  intros H. destruct (Z.eqb_spec i j) as [->|Hne].
  - eapply getZ_setZ_eq; eauto.
  - eapply getZ_setZ_ne; eauto.
Qed.

Lemma forallb_seqZ (f : Z → bool) (n : Z) :
  forallb f (seqZ 0 n) = true → ∀ i, 0 <= i < n → f i = true.
Proof.
  rewrite forallb_forall. intros H i Hi. apply H.
  apply list_elem_of_In, elem_of_seqZ. lia.
Qed.

Lemma inb_spec (x : Z) (l : list Z) : inb x l = true ↔ x ∈ l.
Proof.
  unfold inb. rewrite existsb_exists. split.
  - intros (y & Hy & ->%Z.eqb_eq). by apply list_elem_of_In.
  - intros H. exists x. split; [by apply list_elem_of_In | apply Z.eqb_refl].
Qed.

Lemma nodupb_spec (l : list Z) : nodupb l = true → NoDup l.
Proof.
  induction l as [|x l IH]; simpl; [constructor|].
  rewrite andb_true_iff, negb_true_iff. intros [Hx Hl].
  constructor; [|by apply IH].
  rewrite <- inb_spec. congruence.
Qed.

Lemma all_below_spec (n : Z) (l : list Z) :
  all_below n l = true → ∀ x, x ∈ l → 0 <= x < n.
Proof.
  unfold all_below. rewrite forallb_forall. intros H x Hx%list_elem_of_In.
  apply H in Hx. lia.
Qed.

(** * The matrix *)

Lemma sd_genmat_nr_eq : sd_genmat_nr = Some (the_matrix, the_cursors).
Proof. vm_compute. reflexivity. Qed.

Lemma sd_genmat_eq : sd_genmat = Some the_matrix.
Proof. unfold sd_genmat. rewrite sd_genmat_nr_eq. reflexivity. Qed.

Lemma check_incidences_ok : forallb incid_ok (seqZ 0 9) = true.
Proof. vm_compute. reflexivity. Qed.

Lemma check_rows_ok : forallb row_ok (seqZ 0 324) = true.
Proof. vm_compute. reflexivity. Qed.

Lemma check_cols_ok : forallb col_ok (seqZ 0 729) = true.
Proof. vm_compute. reflexivity. Qed.

Lemma check_row_in_cols : forallb row_in_cols (seqZ 0 324) = true.
Proof. vm_compute. reflexivity. Qed.

Lemma check_col_in_rows : forallb col_in_rows (seqZ 0 729) = true.
Proof. vm_compute. reflexivity. Qed.

Lemma matrix_incidences i j k :
  0 <= i < 9 → 0 <= j < 9 → 0 <= k < 9 →
  getZ (aux_c the_matrix) (81 * i + 9 * j + k) = Some (incidences i j k).
Proof.
  intros Hi Hj Hk. pose proof (forallb_seqZ _ _ check_incidences_ok i Hi) as H.
  unfold incid_ok in H.
  pose proof (forallb_seqZ _ _ H j Hj) as H1. cbv beta in H1.
  pose proof (forallb_seqZ _ _ H1 k Hk) as H2. cbv beta in H2.
  by apply bool_decide_eq_true in H2.
Qed.

Lemma Rs_facts c :
  0 <= c < 324 →
  getZ (aux_r the_matrix) c = Some (Rs c) ∧ length (Rs c) = 9%nat ∧
  NoDup (Rs c) ∧ (∀ p, p ∈ Rs c → 0 <= p < 729) ∧ getZ the_cursors c = Some 9.
Proof.
  intros Hc. pose proof (forallb_seqZ _ _ check_rows_ok c Hc) as H.
  unfold row_ok in H.
  rewrite !andb_true_iff in H. destruct H as [[[[H1 H2] H3] H4] H5].
  apply bool_decide_eq_true in H4, H5. destruct H5 as [row Hrow].
  split; [|split; [|split; [|split]]].
  - unfold Rs. rewrite Hrow. done.
  - lia.
  - by apply nodupb_spec.
  - exact (all_below_spec _ _ H3).
  - done.
Qed.

Lemma Cs_facts p :
  0 <= p < 729 →
  getZ (aux_c the_matrix) p = Some (Cs p) ∧ length (Cs p) = 4%nat ∧
  NoDup (Cs p) ∧ (∀ c, c ∈ Cs p → 0 <= c < 324).
Proof.
  intros Hp. pose proof (forallb_seqZ _ _ check_cols_ok p Hp) as H.
  unfold col_ok in H.
  rewrite !andb_true_iff in H. destruct H as [[[H1 H2] H3] H5].
  apply bool_decide_eq_true in H5. destruct H5 as [row Hrow].
  split; [|split; [|split]].
  - unfold Cs. rewrite Hrow. done.
  - lia.
  - by apply nodupb_spec.
  - exact (all_below_spec _ _ H3).
Qed.

Lemma Rs_Cs p c :
  0 <= p < 729 → 0 <= c < 324 → p ∈ Rs c ↔ c ∈ Cs p.
Proof.
  intros Hp Hc. split; intros Hin.
  - pose proof (forallb_seqZ _ _ check_row_in_cols c Hc) as H.
    unfold row_in_cols in H. rewrite forallb_forall in H.
    apply inb_spec, H. by apply list_elem_of_In.
  - pose proof (forallb_seqZ _ _ check_col_in_rows p Hp) as H.
    unfold col_in_rows in H. rewrite forallb_forall in H.
    apply inb_spec, H. by apply list_elem_of_In.
Qed.

(** C4: the choice numbered [81*i + 9*j + k] is incident to exactly one
    constraint of each family, with the indices [9*i + j] (row-column),
    [(i/3*3 + j/3)*9 + k + 81] (box-number), [9*i + k + 162] (row-number) and
    [9*j + k + 243] (col-number), each within the range of its family. *)
Theorem genmat_placement_constraints (i j k : Z) :
  0 <= i < 9 → 0 <= j < 9 → 0 <= k < 9 →
  ∃ a, sd_genmat = Some a ∧
    getZ (aux_c a) (81 * i + 9 * j + k) =
      Some [9 * i + j; (i / 3 * 3 + j / 3) * 9 + k + 81;
            9 * i + k + 162; 9 * j + k + 243] ∧
    0 <= 9 * i + j < 81 ∧
    81 <= (i / 3 * 3 + j / 3) * 9 + k + 81 < 162 ∧
    162 <= 9 * i + k + 162 < 243 ∧
    243 <= 9 * j + k + 243 < 324.
Proof.
  intros Hi Hj Hk. exists the_matrix. split; [apply sd_genmat_eq|].
  split; [by apply matrix_incidences|].
  assert (0 <= i / 3 <= 2) by (Z.div_mod_to_equations; lia).
  assert (0 <= j / 3 <= 2) by (Z.div_mod_to_equations; lia).
  lia.
Qed.

(** C5: in the matrix built by [sd_genmat] every constraint lists exactly
    nine distinct choices (its write cursor ends at 9), every choice lists
    exactly four distinct constraints, and choice [p] is listed under
    constraint [c] if and only if [c] is listed under [p]. *)
Theorem genmat_tables_consistent :
  ∃ a nr, sd_genmat_nr = Some (a, nr) ∧ sd_genmat = Some a ∧
    (∀ c, 0 <= c < 324 →
       ∃ row, getZ (aux_r a) c = Some row ∧ length row = 9%nat ∧ NoDup row ∧
              (∀ p, p ∈ row → 0 <= p < 729) ∧ getZ nr c = Some 9) ∧
    (∀ p, 0 <= p < 729 →
       ∃ col, getZ (aux_c a) p = Some col ∧ length col = 4%nat ∧ NoDup col ∧
              (∀ c, c ∈ col → 0 <= c < 324)) ∧
    (∀ p c row col, 0 <= p < 729 → 0 <= c < 324 →
       getZ (aux_r a) c = Some row → getZ (aux_c a) p = Some col →
       p ∈ row ↔ c ∈ col).
Proof.
  exists the_matrix, the_cursors.
  split; [apply sd_genmat_nr_eq|]. split; [apply sd_genmat_eq|].
  split; [|split].
  - intros c Hc. exists (Rs c). by apply Rs_facts.
  - intros p Hp. exists (Cs p). by apply Cs_facts.
  - intros p c row col Hp Hc Hrow Hcol.
    destruct (Rs_facts c Hc) as [E1 _]. destruct (Cs_facts p Hp) as [E2 _].
    assert (row = Rs c) as -> by congruence.
    assert (col = Cs p) as -> by congruence.
    by apply Rs_Cs.
Qed.

(** * Loops *)

Lemma for_range_reads {A S} (f : Z → option A) (g : A → S → option S)
    (body : Z → S → option S) :
  (∀ k s, body k s = x ← f k; g x s) →
  ∀ n lo s s',
    for_range lo n body s = Some s' ↔
    ∃ xs, reads f lo n = Some xs ∧ fold_opt g xs s = Some s'.
Proof.
  intros Hbody. induction n as [|n IH]; intros lo s s'; simpl.
  - split.
    + intros [= ->]. exists []. done.
    + intros (xs & [= <-] & H). done.
  - rewrite Hbody. destruct (f lo) as [x|]; simpl.
    + destruct (g x s) as [s1|] eqn:Eg; simpl.
      * rewrite IH. split.
        -- intros (xs & -> & H). exists (x :: xs). simpl. rewrite Eg. done.
        -- intros (xs & H1 & H2). destruct (reads f (lo + 1) n) as [xs'|]; [|done].
           simpl in H1. injection H1 as <-. simpl in H2. rewrite Eg in H2.
           exists xs'. done.
      * split; [done|]. intros (xs & H1 & H2).
        destruct (reads f (lo + 1) n) as [xs'|]; [|done].
        simpl in H1. injection H1 as <-. simpl in H2. rewrite Eg in H2. done.
    + split; [done|]. intros (xs & H1 & _). done.
Qed.

Lemma reads_length {A} (f : Z → option A) n lo xs :
  reads f lo n = Some xs → length xs = n.
Proof.
  revert lo xs. induction n as [|n IH]; intros lo xs; simpl.
  - by intros [= <-].
  - destruct (f lo); [|done]. simpl.
    destruct (reads f (lo + 1) n) eqn:E; [|done]. simpl. intros [= <-].
    simpl. f_equal. eauto.
Qed.

Lemma reads_lookup {A} (f : Z → option A) n lo xs :
  reads f lo n = Some xs →
  ∀ k, (k < n)%nat → xs !! k = f (lo + Z.of_nat k).
Proof.
  revert lo xs. induction n as [|n IH]; intros lo xs; simpl.
  - intros _ k Hk. lia.
  - destruct (f lo) eqn:Ef; [|done]. simpl.
    destruct (reads f (lo + 1) n) eqn:E; [|done]. simpl. intros [= <-].
    intros [|k] Hk; simpl.
    + rewrite Z.add_0_r. done.
    + rewrite (IH _ _ E k) by lia. f_equal. lia.
Qed.

Lemma reads_is_Some {A} (f : Z → option A) n lo :
  (∀ k, lo <= k < lo + Z.of_nat n → is_Some (f k)) →
  is_Some (reads f lo n).
Proof.
  revert lo. induction n as [|n IH]; intros lo H; simpl; [done|].
  destruct (H lo) as [x ->]; [lia|]. simpl.
  destruct (IH (lo + 1)) as [xs ->]; [intros; apply H; lia|]. done.
Qed.

(** * Machine integers *)

Lemma wrap_signed_range bits x :
  0 < bits → - 2 ^ (bits - 1) <= wrap_signed bits x < 2 ^ (bits - 1).
Proof.
  intros Hb. unfold wrap_signed.
  assert (2 ^ bits = 2 * 2 ^ (bits - 1)) as E.
  { rewrite <- Z.pow_succ_r by lia. f_equal. lia. }
  assert (0 < 2 ^ (bits - 1)) by (apply Z.pow_pos_nonneg; lia).
  pose proof (Z.mod_pos_bound (x + 2 ^ (bits - 1)) (2 ^ bits)). lia.
Qed.

Lemma wrap_signed_id bits x :
  0 < bits → - 2 ^ (bits - 1) <= x < 2 ^ (bits - 1) → wrap_signed bits x = x.
Proof.
  intros Hb Hx. unfold wrap_signed.
  assert (2 ^ bits = 2 * 2 ^ (bits - 1)) as E.
  { rewrite <- Z.pow_succ_r by lia. f_equal. lia. }
  rewrite Z.mod_small by lia. lia.
Qed.

Lemma wrap_signed_add bits x y :
  wrap_signed bits (wrap_signed bits x + y) = wrap_signed bits (x + y).
Proof.
  unfold wrap_signed. f_equal.
  replace ((x + 2 ^ (bits - 1)) mod 2 ^ bits - 2 ^ (bits - 1) + y + 2 ^ (bits - 1))
    with ((x + 2 ^ (bits - 1)) mod 2 ^ bits + y) by lia.
  rewrite Zplus_mod_idemp_l. f_equal. lia.
Qed.

Lemma int8_id x : in_int8 x → int8 x = x.
Proof. intros H. apply wrap_signed_id; [lia|]. unfold in_int8 in H. simpl. lia. Qed.

Lemma int16_id x : in_int16 x → int16 x = x.
Proof. intros H. apply wrap_signed_id; [lia|]. unfold in_int16 in H. simpl. lia. Qed.

Lemma int8_range x : in_int8 (int8 x).
Proof.
  pose proof (wrap_signed_range 8 x). unfold in_int8, int8.
  change (2 ^ (8 - 1)) with 128 in H. lia.
Qed.

Lemma int16_range x : in_int16 (int16 x).
Proof.
  pose proof (wrap_signed_range 16 x). unfold in_int16, int16.
  change (2 ^ (16 - 1)) with 32768 in H. lia.
Qed.

(** * The update primitive as a list of increments *)

Lemma add_at_cases conv a x v :
  (∃ y, getZ a x = Some y ∧ 0 <= x < Z.of_nat (length a) ∧
        add_at conv a x v = Some (<[Z.to_nat x := conv (y + v)]> a)) ∨
  (getZ a x = None ∧ ¬ 0 <= x < Z.of_nat (length a) ∧ add_at conv a x v = None).
Proof.
  unfold add_at. destruct (getZ a x) as [y|] eqn:E; simpl.
  - left. exists y. pose proof (getZ_range _ _ _ E) as Hx.
    split; [done|]. split; [done|]. apply setZ_Some. done.
  - right. apply getZ_None in E. done.
Qed.

Lemma bump_length conv v a x : length (bump conv v a x) = length a.
Proof.
  unfold bump. destruct (add_at_cases conv a x v) as [(y & _ & _ & ->)|(_ & _ & ->)]; simpl.
  - apply length_insert.
  - done.
Qed.

Lemma bumps_length conv v xs a : length (bumps conv v xs a) = length a.
Proof.
  revert a. induction xs as [|x xs IH]; intros a; simpl; [done|].
  unfold bumps in *. simpl. rewrite IH. apply bump_length.
Qed.

Lemma bumps_app conv v xs ys a :
  bumps conv v (xs ++ ys) a = bumps conv v ys (bumps conv v xs a).
Proof. unfold bumps. apply foldl_app. Qed.

Lemma add_at_Some conv a x v a1 :
  add_at conv a x v = Some a1 ↔
  0 <= x < Z.of_nat (length a) ∧ a1 = bump conv v a x.
Proof.
  unfold bump. destruct (add_at_cases conv a x v) as [(y & _ & ? & ->)|(_ & ? & ->)]; simpl.
  - split; [intros [= <-]; done | intros [_ ->]; done].
  - split; [done | tauto].
Qed.

Lemma fold_add_at conv v xs a a' :
  fold_opt (fun x a => add_at conv a x v) xs a = Some a' ↔
  Forall (fun x => 0 <= x < Z.of_nat (length a)) xs ∧ a' = bumps conv v xs a.
Proof.
  revert a. induction xs as [|x xs IH]; intros a; simpl.
  - split.
    + intros [= <-]. done.
    + intros [_ ->]. done.
  - destruct (add_at conv a x v) as [a1|] eqn:E; simpl.
    + apply add_at_Some in E as [Hx ->]. rewrite IH, bump_length. split.
      * intros [H ->]. split; [|done]. by constructor.
      * intros [H ->]. split; [|done]. by inversion H.
    + split; [done|]. intros [H _].
      assert (is_Some (add_at conv a x v)) as [? ?]; [|congruence].
      eexists. apply add_at_Some. split; [|done]. by inversion H.
Qed.

#[local] Opaque reads for_range.

Lemma sd_update_rows aux v cs sr sc sr' sc' :
  fold_opt (fun c '(sr, sc) =>
      sc' ← add_at int8 sc c v;
      sr' ← for_range 0 9 (fun r2 sr =>
               x ← getZ2 (aux_r aux) c r2; add_at int16 sr x v) sr;
      Some (sr', sc')) cs (sr, sc) = Some (sr', sc') ↔
  ∃ xs, rows_of aux cs = Some xs ∧
    Forall (fun c => 0 <= c < Z.of_nat (length sc)) cs ∧
    Forall (fun x => 0 <= x < Z.of_nat (length sr)) xs ∧
    sr' = bumps int16 v xs sr ∧ sc' = bumps int8 v cs sc.
Proof.
  revert sr sc. induction cs as [|c cs IH]; intros sr sc; simpl.
  - split.
    + intros [= <- <-]. exists []. done.
    + intros (xs & [= <-] & _ & _ & -> & ->). done.
  - destruct (add_at int8 sc c v) as [sc1|] eqn:Esc; simpl.
    2:{ split; [done|]. intros (xs & _ & Hc & _).
        assert (is_Some (add_at int8 sc c v)) as [? ?]; [|congruence].
        eexists. apply add_at_Some. split; [|done]. by inversion Hc. }
    apply add_at_Some in Esc as [Hc ->].
    destruct (for_range 0 9 (fun r2 sr => x ← getZ2 (aux_r aux) c r2; add_at int16 sr x v) sr)
      as [sr1|] eqn:Esr; simpl.
    + apply (for_range_reads (getZ2 (aux_r aux) c) (fun x a => add_at int16 a x v)) in Esr;
        [|done].
      destruct Esr as (ys & Hys & Hfold). rewrite Hys. simpl.
      apply fold_add_at in Hfold as [Hr ->].
      rewrite IH, bumps_length, bump_length. split.
      * intros (xs & -> & H1 & H2 & -> & ->). exists (ys ++ xs). simpl.
        split; [done|]. split; [|split; [|split]].
        -- by constructor.
        -- by apply Forall_app.
        -- by rewrite bumps_app.
        -- done.
      * intros (zs & Hzs & H1 & H2 & -> & ->).
        destruct (rows_of aux cs) as [xs|]; [|done]. simpl in Hzs. injection Hzs as <-.
        exists xs. apply Forall_app in H2 as [_ H2]. inversion H1; subst.
        by rewrite bumps_app.
    + split; [done|]. intros (zs & Hzs & H1 & H2 & _).
      destruct (reads (getZ2 (aux_r aux) c) 0 9) as [ys|] eqn:Hys; [|done].
      simpl in Hzs. destruct (rows_of aux cs) as [xs|]; [|done].
      simpl in Hzs. injection Hzs as <-.
      assert (is_Some (for_range 0 9 (fun r2 sr => x ← getZ2 (aux_r aux) c r2; add_at int16 sr x v) sr))
        as [? ?]; [|congruence].
      eexists.
      apply (for_range_reads (getZ2 (aux_r aux) c) (fun x a => add_at int16 a x v)); [done|].
      exists ys. split; [done|]. apply fold_add_at. split; [|done].
      by apply Forall_app in H2 as [H2 _].
Qed.

Lemma sd_update_spec aux sr sc r v sr' sc' :
  sd_update aux sr sc r v = Some (sr', sc') ↔
  ∃ cs xs, touches aux r = Some (cs, xs) ∧
    Forall (fun c => 0 <= c < Z.of_nat (length sc)) cs ∧
    Forall (fun x => 0 <= x < Z.of_nat (length sr)) xs ∧
    sr' = bumps int16 v xs sr ∧ sc' = bumps int8 v cs sc.
Proof.
  unfold sd_update, touches.
  rewrite (for_range_reads (getZ2 (aux_c aux) r)
    (fun c '(sr, sc) =>
      sc' ← add_at int8 sc c v;
      sr' ← for_range 0 9 (fun r2 sr =>
               x ← getZ2 (aux_r aux) c r2; add_at int16 sr x v) sr;
      Some (sr', sc'))).
  2:{ intros k [a b]. done. }
  split.
  - intros (cs & Hcs & H). apply sd_update_rows in H as (xs & Hxs & H).
    exists cs, xs. rewrite Hcs. simpl. rewrite Hxs. done.
  - intros (cs & xs & H & H').
    destruct (reads (getZ2 (aux_c aux) r) 0 4) as [cs'|]; [|done]. simpl in H.
    destruct (rows_of aux cs') as [xs'|] eqn:E; [|done]. simpl in H.
    injection H as <- <-. exists cs'. split; [done|].
    apply sd_update_rows. exists xs'. done.
Qed.

#[local] Transparent reads for_range.

Lemma getZ_of_nat {A} (a : list A) (n : nat) : getZ a (Z.of_nat n) = a !! n.
Proof.
  unfold getZ. destruct (Z.ltb_spec (Z.of_nat n) 0); [lia|]. by rewrite Nat2Z.id.
Qed.

Lemma list_eq_getZ {A} (a b : list A) : (∀ k, getZ a k = getZ b k) → a = b.
Proof. intros H. apply list_eq. intros n. rewrite <- !getZ_of_nat. apply H. Qed.

Lemma getZ_bump conv v a x k :
  getZ (bump conv v a x) k =
  if x =? k then (fun y => conv (y + v)) <$> getZ a k else getZ a k.
Proof.
  unfold bump.
  destruct (add_at_cases conv a x v) as [(y & Hy & Hx & ->)|(Hy & Hx & ->)]; simpl.
  - destruct (Z.eqb_spec x k) as [<-|Hne].
    + rewrite Hy. simpl. apply getZ_Some. split; [lia|].
      apply list_lookup_insert_eq. lia.
    + unfold getZ. destruct (Z.ltb_spec k 0); [done|].
      apply list_lookup_insert_ne. lia.
  - destruct (Z.eqb_spec x k) as [<-|Hne]; [by rewrite Hy | done].
Qed.

Lemma getZ_bumps bits v xs : 
  0 < bits →
  ∀ a k,
    (∀ y, getZ a k = Some y → - 2 ^ (bits - 1) <= y < 2 ^ (bits - 1)) →
    getZ (bumps (wrap_signed bits) v xs a) k =
    (fun y => wrap_signed bits (y + v * countZ k xs)) <$> getZ a k.
Proof.
  intros Hb. induction xs as [|x xs IH]; intros a k Ha.
  - simpl. destruct (getZ a k) as [y|] eqn:E; [|done]. simpl.
    rewrite Z.mul_0_r, Z.add_0_r, wrap_signed_id; auto.
  - change (bumps (wrap_signed bits) v (x :: xs) a)
      with (bumps (wrap_signed bits) v xs (bump (wrap_signed bits) v a x)).
    rewrite IH.
    + rewrite getZ_bump. simpl. destruct (Z.eqb_spec x k) as [->|Hne].
      * destruct (getZ a k) as [y|]; [|done]. simpl.
        rewrite wrap_signed_add. do 2 f_equal. lia.
      * destruct (getZ a k) as [y|]; [|done]. simpl. do 2 f_equal; lia.
    + intros y. rewrite getZ_bump. destruct (Z.eqb_spec x k) as [->|Hne]; [|by auto].
      destruct (getZ a k) as [y'|]; [|done]. simpl. intros [= <-].
      by apply wrap_signed_range.
Qed.

Lemma Forall_getZ {A} (P : A → Prop) (a : list A) k y :
  Forall P a → getZ a k = Some y → P y.
Proof.
  intros H [_ E]%getZ_Some. eapply Forall_lookup in H; eauto.
Qed.

Lemma bumps_undo bits xs a :
  0 < bits →
  Forall (fun y => - 2 ^ (bits - 1) <= y < 2 ^ (bits - 1)) a →
  bumps (wrap_signed bits) (-1) xs (bumps (wrap_signed bits) 1 xs a) = a.
Proof.
  intros Hb Ha. apply list_eq_getZ. intros k.
  rewrite getZ_bumps; [|done|].
  - rewrite getZ_bumps; [|done|by intros y Hy; apply (Forall_getZ _ _ _ _ Ha Hy)].
    destruct (getZ a k) as [y|] eqn:E; [|done]. simpl. f_equal.
    rewrite wrap_signed_add.
    replace (y + 1 * countZ k xs + -1 * countZ k xs) with y by lia.
    apply wrap_signed_id; [done|]. apply (Forall_getZ _ _ _ _ Ha E).
  - intros y. rewrite getZ_bumps; [|done|by intros y' Hy'; apply (Forall_getZ _ _ _ _ Ha Hy')].
    destruct (getZ a k) as [y'|]; [|done]. simpl. intros [= <-].
    by apply wrap_signed_range.
Qed.

(** C3: on any matrix and any state whose counters are values of their
    types, [sd_update] with [v = +1] followed by [sd_update] with [v = -1] on
    the same choice gives back exactly the state before the two calls (the
    first call being defined, that is, staying inside the arrays). *)
Theorem sd_update_inverse (aux : sdaux_t) (sr sc : list Z) (r : Z) (sr1 sc1 : list Z) :
  Forall in_int16 sr → Forall in_int8 sc →
  sd_update aux sr sc r 1 = Some (sr1, sc1) →
  sd_update aux sr1 sc1 r (-1) = Some (sr, sc).
Proof.
  intros Hsr Hsc H.
  apply sd_update_spec in H as (cs & xs & Ht & Hcs & Hxs & -> & ->).
  apply sd_update_spec. exists cs, xs.
  rewrite !bumps_length. split; [done|]. split; [done|]. split; [done|].
  change int16 with (wrap_signed 16). change int8 with (wrap_signed 8).
  rewrite !bumps_undo; try done; try lia.
  - eapply List.Forall_impl; [|exact Hsc]. unfold in_int8. simpl. intros; lia.
  - eapply List.Forall_impl; [|exact Hsr]. unfold in_int16. simpl. intros; lia.
Qed.

(** * What [sd_solve] reads, and the driver *)






(** The classic puzzle of the specification is solved by the model. *)
Example sd_solve_classic :
  sd_solve the_matrix 300 puzzle_classic = Returned [solved_classic] 0.
Proof. vm_compute. reflexivity. Qed.

(** C9, not met by the code: a line shorter than 81 characters should be
    ignored.  A line of 80 characters arrives from [fgets] with its newline,
    so [strlen] is 81 and the test of line 161 does not skip it; the search
    runs on it (the newline is read as an empty 81st cell) and a grid is
    written. *)
Theorem main_does_not_skip_80_char_line :
  strlen (line_80 ++ [0]) = 81 ∧
  main 10 line_80 = MReturned (solved_classic ++ [10; 10]) 0.
Proof. vm_compute. split; reflexivity. Qed.

(** A line whose [strlen] is below 81, newline included, is skipped. *)
Lemma main_loop_skips aux fuel n input output line rest :
  fgets 1023 input = (line, rest) → line ≠ [] → strlen (line ++ [0]) < 81 →
  main_loop aux fuel (S n) input output = main_loop aux fuel n rest output.
Proof.
  intros Hf Hne Hlen. cbn [main_loop]. rewrite Hf.
  destruct line as [|ch line]; [done|].
  destruct (Z.ltb_spec (strlen ((ch :: line) ++ [0])) 81); [done | lia].
Qed.

(** C7, not met by the code: [sd_solve] should terminate on every input.
    When the first scan finds a constraint without candidates, line 137 takes
    [i] from 0 to -1 and line 139 reads [cc[-1]] before the loop condition is
    tested again; for every amount of fuel the run ends in that access. *)
Theorem sd_solve_dead_cell_out_of_bounds (fuel : nat) :
  sd_solve the_matrix (S (S fuel)) puzzle_dead_cell = Undefined.
Proof.
  assert ((st ← sd_init the_matrix puzzle_dead_cell;
           match step the_matrix st with
           | Next st' => Some (st_pc st', st_i st', step the_matrix st')
           | _ => None
           end) = Some (Advance, -1, Fault)) as H
    by (vm_compute; reflexivity).
  unfold sd_solve.
  destruct (sd_init the_matrix puzzle_dead_cell) as [st|]; [|done].
  cbn [run]. simpl in H.
  destruct (step the_matrix st) as [st'| |]; [|done|done].
  cbn [run]. injection H as _ _ ->. done.
Qed.

(** C6, counterexample: the givens are never checked against each other.
    Here the first scan meets the constraint of the one empty cell, finds a
    single candidate and stops scanning (line 135); the cell is filled and
    the grid is written, although row 0 holds two 3s. *)
Lemma conflicting_hints_can_yield :
  ¬ (∀ (s : list Z) (fuel : nat) (lines : list (list Z)) (ret : Z),
       length s = 81%nat → row_conflict s →
       sd_solve the_matrix fuel s = Returned lines ret → lines = []).
Proof.
  intros H.
  specialize (H puzzle_conflict 10%nat [grid_conflict] 0).
  assert ([grid_conflict] = []) as E; [|discriminate E].
  apply H.
  - reflexivity.
  - exists 0, 1, 51. vm_compute. repeat split; congruence.
  - vm_compute. reflexivity.
Qed.

(** * Counting *)

Lemma countZ_nonneg k xs : 0 <= countZ k xs.
Proof. induction xs as [|x xs IH]; simpl; [lia|]. destruct (x =? k); lia. Qed.

Lemma countZ_le_length k xs : countZ k xs <= Z.of_nat (length xs).
Proof. induction xs as [|x xs IH]; simpl; [lia|]. destruct (x =? k); lia. Qed.


Lemma countZ_zero k xs : countZ k xs = 0 ↔ k ∉ xs.
Proof.
  induction xs as [|x xs IH]; simpl.
  - split; [intros _ H; by apply elem_of_nil in H | done].
  - pose proof (countZ_nonneg k xs). rewrite not_elem_of_cons.
    destruct (Z.eqb_spec x k) as [->|Hne].
    + split; [lia | intros [? _]; done].
    + rewrite Z.add_0_l, IH. split; [intros; split; [congruence | done] | tauto].
Qed.

Lemma countZ_pos k xs : 1 <= countZ k xs ↔ k ∈ xs.
Proof.
  pose proof (countZ_nonneg k xs). pose proof (countZ_zero k xs) as Hz.
  split.
  - intros H1. destruct (decide (k ∈ xs)) as [|Hn]; [done|].
    apply Hz in Hn. lia.
  - intros Hin. destruct (decide (countZ k xs = 0)) as [E|E]; [|lia].
    apply Hz in E. done.
Qed.

Lemma countZ_NoDup k xs : NoDup xs → countZ k xs <= 1.
Proof.
  induction 1 as [|x xs Hx Hnd IH]; simpl; [lia|].
  destruct (Z.eqb_spec x k) as [->|Hne]; [|lia].
  apply countZ_zero in Hx. lia.
Qed.

Lemma countZ_NoDup_in k xs : NoDup xs → k ∈ xs → countZ k xs = 1.
Proof.
  intros Hnd Hin. apply countZ_pos in Hin. pose proof (countZ_NoDup k xs Hnd). lia.
Qed.

(** Two different positions of [u] with the same image count twice. *)
Lemma countZ_map_twice (f : Z → Z) u x y v :
  NoDup u → x ∈ u → y ∈ u → x ≠ y → f x = v → f y = v →
  2 <= countZ v (map f u).
Proof.
  intros Hnd Hx Hy Hne Hfx Hfy.
  induction Hnd as [|z u Hz Hnd IH]; [by apply elem_of_nil in Hx|].
  simpl. pose proof (countZ_nonneg v (map f u)).
  apply elem_of_cons in Hx as [->|Hx], Hy as [->|Hy].
  - done.
  - rewrite Hfx, Z.eqb_refl.
    assert (1 <= countZ v (map f u)); [|lia].
    apply countZ_pos. rewrite <- Hfy. apply list_elem_of_fmap_2. done.
  - rewrite Hfy, Z.eqb_refl.
    assert (1 <= countZ v (map f u)); [|lia].
    apply countZ_pos. rewrite <- Hfx. apply list_elem_of_fmap_2. done.
  - specialize (IH Hx Hy). destruct (f z =? v); lia.
Qed.

Lemma weight_app f P Q k : weight f (P ++ Q) k = weight f P k + weight f Q k.
Proof. induction P as [|p P IH]; simpl; [lia|]. rewrite IH. lia. Qed.

Lemma weight_bounds f P k b :
  (∀ p, p ∈ P → 0 <= f p k <= b) →
  0 <= weight f P k <= b * Z.of_nat (length P).
Proof.
  induction P as [|p P IH]; intros H; simpl; [lia|].
  assert (0 <= f p k <= b) by (apply H; left).
  assert (0 <= weight f P k <= b * Z.of_nat (length P)).
  { apply IH. intros q Hq. apply H. by right. }
  lia.
Qed.

Lemma weight_nonneg f P k :
  (∀ p, p ∈ P → 0 <= f p k) → 0 <= weight f P k.
Proof.
  induction P as [|p P IH]; intros H; simpl; [lia|].
  assert (0 <= f p k) by (apply H; left).
  assert (0 <= weight f P k) by (apply IH; intros q Hq; apply H; by right).
  lia.
Qed.

Lemma weight_zero f P k :
  (∀ p, p ∈ P → 0 <= f p k) →
  weight f P k = 0 ↔ ∀ p, p ∈ P → f p k = 0.
Proof.
  induction P as [|p P IH]; intros H; simpl.
  - split; [intros _ p Hp; by apply elem_of_nil in Hp | done].
  - assert (0 <= f p k) by (apply H; left).
    assert (∀ q, q ∈ P → 0 <= f q k) as H' by (intros q Hq; apply H; by right).
    pose proof (weight_nonneg f P k H').
    split.
    + intros E p' [->|Hp]%elem_of_cons; [lia|]. apply IH; [done|lia|done].
    + intros E. rewrite (E p) by left.
      rewrite (proj2 (IH H')); [lia|]. intros q Hq. apply E. by right.
Qed.

(** * The matrix and the counters *)

Lemma check_touches : forallb touches_ok (seqZ 0 729) = true.
Proof. vm_compute. reflexivity. Qed.

Lemma check_Ts_length : forallb Ts_length_ok (seqZ 0 729) = true.
Proof. vm_compute. reflexivity. Qed.

Lemma check_cell_constraint : forallb cell_constraint_ok (seqZ 0 729) = true.
Proof. vm_compute. reflexivity. Qed.

Lemma check_cell_row : forallb cell_row_ok (seqZ 0 81) = true.
Proof. vm_compute. reflexivity. Qed.

Lemma check_unit_row : forallb unit_row_ok (seqZ 0 324) = true.
Proof. vm_compute. reflexivity. Qed.

Lemma check_unit_constraint : forallb unit_constraint_ok (seqZ 0 27) = true.
Proof. vm_compute. reflexivity. Qed.

Lemma touches_matrix p :
  0 <= p < 729 → touches the_matrix p = Some (Cs p, Ts p).
Proof.
  intros Hp. pose proof (forallb_seqZ _ _ check_touches p Hp) as H.
  unfold touches_ok in H. by apply bool_decide_eq_true in H.
Qed.

Lemma Cs_outside p : ¬ 0 <= p < 729 → Cs p = [].
Proof.
  intros Hp. unfold Cs.
  destruct (getZ (aux_c the_matrix) p) as [row|] eqn:E; [|done].
  apply getZ_range in E. change (Z.of_nat (length (aux_c the_matrix))) with 729 in E.
  lia.
Qed.

Lemma elem_of_Ts p x : x ∈ Ts p ↔ ∃ c, c ∈ Cs p ∧ x ∈ Rs c.
Proof.
  unfold Ts. induction (Cs p) as [|c cs IH]; simpl.
  - split; [intros H; by apply elem_of_nil in H|].
    intros (c & H & _). by apply elem_of_nil in H.
  - rewrite elem_of_app, IH. split.
    + intros [H|(c' & H1 & H2)].
      * exists c. split; [left | done].
      * exists c'. split; [by right | done].
    + intros (c' & [->|H1]%elem_of_cons & H2); [by left|].
      right. exists c'. done.
Qed.

Lemma Ts_range p x : x ∈ Ts p → 0 <= x < 729.
Proof.
  rewrite elem_of_Ts. intros (c & Hc & Hx).
  destruct (decide (0 <= p < 729)) as [Hp|Hp].
  - destruct (Cs_facts p Hp) as (_ & _ & _ & Hr).
    destruct (Rs_facts c (Hr c Hc)) as (_ & _ & _ & Hr' & _). by apply Hr'.
  - rewrite (Cs_outside p Hp) in Hc. by apply elem_of_nil in Hc.
Qed.

Lemma Cs_range p c : c ∈ Cs p → 0 <= c < 324.
Proof.
  intros Hc. destruct (decide (0 <= p < 729)) as [Hp|Hp].
  - destruct (Cs_facts p Hp) as (_ & _ & _ & Hr). by apply Hr.
  - rewrite (Cs_outside p Hp) in Hc. by apply elem_of_nil in Hc.
Qed.

Lemma sd_update_matrix sr sc p v :
  0 <= p < 729 → length sr = 729%nat → length sc = 324%nat →
  sd_update the_matrix sr sc p v =
    Some (bumps int16 v (Ts p) sr, bumps int8 v (Cs p) sc).
Proof.
  intros Hp Hsr Hsc. apply sd_update_spec. exists (Cs p), (Ts p).
  split; [by apply touches_matrix|]. split; [|split; [|done]].
  - apply list.Forall_forall. intros c Hc. apply Cs_range in Hc. lia.
  - apply list.Forall_forall. intros x Hx. apply Ts_range in Hx. lia.
Qed.

Lemma hit_bounds p k : 0 <= hit p k <= 36.
Proof.
  unfold hit. pose proof (countZ_nonneg k (Ts p)).
  pose proof (countZ_le_length k (Ts p)).
  destruct (decide (0 <= p < 729)) as [Hp|Hp].
  - pose proof (forallb_seqZ _ _ check_Ts_length p Hp) as E.
    unfold Ts_length_ok in E. lia.
  - unfold Ts in *. rewrite (Cs_outside p Hp) in *. simpl in *. lia.
Qed.

Lemma inc_bounds p c : 0 <= inc p c <= 1.
Proof.
  unfold inc. pose proof (countZ_nonneg c (Cs p)). split; [done|].
  apply countZ_NoDup.
  destruct (decide (0 <= p < 729)) as [Hp|Hp].
  - by destruct (Cs_facts p Hp) as (_ & _ & ? & _).
  - rewrite (Cs_outside p Hp). constructor.
Qed.

Lemma inc_zero p c : inc p c = 0 ↔ c ∉ Cs p.
Proof. apply countZ_zero. Qed.

Lemma hit_zero p q :
  0 <= q < 729 → hit p q = 0 ↔ ¬ shares p q.
Proof.
  intros Hq. unfold hit, shares. rewrite countZ_zero, elem_of_Ts.
  split; intros H (c & Hc & Hx); apply H; exists c; split; try done.
  - apply Rs_Cs; [done | by eapply Cs_range | done].
  - apply Rs_Cs; [done | by eapply Cs_range | done].
Qed.

Lemma shares_sym p q : shares p q → shares q p.
Proof. intros (c & ? & ?). by exists c. Qed.

Lemma weight_hit_bounds P k : 0 <= weight hit P k <= 36 * Z.of_nat (length P).
Proof. apply weight_bounds. intros p _. apply hit_bounds. Qed.

Lemma weight_inc_bounds P c : 0 <= weight inc P c <= Z.of_nat (length P).
Proof.
  pose proof (weight_bounds inc P c 1) as H. rewrite Z.mul_1_l in H.
  apply H. intros p _. apply inc_bounds.
Qed.

Lemma weight_hit_zero P q :
  0 <= q < 729 → weight hit P q = 0 ↔ ∀ p, p ∈ P → ¬ shares p q.
Proof.
  intros Hq. rewrite weight_zero by (intros; apply hit_bounds).
  split; intros H p Hp; by apply (hit_zero p q Hq), H.
Qed.

Lemma weight_inc_zero P c :
  weight inc P c = 0 ↔ ∀ p, p ∈ P → c ∉ Cs p.
Proof.
  rewrite weight_zero by (intros; apply inc_bounds).
  split; intros H p Hp; by apply inc_zero, H.
Qed.

(** Applying and reverting a choice on counters that track [P]. *)
Lemma tracks_push sr sc P p :
  tracks sr sc P → (length P <= 80)%nat → 0 <= p < 729 →
  ∃ sr' sc', sd_update the_matrix sr sc p 1 = Some (sr', sc') ∧
             tracks sr' sc' (P ++ [p]).
Proof.
  intros (Lsr & Lsc & Hsr & Hsc) HP Hp.
  rewrite sd_update_matrix by done. eexists _, _. split; [done|].
  split; [by rewrite bumps_length|]. split; [by rewrite bumps_length|].
  split.
  - intros k Hk. change int16 with (wrap_signed 16).
    rewrite getZ_bumps; [|lia|].
    + rewrite Hsr by done. simpl. f_equal. rewrite weight_app. simpl.
      fold (hit p k). pose proof (weight_hit_bounds P k). pose proof (hit_bounds p k).
      rewrite wrap_signed_id; simpl; lia.
    + intros y. rewrite Hsr by done. intros [= <-].
      pose proof (weight_hit_bounds P k). simpl. lia.
  - intros c Hc. change int8 with (wrap_signed 8).
    rewrite getZ_bumps; [|lia|].
    + rewrite Hsc by done. simpl. f_equal. rewrite weight_app. simpl.
      fold (inc p c). pose proof (weight_inc_bounds P c). pose proof (inc_bounds p c).
      rewrite wrap_signed_id; simpl; lia.
    + intros y. rewrite Hsc by done. intros [= <-].
      pose proof (weight_inc_bounds P c). simpl. lia.
Qed.

Lemma tracks_pop sr sc P p :
  tracks sr sc (P ++ [p]) → (length P <= 80)%nat → 0 <= p < 729 →
  ∃ sr' sc', sd_update the_matrix sr sc p (-1) = Some (sr', sc') ∧
             tracks sr' sc' P.
Proof.
  intros (Lsr & Lsc & Hsr & Hsc) HP Hp.
  rewrite sd_update_matrix by done. eexists _, _. split; [done|].
  split; [by rewrite bumps_length|]. split; [by rewrite bumps_length|].
  split.
  - intros k Hk. change int16 with (wrap_signed 16).
    pose proof (weight_hit_bounds (P ++ [p]) k) as Hb.
    rewrite length_app in Hb. simpl in Hb.
    rewrite getZ_bumps; [|lia|].
    + rewrite Hsr by done. simpl. f_equal. rewrite weight_app. simpl.
      fold (hit p k). pose proof (weight_hit_bounds P k). pose proof (hit_bounds p k).
      rewrite wrap_signed_id; simpl; lia.
    + intros y. rewrite Hsr by done. intros [= <-]. simpl. lia.
  - intros c Hc. change int8 with (wrap_signed 8).
    pose proof (weight_inc_bounds (P ++ [p]) c) as Hb.
    rewrite length_app in Hb. simpl in Hb.
    rewrite getZ_bumps; [|lia|].
    + rewrite Hsc by done. simpl. f_equal. rewrite weight_app. simpl.
      fold (inc p c). pose proof (weight_inc_bounds P c). pose proof (inc_bounds p c).
      rewrite wrap_signed_id; simpl; lia.
    + intros y. rewrite Hsc by done. intros [= <-]. simpl. lia.
Qed.

(** * Cells, units and digits *)

Lemma div9 x d : 0 <= d < 9 → (9 * x + d) / 9 = x.
Proof. intros. Z.div_mod_to_equations. lia. Qed.

Lemma mod9 x d : 0 <= d < 9 → (9 * x + d) mod 9 = d.
Proof. intros. Z.div_mod_to_equations. lia. Qed.

Lemma divmod9 p : p = 9 * (p / 9) + p mod 9.
Proof. Z.div_mod_to_equations. lia. Qed.

Lemma same_cell_digit p q : p / 9 = q / 9 → p mod 9 = q mod 9 → p = q.
Proof. intros H1 H2. rewrite (divmod9 p), (divmod9 q). congruence. Qed.

Lemma cell_in_Cs p : 0 <= p < 729 → p / 9 ∈ Cs p.
Proof.
  intros Hp. pose proof (forallb_seqZ _ _ check_cell_constraint p Hp) as H.
  unfold cell_constraint_ok in H. apply andb_true_iff in H as [H _].
  by apply inb_spec.
Qed.

Lemma Cs_cell p c : 0 <= p < 729 → c ∈ Cs p → c < 81 → c = p / 9.
Proof.
  intros Hp Hc Hlt. pose proof (forallb_seqZ _ _ check_cell_constraint p Hp) as H.
  unfold cell_constraint_ok in H. apply andb_true_iff in H as [_ H].
  rewrite forallb_forall in H. apply list_elem_of_In, H in Hc. lia.
Qed.

Lemma Rs_cell c : 0 <= c < 81 → Rs c = map (fun d => 9 * c + d) (seqZ 0 9).
Proof.
  intros Hc. pose proof (forallb_seqZ _ _ check_cell_row c Hc) as H.
  unfold cell_row_ok in H. by apply bool_decide_eq_true in H.
Qed.

Lemma Rs_unit c :
  81 <= c < 324 →
  unit_cells_of c ∈ units ∧ ∀ q, q ∈ Rs c → q mod 9 = c mod 9.
Proof.
  intros Hc. assert (0 <= c < 324) as Hc' by lia.
  pose proof (forallb_seqZ _ _ check_unit_row c Hc') as H.
  unfold unit_row_ok in H. apply orb_true_iff in H as [H|H]; [lia|].
  apply andb_true_iff in H as [H1 H2]. split.
  - apply existsb_exists in H1 as (u & Hu & E). apply bool_decide_eq_true in E.
    rewrite E. by apply list_elem_of_In.
  - rewrite forallb_forall in H2. intros q Hq%list_elem_of_In. apply H2 in Hq. lia.
Qed.

Lemma unit_constraint_facts ui d :
  0 <= ui < 27 → 0 <= d < 9 →
  81 <= unit_constraint ui d < 324 ∧ unit_constraint ui d mod 9 = d ∧
  units !! Z.to_nat ui = Some (unit_cells_of (unit_constraint ui d)).
Proof.
  intros Hui Hd. pose proof (forallb_seqZ _ _ check_unit_constraint ui Hui) as H.
  unfold unit_constraint_ok in H.
  pose proof (forallb_seqZ _ _ H d Hd) as H1. cbv beta zeta in H1.
  rewrite !andb_true_iff in H1. destruct H1 as [[[H1 H2] H3] H4].
  apply bool_decide_eq_true in H4. split; [lia|]. split; [lia | done].
Qed.

Lemma units_shape u :
  u ∈ units → length u = 9%nat ∧ NoDup u ∧ ∀ x, x ∈ u → 0 <= x < 81.
Proof.
  assert (forallb unit_shape_ok units = true) as H by (vm_compute; reflexivity).
  rewrite forallb_forall in H. intros Hu%list_elem_of_In. apply H in Hu.
  unfold unit_shape_ok in Hu. rewrite !andb_true_iff in Hu.
  destruct Hu as [[H1 H2] H3]. split; [lia|]. split; [by apply nodupb_spec|].
  exact (all_below_spec _ _ H3).
Qed.

Lemma cell_in_unit x : 0 <= x < 81 → ∃ u, u ∈ units ∧ x ∈ u.
Proof.
  intros Hx.
  assert (forallb cell_in_unit_ok (seqZ 0 81) = true) as H by (vm_compute; reflexivity).
  pose proof (forallb_seqZ _ _ H x Hx) as H1. unfold cell_in_unit_ok in H1.
  apply existsb_exists in H1 as (u & Hu & Hin). exists u.
  split; [by apply list_elem_of_In | by apply inb_spec].
Qed.

(** A choice lies in a unit constraint exactly when its cell is in the unit
    and its digit is the digit of the constraint. *)
Lemma in_Rs_unit c p :
  81 <= c < 324 → p / 9 ∈ unit_cells_of c → p mod 9 = c mod 9 → p ∈ Rs c.
Proof.
  intros Hc Hcell Hd. destruct (Rs_unit c Hc) as [_ Hdig].
  unfold unit_cells_of in Hcell. apply list_elem_of_fmap in Hcell as (q & E & Hq).
  assert (p = q) as ->; [|done].
  apply same_cell_digit; [done|]. rewrite (Hdig q Hq). done.
Qed.

Lemma same_cell_shares p q :
  0 <= p < 729 → 0 <= q < 729 → p / 9 = q / 9 → shares p q.
Proof.
  intros Hp Hq E. exists (p / 9). split; [by apply cell_in_Cs|].
  rewrite E. by apply cell_in_Cs.
Qed.

Lemma in_Rs_shares c p q :
  0 <= c < 324 → p ∈ Rs c → q ∈ Rs c → shares p q.
Proof.
  intros Hc Hp Hq. destruct (Rs_facts c Hc) as (_ & _ & _ & Hr & _).
  exists c. split; apply Rs_Cs; auto.
Qed.

(** * Grids *)

Lemma is_digit_spec ch : is_digit ch = true ↔ 49 <= ch <= 57.
Proof. unfold is_digit. lia. Qed.

Lemma cell_value_Some g x ch : getZ g x = Some ch → cell_value g x = ch.
Proof. unfold cell_value. by intros ->. Qed.

Lemma cell_value_nonzero g x : cell_value g x ≠ 0 → getZ g x = Some (cell_value g x).
Proof. unfold cell_value. destruct (getZ g x); simpl; [done|]. lia. Qed.

Lemma pl_digit g x ch :
  getZ g x = Some ch → is_digit ch = true → 0 <= x < 81 →
  pl g x = 9 * x + (ch - 49) ∧ 0 <= pl g x < 729 ∧ pl g x / 9 = x ∧
  pl g x mod 9 = ch - 49 ∧ contains g (pl g x).
Proof.
  intros E Hd%is_digit_spec Hx. unfold pl, contains.
  rewrite (cell_value_Some _ _ _ E).
  rewrite div9, mod9 by lia. rewrite E.
  repeat split; try lia. f_equal. lia.
Qed.

Lemma contains_pl g p : 0 <= p < 729 → contains g p → pl g (p / 9) = p.
Proof.
  intros Hp Hc. unfold contains in Hc. unfold pl.
  rewrite (cell_value_Some _ _ _ Hc). Z.div_mod_to_equations. lia.
Qed.

(** A list of nine values without repetition, all of them digits, holds
    every digit. *)
Lemma nine_digits (l : list Z) d :
  length l = 9%nat → NoDup l → (∀ v, v ∈ l → 49 <= v <= 57) → 49 <= d <= 57 →
  d ∈ l.
Proof.
  intros Hlen Hnd Hall Hd.
  assert (l ⊆+ seqZ 49 9) as Hsub.
  { apply NoDup_submseteq; [done|]. intros v Hv. apply elem_of_seqZ.
    apply Hall in Hv. lia. }
  assert (l ≡ₚ seqZ 49 9) as Hperm.
  { apply submseteq_length_Permutation; [done|]. rewrite length_seqZ. lia. }
  rewrite Hperm. apply elem_of_seqZ. lia.
Qed.

(** A list of nine values in which every digit occurs holds only digits. *)
Lemma only_digits (l : list Z) v :
  length l = 9%nat → (∀ d, 49 <= d <= 57 → d ∈ l) → v ∈ l → 49 <= v <= 57.
Proof.
  intros Hlen Hall Hv.
  assert (seqZ 49 9 ⊆+ l) as Hsub.
  { apply NoDup_submseteq; [apply NoDup_seqZ|]. intros d Hd%elem_of_seqZ.
    apply Hall. lia. }
  assert (seqZ 49 9 ≡ₚ l) as Hperm.
  { apply submseteq_length_Permutation; [done|]. rewrite length_seqZ. lia. }
  rewrite <- Hperm in Hv. apply elem_of_seqZ in Hv. lia.
Qed.

Lemma valid_grid_digit g x :
  valid_grid g → 0 <= x < 81 →
  ∃ ch, getZ g x = Some ch ∧ is_digit ch = true.
Proof.
  intros [Hlen Hval] Hx. destruct (cell_in_unit x Hx) as (u & Hu & Hxu).
  destruct (units_shape u Hu) as (Hl & _ & _).
  assert (49 <= cell_value g x <= 57) as Hv.
  { apply (only_digits (map (cell_value g) u)).
    - by rewrite length_map.
    - intros d Hd. apply countZ_pos. rewrite (Hval u d Hu Hd). lia.
    - by apply list_elem_of_fmap_2. }
  exists (cell_value g x). split; [apply cell_value_nonzero; lia|].
  by apply is_digit_spec.
Qed.

(** In a valid grid every constraint is met by a choice of the grid. *)
Lemma valid_grid_covers g c :
  valid_grid g → 0 <= c < 324 → ∃ q, q ∈ Rs c ∧ contains g q.
Proof.
  intros Hg Hc. destruct (decide (c < 81)) as [Hlt|Hge].
  - destruct (valid_grid_digit g c Hg) as (ch & E & Hd); [lia|].
    destruct (pl_digit g c ch E Hd) as (Epl & _ & _ & _ & Hcont); [lia|].
    exists (pl g c). split; [|done].
    rewrite Rs_cell by lia. rewrite Epl.
    apply (list_elem_of_fmap_2 (fun d => 9 * c + d)).
    apply elem_of_seqZ. apply is_digit_spec in Hd. lia.
  - destruct (Rs_unit c) as [Hu Hdig]; [lia|].
    destruct Hg as [Hlen Hval].
    assert (49 <= 49 + c mod 9 <= 57) as Hd by (Z.div_mod_to_equations; lia).
    pose proof (Hval _ _ Hu Hd) as Hcount.
    assert (49 + c mod 9 ∈ map (cell_value g) (unit_cells_of c)) as Hin.
    { apply countZ_pos. lia. }
    apply list_elem_of_fmap in Hin as (x & Ex & Hx).
    unfold unit_cells_of in Hx. apply list_elem_of_fmap in Hx as (q & -> & Hq).
    exists q. split; [done|]. unfold contains.
    rewrite (Hdig q Hq). replace (c mod 9 + 49) with (cell_value g (q / 9)) by lia.
    apply cell_value_nonzero. lia.
Qed.

(** In a valid grid two choices of the grid never share a constraint. *)
Lemma valid_grid_exclusive g p q :
  valid_grid g → 0 <= p < 729 → 0 <= q < 729 →
  contains g p → contains g q → shares p q → p = q.
Proof.
  intros Hg Hp Hq Hcp Hcq (c & Hc1 & Hc2).
  destruct (decide (p / 9 = q / 9)) as [E|Hne].
  { apply same_cell_digit; [done|]. unfold contains in *. rewrite E in Hcp.
    rewrite Hcp in Hcq. injection Hcq. lia. }
  exfalso. destruct (decide (c < 81)) as [Hlt|Hge].
  { apply Hne. rewrite <- (Cs_cell p c), <- (Cs_cell q c); done. }
  pose proof (Cs_range _ _ Hc1) as Hc.
  destruct (Rs_unit c) as [Hu Hdig]; [lia|].
  destruct (units_shape _ Hu) as (_ & Hnd & _).
  apply Rs_Cs in Hc1, Hc2; try done.
  destruct Hg as [_ Hval].
  assert (49 <= 49 + c mod 9 <= 57) as Hd by (Z.div_mod_to_equations; lia).
  pose proof (Hval _ _ Hu Hd) as Hcount.
  assert (2 <= countZ (49 + c mod 9) (map (cell_value g) (unit_cells_of c))); [|lia].
  apply (countZ_map_twice (cell_value g) _ (p / 9) (q / 9)); try done.
  - unfold unit_cells_of. by apply (list_elem_of_fmap_2 (fun q => q / 9)).
  - unfold unit_cells_of. by apply (list_elem_of_fmap_2 (fun q => q / 9)).
  - rewrite (cell_value_Some _ _ _ Hcp), (Hdig p Hc1). lia.
  - rewrite (cell_value_Some _ _ _ Hcq), (Hdig q Hc2). lia.
Qed.

(** A full grid of digits in which no two cells exclude each other is a
    valid grid. *)
Lemma no_conflict_valid g :
  length g = 81%nat →
  (∀ x, 0 <= x < 81 → ∃ ch, getZ g x = Some ch ∧ is_digit ch = true) →
  (∀ x y, 0 <= x < 81 → 0 <= y < 81 → x ≠ y → ¬ shares (pl g x) (pl g y)) →
  valid_grid g.
Proof.
  intros Hlen Hdig Hfree. split; [done|]. intros u d Hu Hd.
  destruct (units_shape u Hu) as (Hl & Hnd & Hr).
  apply list_elem_of_lookup in Hu as [i Hi].
  assert (i < 27)%nat as Hi27.
  { apply lookup_lt_Some in Hi. change (length units) with 27%nat in Hi. done. }
  assert (NoDup (map (cell_value g) u)) as Hnd'.
  { apply NoDup_fmap_2_strong; [|done]. intros x y Hx Hy E.
    destruct (decide (x = y)) as [|Hne]; [done|]. exfalso.
    pose proof (Hr x Hx) as Hx81. pose proof (Hr y Hy) as Hy81.
    destruct (Hdig x Hx81) as (ch & Ech & Hch).
    destruct (Hdig y Hy81) as (ch' & Ech' & Hch').
    rewrite (cell_value_Some _ _ _ Ech), (cell_value_Some _ _ _ Ech') in E. subst ch'.
    destruct (pl_digit g x ch Ech Hch Hx81) as (_ & Hpx & Hcx & Hdx & _).
    destruct (pl_digit g y ch Ech' Hch Hy81) as (_ & Hpy & Hcy & Hdy & _).
    apply is_digit_spec in Hch.
    destruct (unit_constraint_facts (Z.of_nat i) (ch - 49)) as (Hc & Hm & Hunit);
      [lia | lia |].
    rewrite Nat2Z.id, Hi in Hunit. injection Hunit as ->.
    apply (Hfree x y Hx81 Hy81 Hne).
    apply (in_Rs_shares (unit_constraint (Z.of_nat i) (ch - 49))); [lia| |].
    - apply in_Rs_unit; [done | by rewrite Hcx | lia].
    - apply in_Rs_unit; [done | by rewrite Hcy | lia]. }
  apply countZ_NoDup_in; [done|]. apply nine_digits; try done.
  - by rewrite length_map.
  - intros v (x & -> & Hx)%list_elem_of_fmap.
    destruct (Hdig x (Hr x Hx)) as (ch & Ech & Hch).
    rewrite (cell_value_Some _ _ _ Ech). by apply is_digit_spec.
Qed.

#[global] Opaque the_matrix.

(** * Givens *)

Lemma hint_at_Some s x p :
  hint_at s x = Some p ↔
  ∃ ch, getZ s x = Some ch ∧ is_digit ch = true ∧ p = x * 9 + (ch - 49).
Proof.
  unfold hint_at. destruct (getZ s x) as [ch|]; simpl.
  - destruct (is_digit ch) eqn:E.
    + split; [intros [= <-]; eauto | intros (ch' & [= <-] & _ & ->); done].
    + split; [done | intros (ch' & [= <-] & ? & _); congruence].
  - split; [done | intros (ch' & ? & _); done].
Qed.

Lemma hint_at_cell s x p : hint_at s x = Some p → p / 9 = x.
Proof.
  intros (ch & _ & Hd%is_digit_spec & ->)%hint_at_Some.
  Z.div_mod_to_equations. lia.
Qed.

Lemma hint_at_facts s x p :
  0 <= x < 81 → hint_at s x = Some p → 0 <= p < 729 ∧ p / 9 = x.
Proof.
  intros Hx E. split; [|by eapply hint_at_cell].
  apply hint_at_Some in E as (ch & _ & Hd%is_digit_spec & ->). lia.
Qed.

Lemma elem_of_hintP s p :
  p ∈ hintP s ↔ ∃ x, 0 <= x < 81 ∧ hint_at s x = Some p.
Proof.
  unfold hintP. rewrite list_elem_of_omap. split.
  - intros (x & Hx%elem_of_seqZ & E). exists x. split; [lia | done].
  - intros (x & Hx & E). exists x. split; [apply elem_of_seqZ; lia | done].
Qed.

Lemma hintP_range s p : p ∈ hintP s → 0 <= p < 729.
Proof.
  intros (x & Hx & E)%elem_of_hintP. by destruct (hint_at_facts s x p Hx E).
Qed.

Lemma hints_upto_S s n :
  hints_upto s (S n) =
  hints_upto s n ++ match hint_at s (Z.of_nat n) with Some p => [p] | None => [] end.
Proof.
  unfold hints_upto. rewrite seqZ_S, omap_app. simpl. rewrite Z.add_0_l.
  by destruct (hint_at s (Z.of_nat n)).
Qed.

Lemma hints_upto_length s n : (length (hints_upto s n) <= n)%nat.
Proof.
  induction n as [|n IH]; [done|]. rewrite hints_upto_S, length_app.
  destruct (hint_at s (Z.of_nat n)); simpl; lia.
Qed.

Lemma hints_upto_cells s n p :
  p ∈ hints_upto s n → 0 <= p / 9 < Z.of_nat n.
Proof.
  unfold hints_upto. rewrite list_elem_of_omap.
  intros (x & Hx%elem_of_seqZ & E).
  apply hint_at_Some in E as (ch & _ & Hd%is_digit_spec & ->).
  Z.div_mod_to_equations. lia.
Qed.

Lemma hints_upto_NoDup s n : NoDup (map (fun p => p / 9) (hints_upto s n)).
Proof.
  induction n as [|n IH]; [constructor|].
  rewrite hints_upto_S, map_app. apply list.NoDup_app. split; [done|]. split.
  - intros x (p & -> & Hp)%list_elem_of_fmap.
    apply hints_upto_cells in Hp.
    destruct (hint_at s (Z.of_nat n)) as [q|] eqn:E; simpl.
    + intros Hq%list_elem_of_singleton.
      apply hint_at_cell in E. lia.
    + apply not_elem_of_nil.
  - destruct (hint_at s (Z.of_nat n)); simpl; [apply NoDup_singleton | constructor].
Qed.

Lemma hintP_length s : (length (hintP s) <= 81)%nat.
Proof. apply (hints_upto_length s 81). Qed.

Lemma hintP_NoDup s : NoDup (map (fun p => p / 9) (hintP s)).
Proof. apply (hints_upto_NoDup s 81). Qed.

Lemma hintP_contains s g p :
  keeps_hints s g → p ∈ hintP s → contains g p.
Proof.
  intros Hk (x & Hx & E)%elem_of_hintP.
  destruct (hint_at_facts s x p Hx E) as [Hp Hc].
  apply hint_at_Some in E as (ch & Es & Hd & ->).
  unfold contains. rewrite Hc. rewrite (Hk x ch Hx Es Hd). f_equal.
  apply is_digit_spec in Hd. Z.div_mod_to_equations. lia.
Qed.

(** * Chains of free choices *)

Lemma chain_nil H : chain H [].
Proof. intros j q Hq. done. Qed.

Lemma chain_snoc H Q q : chain H Q → free (H ++ Q) q → chain H (Q ++ [q]).
Proof.
  intros Hc Hq j p Hp.
  destruct (decide (j < length Q)%nat) as [Hlt|Hge].
  - rewrite lookup_app_l in Hp by done.
    rewrite take_app_le by lia. by apply Hc.
  - apply lookup_app_Some in Hp as [Hp|[Hlen Hp]].
    { apply lookup_lt_Some in Hp. lia. }
    apply list_lookup_singleton_Some in Hp as [Hj <-].
    assert (j = length Q) as -> by lia.
    rewrite take_app_length. done.
Qed.

Lemma chain_unsnoc H Q q : chain H (Q ++ [q]) → chain H Q ∧ free (H ++ Q) q.
Proof.
  intros Hc. split.
  - intros j p Hp. pose proof (lookup_lt_Some _ _ _ Hp) as Hlt.
    specialize (Hc j p). rewrite lookup_app_l in Hc by done.
    rewrite take_app_le in Hc by lia. by apply Hc.
  - specialize (Hc (length Q) q). rewrite take_app_length in Hc. apply Hc.
    rewrite lookup_app_r by lia. by rewrite Nat.sub_diag.
Qed.

Lemma chain_range H Q q : chain H Q → q ∈ Q → 0 <= q < 729.
Proof.
  intros Hc (j & Hj)%list_elem_of_lookup. by destruct (Hc j q Hj).
Qed.

Lemma free_no_share P p q : free P q → p ∈ P → ¬ shares p q.
Proof. intros [Hq Hw] Hp. by apply (weight_hit_zero P q Hq). Qed.

(** Two different choices of [H ++ Q] that exclude each other are both in
    [H]. *)
Lemma chain_pairs H Q p q :
  chain H Q → p ∈ H ++ Q → q ∈ H ++ Q → p ≠ q → shares p q →
  p ∈ H ∧ q ∈ H.
Proof.
  intros Hc Hp Hq Hne Hs.
  assert (∀ a b, a ∈ H ++ Q → b ∈ Q → a ≠ b → shares a b → a ∈ Q) as Haux.
  { intros a b Ha Hb Hab Hsh. apply elem_of_app in Ha as [Ha|Ha]; [|done].
    exfalso. apply list_elem_of_lookup in Hb as [j Hj].
    eapply (free_no_share _ a b (Hc j b Hj)); [|done].
    apply elem_of_app. by left. }
  assert (∀ a b, a ∈ Q → b ∈ Q → a ≠ b → ¬ shares a b) as Hqq.
  { intros a b Ha Hb Hab Hsh.
    apply list_elem_of_lookup in Ha as [i Hi], Hb as [j Hj].
    destruct (Nat.lt_total i j) as [Hlt|[->|Hgt]].
    - eapply (free_no_share _ a b (Hc j b Hj)); [|done].
      apply elem_of_app. right. apply list_elem_of_lookup. exists i.
      by rewrite lookup_take_lt.
    - congruence.
    - eapply (free_no_share _ b a (Hc i a Hi)); [|by apply shares_sym].
      apply elem_of_app. right. apply list_elem_of_lookup. exists j.
      by rewrite lookup_take_lt. }
  destruct (decide (q ∈ Q)) as [HqQ|HqQ].
  { exfalso. apply (Hqq p q); try done. by apply (Haux p q). }
  destruct (decide (p ∈ Q)) as [HpQ|HpQ].
  { exfalso. apply (Hqq q p); try done; [|by apply shares_sym].
    apply (Haux q p); try done. by apply shares_sym. }
  apply elem_of_app in Hp as [Hp|Hp]; [|done].
  apply elem_of_app in Hq as [Hq|Hq]; done.
Qed.

(** The cells of the givens and of a chain of choices are all different. *)
Lemma chain_cells_NoDup s Q :
  chain (hintP s) Q → NoDup (map (fun p => p / 9) (hintP s ++ Q)).
Proof.
  intros Hc. induction Q as [|q Q IH] using rev_ind.
  - rewrite app_nil_r. apply hintP_NoDup.
  - apply chain_unsnoc in Hc as [Hc Hq]. specialize (IH Hc).
    rewrite app_assoc, map_app. apply list.NoDup_app. split; [done|]. split.
    + intros x (p & -> & Hp)%list_elem_of_fmap. simpl.
      intros Hx%list_elem_of_singleton.
      apply (free_no_share _ p q Hq Hp).
      apply same_cell_shares; [|by destruct Hq|done].
      apply elem_of_app in Hp as [Hp|Hp]; [by apply (hintP_range s)|].
      by apply (chain_range _ _ _ Hc).
    + simpl. apply NoDup_singleton.
Qed.

Lemma chain_all_range s Q p :
  chain (hintP s) Q → p ∈ hintP s ++ Q → 0 <= p < 729.
Proof.
  intros Hc [Hp|Hp]%elem_of_app; [by apply (hintP_range s)|].
  by apply (chain_range _ _ _ Hc).
Qed.

(** Fewer than 81 choices leave a cell without any. *)
Lemma chain_uncovered_cell s Q :
  chain (hintP s) Q → (length (hintP s ++ Q) < 81)%nat →
  ∃ x, 0 <= x < 81 ∧ weight inc (hintP s ++ Q) x = 0.
Proof.
  intros Hc Hlen. set (P := hintP s ++ Q) in *.
  pose proof (chain_cells_NoDup s Q Hc) as Hnd. fold P in Hnd.
  destruct (decide (Forall (fun x => x ∈ map (fun p => p / 9) P) (seqZ 0 81)))
    as [Hall|Hex].
  - exfalso. rewrite list.Forall_forall in Hall.
    assert (seqZ 0 81 ⊆+ map (fun p => p / 9) P) as Hsub
      by (apply NoDup_submseteq; [apply NoDup_seqZ | done]).
    apply submseteq_length in Hsub. rewrite length_seqZ, length_map in Hsub. lia.
  - apply not_Forall_Exists in Hex; [|apply _].
    apply list.Exists_exists in Hex as (x & Hx & Hnot). simpl in Hnot.
    apply elem_of_seqZ in Hx.
    exists x. split; [lia|]. apply weight_inc_zero. intros p Hp Hin.
    apply Hnot. apply list_elem_of_fmap. exists p. split; [|done].
    apply Cs_cell; [by apply (chain_all_range s Q) | done | lia].
Qed.

(** 81 choices cover every cell. *)
Lemma chain_full s Q x :
  chain (hintP s) Q → length (hintP s ++ Q) = 81%nat → 0 <= x < 81 →
  ∃ p, p ∈ hintP s ++ Q ∧ p / 9 = x.
Proof.
  intros Hc Hlen Hx. set (P := hintP s ++ Q) in *.
  pose proof (chain_cells_NoDup s Q Hc) as Hnd. fold P in Hnd.
  assert (map (fun p => p / 9) P ⊆+ seqZ 0 81) as Hsub.
  { apply NoDup_submseteq; [done|]. intros y (p & -> & Hp)%list_elem_of_fmap.
    apply elem_of_seqZ. pose proof (chain_all_range s Q p Hc Hp).
    Z.div_mod_to_equations. lia. }
  assert (map (fun p => p / 9) P ≡ₚ seqZ 0 81) as Hperm.
  { apply submseteq_length_Permutation; [done|].
    rewrite length_seqZ, length_map. lia. }
  assert (x ∈ map (fun p => p / 9) P) as Hin.
  { rewrite Hperm. apply elem_of_seqZ. lia. }
  apply list_elem_of_fmap in Hin as (p & -> & Hp). by exists p.
Qed.

(** * The loops of [sd_solve] *)

Lemma for_range_inv {St} (I : Z → St → Prop) (body : Z → St → option St) n lo s :
  I lo s →
  (∀ k st, lo <= k < lo + Z.of_nat n → I k st →
           ∃ st', body k st = Some st' ∧ I (k + 1) st') →
  ∃ s', for_range lo n body s = Some s' ∧ I (lo + Z.of_nat n) s'.
Proof.
  revert lo s. induction n as [|n IH]; intros lo s H0 Hstep; simpl.
  - exists s. rewrite Z.add_0_r. done.
  - destruct (Hstep lo s) as (s1 & -> & H1); [lia | done |]. simpl.
    destruct (IH (lo + 1) s1 H1) as (s' & E & H').
    { intros k st Hk. apply Hstep. lia. }
    exists s'. split; [done|]. replace (lo + Z.of_nat (S n)) with (lo + 1 + Z.of_nat n) by lia.
    done.
Qed.

Lemma Rs_get c r2 :
  0 <= c < 324 → 0 <= r2 < 9 →
  ∃ q, getZ2 (aux_r the_matrix) c r2 = Some q ∧ getZ (Rs c) r2 = Some q ∧
       q ∈ Rs c ∧ 0 <= q < 729.
Proof.
  intros Hc Hr. destruct (Rs_facts c Hc) as (E & Hlen & _ & Hrange & _).
  destruct (getZ_is_Some (Rs c) r2) as [q Hq]; [lia|].
  assert (q ∈ Rs c) as Hin.
  { apply getZ_Some in Hq as [_ Hq]. by eapply list_elem_of_lookup_2. }
  exists q. unfold getZ2. rewrite E. simpl. auto.
Qed.

Lemma Rs_elem c q :
  q ∈ Rs c → ∃ r2, 0 <= r2 < 9 ∧ getZ (Rs c) r2 = Some q.
Proof.
  intros Hq. destruct (decide (0 <= c < 324)) as [Hc|Hc].
  - destruct (Rs_facts c Hc) as (_ & Hlen & _).
    apply list_elem_of_lookup in Hq as [i Hi]. exists (Z.of_nat i).
    pose proof (lookup_lt_Some _ _ _ Hi). split; [lia|]. by rewrite getZ_of_nat.
  - exfalso. unfold Rs in Hq.
    destruct (getZ (aux_r the_matrix) c) as [row|] eqn:E.
    + apply getZ_range in E. change (Z.of_nat (length (aux_r the_matrix))) with 324 in E.
      lia.
    + by apply elem_of_nil in Hq.
Qed.

Lemma tracks_sr sr sc P k :
  tracks sr sc P → 0 <= k < 729 → getZ sr k = Some (weight hit P k).
Proof. intros (_ & _ & H & _). apply H. Qed.

Lemma tracks_sc sr sc P c :
  tracks sr sc P → 0 <= c < 324 → getZ sc c = Some (weight inc P c).
Proof. intros (_ & _ & _ & H). apply H. Qed.

Lemma count_free_spec sr sc P c :
  tracks sr sc P → 0 <= c < 324 →
  ∃ n, count_free the_matrix sr c = Some n ∧ 0 <= n <= 9 ∧
       (n = 0 → ∀ q, q ∈ Rs c → weight hit P q ≠ 0).
Proof.
  intros Ht Hc. unfold count_free.
  destruct (for_range_inv
    (fun k n => 0 <= n <= k ∧
       (n = 0 → ∀ r2 q, 0 <= r2 < k → getZ (Rs c) r2 = Some q → weight hit P q ≠ 0))
    (fun r2 n => x ← getZ2 (aux_r the_matrix) c r2; v ← getZ sr x;
                 Some (if v =? 0 then n + 1 else n)) 9 0 0) as (n & E & Hn & Hz).
  - split; [lia|]. intros _ r2 q Hr. lia.
  - intros k n Hk [Hn Hz].
    destruct (Rs_get c k Hc) as (q & -> & Eq & _ & Hq); [lia|]. simpl.
    rewrite (tracks_sr _ _ _ _ Ht Hq). simpl. eexists. split; [done|].
    destruct (Z.eqb_spec (weight hit P q) 0) as [E0|E0].
    + split; [lia|]. intros; lia.
    + split; [lia|]. intros -> r2 q' Hr2 Eq'.
      destruct (decide (r2 = k)) as [->|Hne].
      * congruence.
      * apply (Hz eq_refl r2); [lia | done].
  - exists n. split; [done|]. split; [lia|]. intros -> q Hq.
    apply Rs_elem in Hq as (r2 & Hr2 & Eq). by apply (Hz eq_refl r2).
Qed.

Lemma find_free_spec sr sc P c fuel r2 :
  tracks sr sc P → 0 <= c < 324 → 0 <= r2 <= 9 → 10 - r2 <= Z.of_nat fuel →
  ∃ r, find_free the_matrix sr c fuel r2 = Some r ∧ r2 <= r <= 9 ∧
       (∀ r' q, r2 <= r' < r → getZ (Rs c) r' = Some q → weight hit P q ≠ 0) ∧
       (r < 9 → ∃ q, getZ (Rs c) r = Some q ∧ 0 <= q < 729 ∧ weight hit P q = 0).
Proof.
  intros Ht Hc. revert r2. induction fuel as [|fuel IH]; intros r2 Hr Hf; [lia|].
  cbn [find_free]. destruct (Z.ltb_spec r2 9) as [Hlt|Hge].
  - destruct (Rs_get c r2 Hc) as (q & -> & Eq & _ & Hq); [lia|]. simpl.
    rewrite (tracks_sr _ _ _ _ Ht Hq). simpl.
    destruct (Z.eqb_spec (weight hit P q) 0) as [E0|E0].
    + exists r2. split; [done|]. split; [lia|]. split; [intros; lia|].
      intros _. exists q. done.
    + destruct (IH (r2 + 1)) as (r & E & Hr' & Hblocked & Hfound); [lia | lia |].
      exists r. split; [done|]. split; [lia|]. split; [|done].
      intros r' q' Hr'' Eq'. destruct (decide (r' = r2)) as [->|Hne].
      * congruence.
      * apply (Hblocked r'); [lia | done].
  - exists r2. split; [done|]. split; [lia|]. split; intros; lia.
Qed.

Lemma scan_loop sr sc P i cc0 c00 fuel j min cc c0 :
  tracks sr sc P → length cc0 = 81%nat → 0 <= i < 81 → 0 <= c00 <= 324 →
  0 <= j → j + Z.of_nat fuel = 324 →
  (min = 10 ∧ cc = cc0 ∧ c0 = c00 ∧
     (∀ j', 0 <= j' < j → weight inc P (rot c00 j') ≠ 0)) ∨
  (1 < min <= 9 ∧ 0 <= c0 <= 324 ∧
     ∃ c, 0 <= c < 324 ∧ cc = <[Z.to_nat i := c]> cc0 ∧ weight inc P c = 0) →
  ∃ min' cc' c0', scan the_matrix sr sc i fuel j min cc c0 = Some (min', cc', c0') ∧
    0 <= c0' <= 324 ∧
    ((min' = 10 ∧ cc' = cc0 ∧ ∀ c, 0 <= c < 324 → weight inc P c ≠ 0) ∨
     (0 <= min' <= 9 ∧
      ∃ c, 0 <= c < 324 ∧ cc' = <[Z.to_nat i := c]> cc0 ∧ weight inc P c = 0 ∧
           (min' = 0 → ∀ q, q ∈ Rs c → weight hit P q ≠ 0))).
Proof.
  intros Ht Hlen Hi Hc00. revert j min cc c0.
  induction fuel as [|fuel IH]; intros j min cc c0 Hj Hfuel Hinv.
  - simpl. exists min, cc, c0. split; [done|].
    destruct Hinv as [(-> & -> & -> & Hall)|(Hmin & Hc0 & c & Hc & -> & Hw)].
    + split; [done|]. left. split; [done|]. split; [done|].
      intros c Hc. destruct (decide (c00 <= c)) as [Hle|Hgt].
      * specialize (Hall (c - c00)). unfold rot in Hall.
        destruct (Z.ltb_spec (c - c00 + c00) 324); [|lia].
        replace (c - c00 + c00) with c in Hall by lia. apply Hall. lia.
      * specialize (Hall (c - c00 + 324)). unfold rot in Hall.
        destruct (Z.ltb_spec (c - c00 + 324 + c00) 324); [lia|].
        replace (c - c00 + 324 + c00 - 324) with c in Hall by lia. apply Hall. lia.
    + split; [done|]. right. split; [lia|]. exists c.
      split; [done|]. split; [done|]. split; [done|]. intros; lia.
  - cbn [scan]. fold (rot c0 j).
    assert (0 <= c0 <= 324) as Hc0.
    { destruct Hinv as [(_ & _ & -> & _)|(_ & ? & _)]; done. }
    assert (0 <= rot c0 j < 324) as Hrot.
    { unfold rot. destruct (Z.ltb_spec (j + c0) 324); lia. }
    rewrite (tracks_sc _ _ _ _ Ht Hrot). simpl.
    destruct (Z.eqb_spec (weight inc P (rot c0 j)) 0) as [E0|E0]; simpl.
    + destruct (count_free_spec sr sc P (rot c0 j) Ht Hrot) as (n & -> & Hn & Hz).
      simpl.
      assert (length cc = 81%nat) as Hlcc.
      { destruct Hinv as [(_ & -> & _)|(_ & _ & c & _ & -> & _)];
          [done | by rewrite length_insert]. }
      destruct (setZ_is_Some cc i (int16 (rot c0 j))) as [cc1 Ecc1]; [lia|].
      assert (cc1 = <[Z.to_nat i := rot c0 j]> cc0) as Hcc1.
      { apply setZ_Some in Ecc1 as [_ ->]. rewrite int16_id by (unfold in_int16; lia).
        destruct Hinv as [(_ & -> & _)|(_ & _ & c & _ & -> & _)]; [done|].
        apply list_insert_insert_eq. }
      destruct (Z.ltb_spec n min) as [Hlt|Hge].
      * rewrite Ecc1. simpl.
        destruct (Z.leb_spec n 1) as [Hle1|Hgt1].
        -- exists n, cc1, (rot c0 j + 1). split; [done|]. split; [lia|].
           right. split; [lia|]. exists (rot c0 j).
           split; [done|]. split; [done|]. split; [done|]. done.
        -- apply IH; [lia | lia |]. right. split; [lia|]. split; [lia|].
           exists (rot c0 j). done.
      * simpl. destruct (Z.leb_spec n 1) as [Hle1|Hgt1].
        -- (* [min <= n <= 1] contradicts the loop invariant *)
           destruct Hinv as [(-> & _)|(Hmin & _)]; lia.
        -- apply IH; [lia | lia |].
           destruct Hinv as [(-> & _)|Hinv]; [lia | by right].
    + apply IH; [lia | lia |].
      destruct Hinv as [(-> & -> & -> & Hall)|Hinv]; [|by right].
      left. split; [done|]. split; [done|]. split; [done|].
      intros j' Hj'. destruct (decide (j' = j)) as [->|Hne]; [done|].
      apply Hall. lia.
Qed.

Lemma scan_spec sr sc P i cc c0 :
  tracks sr sc P → length cc = 81%nat → 0 <= i < 81 → 0 <= c0 <= 324 →
  ∃ min cc' c0', scan the_matrix sr sc i 324 0 10 cc c0 = Some (min, cc', c0') ∧
    0 <= c0' <= 324 ∧
    ((min = 10 ∧ cc' = cc ∧ ∀ c, 0 <= c < 324 → weight inc P c ≠ 0) ∨
     (0 <= min <= 9 ∧
      ∃ c, 0 <= c < 324 ∧ cc' = <[Z.to_nat i := c]> cc ∧ weight inc P c = 0 ∧
           (min = 0 → ∀ q, q ∈ Rs c → weight hit P q ≠ 0))).
Proof.
  intros Ht Hlen Hi Hc0.
  apply (scan_loop sr sc P i cc c0); try done; try lia.
  left. split; [done|]. split; [done|]. split; [done|]. intros; lia.
Qed.

Lemma getZ_replicate {A} (n : nat) (x : A) k :
  0 <= k < Z.of_nat n → getZ (replicate n x) k = Some x.
Proof.
  intros Hk. apply getZ_Some. split; [lia|]. apply lookup_replicate_2. lia.
Qed.

Lemma tracks_nil : tracks (replicate 729 0) (replicate 324 0) [].
Proof.
  split; [by rewrite length_replicate|]. split; [by rewrite length_replicate|].
  split; intros k Hk; simpl; apply getZ_replicate; lia.
Qed.

Lemma sd_init_spec s :
  (81 <= length s)%nat →
  ∃ st, sd_init the_matrix s = Some st ∧ inv s [] st ∧ st_pc st = Head ∧
        st_dir st = 1 ∧ st_i st = 0 ∧ st_stdout st = [].
Proof.
  intros Hs. unfold sd_init.
  destruct (for_range_inv
    (fun k st =>
       st_pc st = Head ∧ st_i st = 0 ∧ st_dir st = 1 ∧ st_c0 st = 0 ∧
       st_stdout st = [] ∧
       st_hints st = Z.of_nat (length (hints_upto s (Z.to_nat k))) ∧
       tracks (st_sr st) (st_sc st) (hints_upto s (Z.to_nat k)) ∧
       length (st_cr st) = 81%nat ∧ length (st_cc st) = 81%nat ∧
       length (st_out st) = 82%nat ∧
       (∀ j, 0 <= j < k → getZ (st_cr st) j = Some (-1)) ∧
       (∀ x ch, 0 <= x < k → getZ s x = Some ch → getZ (st_out st) x = Some ch))
    (sd_init_cell the_matrix s) 81 0
    (mk_state Head 0 1 0 0 (replicate 324 0) (replicate 81 0)
       (replicate 81 0) (replicate 729 0) (replicate 82 0) []))
    as (st & -> & Hpc & Hi & Hdir & Hc0 & Hout & Hh & Ht & Lcr & Lcc & Lout & Hcr & Hos).
  - simpl. split; [done|]. repeat (split; [done|]).
    split; [apply tracks_nil|]. repeat (split; [done|]).
    split; intros; lia.
  - intros k [pc i dir c0 hints sc cr cc sr out lines] Hk. simpl.
    intros (-> & -> & -> & -> & -> & -> & Ht & Lcr & Lcc & Lout & Hcr & Hos).
    unfold sd_init_cell. simpl.
    destruct (getZ_is_Some s k) as [ch Ech]; [lia|]. rewrite Ech. simpl.
    replace (Z.to_nat (k + 1)) with (S (Z.to_nat k)) by lia.
    rewrite hints_upto_S. rewrite Z2Nat.id by lia.
    unfold hint_at. rewrite Ech. simpl.
    destruct (setZ_is_Some cc k (int16 (-1))) as [cc1 Ecc1]; [lia|].
    destruct (setZ_is_Some cr k (int8 (-1))) as [cr1 Ecr1]; [lia|].
    destruct (setZ_is_Some out k ch) as [out1 Eout1]; [lia|].
    assert (∀ j, 0 <= j < k + 1 → getZ cr1 j = Some (-1)) as Hcr1.
    { intros j Hj. rewrite (getZ_setZ _ _ j _ _ Ecr1).
      destruct (Z.eqb_spec k j); [done | apply Hcr; lia]. }
    assert (∀ x ch', 0 <= x < k + 1 → getZ s x = Some ch' → getZ out1 x = Some ch')
      as Hos1.
    { intros x ch' Hx Ex. rewrite (getZ_setZ _ _ x _ _ Eout1).
      destruct (Z.eqb_spec k x) as [->|Hne]; [congruence | apply Hos; [lia | done]]. }
    pose proof (hints_upto_length s (Z.to_nat k)).
    destruct (is_digit ch) eqn:Ed.
    + apply is_digit_spec in Ed.
      destruct (Z.leb_spec 0 (ch - 49)); [|lia].
      destruct (tracks_push sr sc _ (k * 9 + (ch - 49)) Ht) as (sr1 & sc1 & -> & Ht1);
        [lia | lia |].
      simpl. rewrite Ecc1. simpl. rewrite Ecr1. simpl. rewrite Eout1. simpl.
      eexists. split; [done|]. simpl.
      repeat (split; [done|]). split; [rewrite length_app; simpl; lia|].
      split; [done|].
      rewrite (setZ_length _ _ _ _ Ecr1), (setZ_length _ _ _ _ Ecc1),
        (setZ_length _ _ _ _ Eout1). done.
    + simpl. rewrite Ecc1. simpl. rewrite Ecr1. simpl. rewrite Eout1. simpl.
      eexists. split; [done|]. simpl. rewrite app_nil_r.
      repeat (split; [done|]).
      rewrite (setZ_length _ _ _ _ Ecr1), (setZ_length _ _ _ _ Ecc1),
        (setZ_length _ _ _ _ Eout1). done.
  - replace (Z.to_nat (0 + Z.of_nat 81)) with 81%nat in * by lia.
    change (hints_upto s 81) with (hintP s) in *. simpl.
    destruct (setZ_is_Some (st_out st) 81 0) as [out1 Eout1]; [lia|].
    rewrite Eout1. simpl. eexists. split; [done|]. simpl.
    split; [|done]. pose proof (hintP_length s).
    constructor; simpl; try done; try lia.
    + unfold depth. simpl. lia.
    + by rewrite (setZ_length _ _ _ _ Eout1).
    + by rewrite app_nil_r.
    + eapply getZ_setZ_eq; eauto.
    + intros x ch Hx Ex _. rewrite (getZ_setZ _ _ x _ _ Eout1).
      destruct (Z.eqb_spec 81 x); [lia|]. apply Hos; [lia | done].
Qed.

Lemma c_string_take (m : nat) (buf : list Z) :
  (∀ i, (i < m)%nat → ∃ ch, buf !! i = Some ch ∧ ch ≠ 0) → buf !! m = Some 0 →
  c_string buf = take m buf.
Proof.
  revert buf. induction m as [|m IH]; intros buf Hall Hm.
  - destruct buf as [|ch rest]; [done|]. simpl in Hm. injection Hm as ->. done.
  - destruct buf as [|ch rest]; [done|]. simpl.
    destruct (Hall 0%nat) as (ch' & [= <-] & Hne); [lia|].
    destruct (Z.eqb_spec ch 0); [done|]. f_equal. apply IH; [|done].
    intros i Hi. apply (Hall (S i)). lia.
Qed.

Lemma choices_lookup stk j c k :
  stk !! j = Some (c, k) → 0 <= c < 324 → 0 <= k < 9 →
  ∃ q, choices stk !! j = Some q ∧ getZ2 (aux_r the_matrix) c k = Some q ∧
       getZ (Rs c) k = Some q ∧ q ∈ Rs c ∧ 0 <= q < 729.
Proof.
  intros Hj Hc Hk. destruct (Rs_get c k Hc Hk) as (q & E2 & E & Hin & Hq).
  exists q. split; [|done]. unfold choices. rewrite list_lookup_fmap, Hj. simpl.
  unfold choice_of. simpl. by rewrite E.
Qed.

Lemma fill_out_spec stk cc cr out :
  (∀ j c k, stk !! j = Some (c, k) →
     getZ cc (Z.of_nat j) = Some c ∧ getZ cr (Z.of_nat j) = Some k ∧
     0 <= c < 324 ∧ 0 <= k < 9) →
  length out = 82%nat → NoDup (map (fun p => p / 9) (choices stk)) →
  ∃ out', fill_out the_matrix cc cr (Z.of_nat (length stk)) out = Some out' ∧
    length out' = 82%nat ∧ getZ out' 81 = getZ out 81 ∧
    (∀ x, (∀ q, q ∈ choices stk → q / 9 ≠ x) → getZ out' x = getZ out x) ∧
    (∀ q, q ∈ choices stk → getZ out' (q / 9) = Some (q mod 9 + 49)).
Proof.
  intros Hstk Hlen Hnd. unfold fill_out. rewrite Nat2Z.id.
  destruct (for_range_inv
    (fun j o =>
       length o = 82%nat ∧ getZ o 81 = getZ out 81 ∧
       (∀ x, (∀ q, q ∈ take (Z.to_nat j) (choices stk) → q / 9 ≠ x) →
             getZ o x = getZ out x) ∧
       (∀ q, q ∈ take (Z.to_nat j) (choices stk) → getZ o (q / 9) = Some (q mod 9 + 49)))
    (fun j out => c ← getZ cc j; k ← getZ cr j; r ← getZ2 (aux_r the_matrix) c k;
                  setZ out (r / 9) (r mod 9 + 49))
    (length stk) 0 out) as (out' & E & H1 & H2 & H3 & H4).
  - simpl. split; [done|]. split; [done|].
    split; [done|]. intros q Hq. by apply elem_of_nil in Hq.
  - intros j o Hj (Lo & Ho81 & Hun & Hch).
    destruct (lookup_lt_is_Some_2 stk (Z.to_nat j)) as [[c k] Ej]; [lia|].
    destruct (Hstk _ _ _ Ej) as (Ecc & Ecr & Hc & Hk).
    rewrite Z2Nat.id in Ecc, Ecr by lia. rewrite Ecc. simpl. rewrite Ecr. simpl.
    destruct (choices_lookup stk _ c k Ej Hc Hk) as (q & Eq & -> & _ & _ & Hq). simpl.
    assert (0 <= q / 9 < 81) as Hcell by (Z.div_mod_to_equations; lia).
    destruct (setZ_is_Some o (q / 9) (q mod 9 + 49)) as [o1 Eo1]; [lia|].
    exists o1. split; [done|].
    replace (Z.to_nat (j + 1)) with (S (Z.to_nat j)) by lia.
    rewrite (take_S_r _ _ _ Eq).
    split; [by rewrite (setZ_length _ _ _ _ Eo1)|]. split; [|split].
    + rewrite (getZ_setZ_ne _ _ 81 _ _ Eo1) by lia. done.
    + intros x Hx. rewrite (getZ_setZ_ne _ _ x _ _ Eo1).
      * apply Hun. intros q' Hq'. apply Hx. apply elem_of_app. by left.
      * apply Hx. apply elem_of_app. right. by apply list_elem_of_singleton.
    + intros q' [Hq'|Hq']%elem_of_app;
        [|apply list_elem_of_singleton in Hq' as ->].
      * rewrite (getZ_setZ_ne _ _ _ _ _ Eo1); [by apply Hch|].
        intros Heq. apply list_elem_of_lookup in Hq' as [j' Hj'].
        apply lookup_take_Some in Hj' as [Hj' Hlt].
        assert (j' = Z.to_nat j); [|lia].
        apply (NoDup_lookup _ j' (Z.to_nat j) (q / 9) Hnd).
        -- rewrite list_lookup_fmap, Hj'. simpl. by rewrite Heq.
        -- rewrite list_lookup_fmap, Eq. done.
      * eapply getZ_setZ_eq; eauto.
  - exists out'. split; [done|].
    replace (Z.to_nat (0 + Z.of_nat (length stk))) with (length stk) in * by lia.
    assert (length (choices stk) = length stk) as Hl by apply length_map.
    rewrite take_ge in H3, H4 by lia. done.
Qed.

(** * One step of the loop *)

#[global] Opaque scan find_free fill_out count_free sd_update for_range c_string.

(** Name the fields of the invariant. *)
Ltac inv_fields H :=
  destruct H as [Hh Hd Hdepth Hbound Hc0 Lcr Lcc Lout Hstk Htop Ht Hch Hnul Hout Hlines Hadv].

Lemma int8_m1 : int8 (-1) = -1.
Proof. reflexivity. Qed.

Lemma inv_length_P s stk st :
  inv s stk st → Z.of_nat (length (hintP s ++ choices stk)) = st_hints st + depth st.
Proof.
  intros Hinv. rewrite length_app. unfold choices. rewrite length_map.
  rewrite (inv_hints _ _ _ Hinv), (inv_depth _ _ _ Hinv). lia.
Qed.

(** Lines 126-138 in the forward direction: the scan either fixes the
    constraint of this depth or finds a dead constraint and steps back. *)
Lemma step_scan s stk st :
  inv s stk st → st_pc st = Head → st_dir st = 1 →
  0 <= st_i st < 81 - st_hints st →
  ∃ st', step the_matrix st = Next st' ∧ st_pc st' = Advance ∧
    st_stdout st' = st_stdout st ∧ inv s stk st' ∧
    ((st_dir st' = 1 ∧ st_i st' = st_i st) ∨
     (st_dir st' = -1 ∧ st_i st' = st_i st - 1 ∧ dead (hintP s ++ choices stk))).
Proof.
  intros Hinv Hpc Hdir Hi.
  pose proof (inv_length_P _ _ _ Hinv) as HlenP.
  inv_fields Hinv.
  destruct st as [pc i dir c0 hints sc cr cc sr out lines].
  unfold depth in *. simpl in *. subst pc dir. simpl in *.
  unfold step, step_head. simpl.
  destruct (Z.leb_spec 0 i); [|lia]. destruct (Z.ltb_spec i (81 - hints)); [|lia].
  simpl.
  destruct (scan_spec sr sc _ i cc c0 Ht Lcc) as (min & cc' & c0' & -> & Hc0' & Hscan);
    [lia | lia |].
  simpl.
  destruct Hscan as [(-> & _ & Hall)|(Hmin & c & Hc & -> & Hw & Hdead)].
  { exfalso. destruct (chain_uncovered_cell s (choices stk) Hch) as (x & Hx & Hwx); [lia|].
    apply (Hall x); [lia | done]. }
  assert (∀ j c1 k1, stk !! j = Some (c1, k1) →
    getZ (<[Z.to_nat i := c]> cc) (Z.of_nat j) = Some c1 ∧
    getZ cr (Z.of_nat j) = Some k1 ∧ 0 <= c1 < 324 ∧ 0 <= k1 < 9) as Hstk'.
  { intros j c1 k1 Hj. destruct (Hstk j c1 k1 Hj) as (E1 & E2 & R).
    pose proof (lookup_lt_Some _ _ _ Hj).
    split; [|done]. rewrite <- E1. unfold getZ.
    destruct (Z.ltb_spec (Z.of_nat j) 0); [done|].
    apply list_lookup_insert_ne. lia. }
  destruct (Z.eqb_spec min 0) as [->|Hne0]; simpl.
  - destruct (setZ_is_Some cr i (int8 (-1))) as [cr' Ecr]; [lia|].
    rewrite Ecr. simpl. eexists. split; [done|]. simpl.
    split; [done|]. split; [done|]. split.
    + constructor; unfold depth; simpl; try done; try lia.
      * by rewrite (setZ_length _ _ _ _ Ecr).
      * by rewrite length_insert.
      * intros j c1 k1 Hj. destruct (Hstk' j c1 k1 Hj) as (E1 & E2 & R).
        pose proof (lookup_lt_Some _ _ _ Hj).
        split; [done|]. split; [|done].
        rewrite (getZ_setZ_ne _ _ _ _ _ Ecr); [done | lia].
      * intros j Hj. rewrite (getZ_setZ _ _ j _ _ Ecr), int8_m1.
        destruct (Z.eqb_spec i j); [done | apply Htop; lia].
    + right. split; [done|]. split; [done|]. exists c. auto.
  - destruct (Z.eqb_spec min 10) as [->|Hne10]; [lia|]. simpl.
    eexists. split; [done|]. simpl.
    split; [done|]. split; [done|]. split; [|by left].
    constructor; unfold depth; simpl; try done; try lia.
    + by rewrite length_insert.
    + intros _ _. split; [lia|]. exists c. split; [|done].
      apply getZ_Some. split; [lia|]. apply list_lookup_insert_eq. lia.
Qed.

(** Lines 125 and 139 in the backtracking direction: the scan is skipped. *)
Lemma step_pass s stk st :
  inv s stk st → st_pc st = Head → st_dir st = -1 →
  0 <= st_i st < 81 - st_hints st →
  ∃ st', step the_matrix st = Next st' ∧ st_pc st' = Advance ∧
    st_stdout st' = st_stdout st ∧ inv s stk st' ∧
    st_dir st' = -1 ∧ st_i st' = st_i st.
Proof.
  intros Hinv Hpc Hdir Hi.
  inv_fields Hinv.
  destruct st as [pc i dir c0 hints sc cr cc sr out lines].
  unfold depth in *. simpl in *. subst pc dir. simpl in *.
  unfold step, step_head. simpl.
  destruct (Z.leb_spec 0 i); [|lia]. destruct (Z.ltb_spec i (81 - hints)); [|lia].
  simpl. eexists. split; [done|]. simpl.
  split; [done|]. split; [done|]. split; [|done].
  constructor; unfold depth; simpl; try done; try lia.
Qed.

(** Line 148: the loop is left for good once [i] is negative. *)
Lemma step_stop st :
  st_pc st = Head → st_i st < 0 → step the_matrix st = Stop.
Proof.
  intros Hpc Hi. destruct st as [pc i dir c0 hints sc cr cc sr out lines].
  simpl in *. subst pc. unfold step, step_head. simpl.
  destruct (Z.leb_spec 0 i); [lia|]. simpl.
  destruct (Z.ltb_spec i 0); [done | lia].
Qed.

(** Line 139 with [i = -1]: the read of [cc[-1]]. *)
Lemma step_advance_fault st :
  st_pc st = Advance → st_i st < 0 → step the_matrix st = Fault.
Proof.
  intros Hpc Hi. destruct st as [pc i dir c0 hints sc cr cc sr out lines].
  simpl in *. subst pc. unfold step, step_advance. simpl.
  assert (getZ cc i = None) as -> by (apply getZ_None; lia). done.
Qed.

(** The line written once 81 choices are applied. *)
Lemma full_line s Q out :
  chain (hintP s) Q → length (hintP s ++ Q) = 81%nat →
  length out = 82%nat → getZ out 81 = Some 0 →
  (∀ x ch, 0 <= x < 81 → getZ s x = Some ch → is_digit ch = true →
     (∀ q, q ∈ Q → q / 9 ≠ x) → getZ out x = Some ch) →
  (∀ q, q ∈ Q → getZ out (q / 9) = Some (q mod 9 + 49)) →
  c_string out = take 81 out ∧ line_ok s (c_string out) ∧
  (∀ p, p ∈ hintP s ++ Q → contains (c_string out) p).
Proof.
  intros Hch Hlen Lout Hnul Hkeep Hnew.
  assert (∀ p, p ∈ hintP s ++ Q → getZ out (p / 9) = Some (p mod 9 + 49)) as Hall.
  { intros p [Hp|Hp]%elem_of_app; [|by apply Hnew].
    apply elem_of_hintP in Hp as (x & Hx & E).
    destruct (hint_at_facts s x p Hx E) as [Hp Hc]. rewrite Hc.
    assert (p ∈ hintP s) as HpH by (apply elem_of_hintP; eauto).
    apply hint_at_Some in E as (ch & Es & Hd & ->).
    rewrite (Hkeep x ch Hx Es Hd).
    - f_equal. apply is_digit_spec in Hd. Z.div_mod_to_equations. lia.
    - intros q Hq Hcq. apply list_elem_of_lookup in Hq as [j Hj].
      apply (free_no_share _ (x * 9 + (ch - 49)) q (Hch j q Hj)).
      + apply elem_of_app. by left.
      + destruct (Hch j q Hj) as [Hq _]. apply same_cell_shares; [done | done |].
        rewrite Hc. done. }
  assert (∀ x, 0 <= x < 81 →
    ∃ p, p ∈ hintP s ++ Q ∧ p / 9 = x ∧ 0 <= p < 729 ∧
         getZ out x = Some (p mod 9 + 49)) as Hcell.
  { intros x Hx. destruct (chain_full s Q x Hch Hlen Hx) as (p & Hp & <-).
    exists p. pose proof (chain_all_range s Q p Hch Hp). auto. }
  assert (c_string out = take 81 out) as Ecs.
  { apply c_string_take.
    - intros i Hi. destruct (Hcell (Z.of_nat i)) as (p & _ & _ & Hp & E); [lia|].
      rewrite getZ_of_nat in E. eexists. split; [done|].
      Z.div_mod_to_equations. lia.
    - rewrite <- (getZ_of_nat out 81). done. }
  assert (∀ x, 0 <= x < 81 → getZ (c_string out) x = getZ out x) as Hget.
  { intros x Hx. rewrite Ecs. unfold getZ. destruct (Z.ltb_spec x 0); [lia|].
    apply lookup_take_lt. lia. }
  assert (∀ p, p ∈ hintP s ++ Q → contains (c_string out) p) as Hcont.
  { intros p Hp. unfold contains. pose proof (chain_all_range s Q p Hch Hp).
    rewrite Hget by (Z.div_mod_to_equations; lia). by apply Hall. }
  split; [done|]. split; [|done].
  split; [|split; [|split]].
  - rewrite Ecs, length_take. lia.
  - intros x Hx. destruct (Hcell x Hx) as (p & _ & _ & Hp & E).
    rewrite Hget by done. eexists. split; [done|].
    apply is_digit_spec. Z.div_mod_to_equations. lia.
  - intros x ch Hx Es Hd.
    assert (hint_at s x = Some (x * 9 + (ch - 49))) as E.
    { apply hint_at_Some. eauto. }
    destruct (hint_at_facts s x _ Hx E) as [Hp Hc].
    assert (contains (c_string out) (x * 9 + (ch - 49))) as Hcn.
    { apply Hcont, elem_of_app. left. apply elem_of_hintP. eauto. }
    unfold contains in Hcn. rewrite Hc in Hcn. rewrite Hcn. f_equal.
    apply is_digit_spec in Hd. Z.div_mod_to_equations. lia.
  - intros x y Hx Hy Hne Hsh.
    destruct (Hcell x Hx) as (p & Hp & Hpc & Hpr & _).
    destruct (Hcell y Hy) as (q & Hq & Hqc & Hqr & _).
    assert (pl (c_string out) x = p) as Ep.
    { rewrite <- Hpc. apply contains_pl; [done | by apply Hcont]. }
    assert (pl (c_string out) y = q) as Eq.
    { rewrite <- Hqc. apply contains_pl; [done | by apply Hcont]. }
    rewrite Ep, Eq in Hsh.
    destruct (chain_pairs _ _ p q Hch Hp Hq) as [HpH HqH]; [congruence | done |].
    apply elem_of_hintP in HpH as (x' & _ & E1), HqH as (y' & _ & E2).
    pose proof (hint_at_cell _ _ _ E1). pose proof (hint_at_cell _ _ _ E2).
    subst x' y'. rewrite Hpc in E1. rewrite Hqc in E2. split; eauto.
Qed.

(** A grid of 81 cells that contains 81 chained choices is determined. *)
Lemma full_chain_determines s Q g g' :
  chain (hintP s) Q → length (hintP s ++ Q) = 81%nat →
  length g = 81%nat → length g' = 81%nat →
  (∀ p, p ∈ hintP s ++ Q → contains g p) →
  (∀ p, p ∈ hintP s ++ Q → contains g' p) → g = g'.
Proof.
  intros Hch Hlen Lg Lg' Hg Hg'. apply list_eq_getZ. intros x.
  destruct (decide (0 <= x < 81)) as [Hx|Hx].
  - destruct (chain_full s Q x Hch Hlen Hx) as (p & Hp & <-).
    rewrite (Hg p Hp), (Hg' p Hp). done.
  - rewrite (proj2 (getZ_None g x)) by lia.
    rewrite (proj2 (getZ_None g' x)) by lia. done.
Qed.

(** Lines 148-151: a full stack is written out and the search steps back. *)
Lemma step_print s stk st :
  inv s stk st → st_pc st = Head → 0 <= st_i st → 81 - st_hints st <= st_i st →
  ∃ st' g, step the_matrix st = Next st' ∧ st_pc st' = Head ∧
    st_dir st' = -1 ∧ st_i st' = st_i st - 1 ∧
    st_stdout st' = st_stdout st ++ [g] ∧ inv s stk st' ∧
    length (hintP s ++ choices stk) = 81%nat ∧ length g = 81%nat ∧
    (∀ p, p ∈ hintP s ++ choices stk → contains g p).
Proof.
  intros Hinv Hpc Hi0 Hi.
  pose proof (inv_length_P _ _ _ Hinv) as HlenP.
  inv_fields Hinv.
  destruct st as [pc i dir c0 hints sc cr cc sr out lines].
  unfold depth in *. simpl in *. subst pc.
  assert (dir = 1) as ->.
  { destruct Hd as [->| ->]; [done|]. simpl in *. lia. }
  simpl in *. assert (i = 81 - hints) as Ei by lia.
  unfold step, step_head. simpl.
  destruct (Z.leb_spec 0 i); [|lia]. destruct (Z.ltb_spec i (81 - hints)); [lia|].
  simpl. destruct (Z.ltb_spec i 0); [lia|].
  pose proof (chain_cells_NoDup s _ Hch) as Hnd.
  rewrite map_app in Hnd. apply list.NoDup_app in Hnd as (_ & _ & Hnd).
  destruct (fill_out_spec stk cc cr out Hstk Lout Hnd)
    as (out' & E & Lout' & Hnul' & Hold & Hnew).
  rewrite <- Hdepth in E. rewrite E. simpl.
  destruct (full_line s (choices stk) out') as (Ecs & Hok & Hcont); try done.
  { lia. }
  { by rewrite Hnul'. }
  { intros x ch Hx Es Hdg Hno. rewrite (Hold x Hno). by apply Hout. }
  assert (getZ out' 81 = Some 0) as Hnul2 by (by rewrite Hnul').
  assert (∀ x ch, 0 <= x < 81 → getZ s x = Some ch → is_digit ch = true →
                  getZ out' x = Some ch) as Hout2.
  { intros x ch Hx Es Hdg. destruct Hok as (_ & _ & Hk & _).
    specialize (Hk x ch Hx Es Hdg). rewrite Ecs in Hk.
    apply getZ_Some in Hk as [_ Hk]. rewrite lookup_take_lt in Hk by lia.
    apply getZ_Some. split; [lia | done]. }
  assert (Forall (line_ok s) (lines ++ [c_string out'])) as Hlines2.
  { apply Forall_app. split; [done|]. by constructor. }
  eexists _, _. split; [done|]. simpl.
  split; [done|]. split; [done|]. split; [done|]. split; [done|].
  split; [|split; [lia|split; [|done]]].
  - constructor; unfold depth; simpl; try done; try lia.
    intros j Hj. apply Htop. lia.
  - by destruct Hok as [? _].
Qed.

Lemma choices_snoc base c k q :
  getZ (Rs c) k = Some q → choices (base ++ [(c, k)]) = choices base ++ [q].
Proof.
  intros E. unfold choices. rewrite map_app. simpl. unfold choice_of. simpl.
  by rewrite E.
Qed.

(** Lines 139-146: the choice of this depth is reverted when stepping back,
    the next free choice of the constraint is applied, or the depth is given
    up.  [base] is the stack below this depth and [k0] the index tried
    last. *)
Lemma step_advance_core s base c k0 st :
  st_pc st = Advance →
  st_i st = Z.of_nat (length base) → st_i st < 81 - st_hints st →
  getZ (st_cc st) (st_i st) = Some c → 0 <= c < 324 →
  getZ (st_cr st) (st_i st) = Some k0 →
  ((st_dir st = 1 ∧ k0 = -1 ∧ inv s base st) ∨
   (st_dir st = -1 ∧ 0 <= k0 < 9 ∧ inv s (base ++ [(c, k0)]) st)) →
  ∃ st', step the_matrix st = Next st' ∧ st_pc st' = Head ∧
    st_stdout st' = st_stdout st ∧
    ((∃ r2 q, k0 < r2 < 9 ∧ getZ (Rs c) r2 = Some q ∧
        free (hintP s ++ choices base) q ∧
        (∀ r' q', k0 < r' < r2 → getZ (Rs c) r' = Some q' →
                  weight hit (hintP s ++ choices base) q' ≠ 0) ∧
        inv s (base ++ [(c, r2)]) st' ∧ st_dir st' = 1 ∧ st_i st' = st_i st + 1) ∨
     ((∀ r' q', k0 < r' < 9 → getZ (Rs c) r' = Some q' →
                weight hit (hintP s ++ choices base) q' ≠ 0) ∧
      inv s base st' ∧ st_dir st' = -1 ∧ st_i st' = st_i st - 1)).
Proof.
  intros Hpc Hi Hlt Ecc Hc Ecr Hcase.
  destruct st as [pc i dir c0 hints sc cr cc sr out lines].
  simpl in *. subst pc.
  set (P := hintP s ++ choices base).
  assert (hints = Z.of_nat (length (hintP s)) ∧ 0 <= c0 <= 324 ∧
          length cr = 81%nat ∧ length cc = 81%nat ∧ length out = 82%nat ∧
          (∀ j c1 k1, base !! j = Some (c1, k1) →
             getZ cc (Z.of_nat j) = Some c1 ∧ getZ cr (Z.of_nat j) = Some k1 ∧
             0 <= c1 < 324 ∧ 0 <= k1 < 9) ∧
          (∀ j, i < j < 81 → getZ cr j = Some (-1)) ∧
          chain (hintP s) (choices base) ∧
          getZ out 81 = Some 0 ∧
          (∀ x ch, 0 <= x < 81 → getZ s x = Some ch → is_digit ch = true →
                   getZ out x = Some ch) ∧
          Forall (line_ok s) lines ∧ -1 <= k0 < 9 ∧
          ∃ sr1 sc1,
            (if (dir =? -1) && (0 <=? k0)
             then r ← getZ2 (aux_r the_matrix) c k0; sd_update the_matrix sr sc r (-1)
             else Some (sr, sc)) = Some (sr1, sc1) ∧
            tracks sr1 sc1 P)
    as (Hh & Hc0 & Lcr & Lcc & Lout & Hbase & Htop & Hch & Hnul & Hout & Hlines & Hk0 &
        sr1 & sc1 & Erev & Ht).
  { destruct Hcase as [(-> & -> & Hinv)|(-> & Hk0 & Hinv)].
    - inv_fields Hinv.
      unfold depth in *. simpl in *.
      repeat (split; [done|]). split; [intros j Hj; apply Htop; lia|].
      repeat (split; [done|]). try (split; [lia|]). exists sr, sc. done.
    - inv_fields Hinv.
      unfold depth in *. simpl in *.
      destruct (Rs_get c k0 Hc Hk0) as (q & E2 & Eq & Hin & Hq).
      rewrite (choices_snoc base c k0 q Eq) in Ht, Hch.
      apply chain_unsnoc in Hch as [Hch Hfree].
      rewrite List.app_assoc in Ht.
      assert (length (hintP s ++ choices base) <= 80)%nat as HlenP.
      { rewrite length_app. unfold choices. rewrite length_map. lia. }
      destruct (tracks_pop sr sc _ q Ht HlenP Hq) as (sr1 & sc1 & Epop & Ht1).
      repeat (split; [done|]).
      split. { intros j c1 k1 Hj. apply Hstk. apply lookup_app_l_Some. done. }
      split; [intros j Hj; apply Htop; lia|].
      repeat (split; [done|]). try (split; [lia|]). exists sr1, sc1.
      destruct (Z.leb_spec 0 k0); [|lia]. simpl. rewrite E2. simpl. done. }
  clear Hcase.
  unfold step, step_advance. simpl. rewrite Ecc. simpl. rewrite Ecr. simpl.
  rewrite Erev. simpl.
  destruct (find_free_spec sr1 sc1 P c 10 (k0 + 1) Ht Hc)
    as (r2 & -> & Hr2 & Hblocked & Hfound); [lia | lia |].
  simpl.
  assert (length P <= 80)%nat as HlenP.
  { unfold P. rewrite length_app. unfold choices. rewrite length_map. lia. }
  destruct (Z.ltb_spec r2 9) as [Hlt9|Hge9].
  - destruct (Hfound Hlt9) as (q & Eq & Hq & Hw).
    destruct (Rs_get c r2 Hc) as (q' & E2 & Eq' & _); [lia|].
    assert (q' = q) as -> by congruence.
    rewrite E2. simpl.
    destruct (tracks_push sr1 sc1 P q Ht HlenP Hq) as (sr2 & sc2 & -> & Ht2).
    simpl.
    destruct (setZ_is_Some cr i (int8 r2)) as [cr' Ecr']; [lia|].
    rewrite Ecr'. simpl. rewrite int8_id in Ecr' by (unfold in_int8; lia).
    eexists. split; [done|]. simpl. split; [done|]. split; [done|].
    left. exists r2, q. split; [lia|]. split; [done|]. split; [done|].
    split. { intros r' q1 Hr' E1. apply (Hblocked r'); [lia | done]. }
    split; [|done].
    constructor; unfold depth; simpl; try done; try lia.
    + rewrite length_app. simpl. lia.
    + by rewrite (setZ_length _ _ _ _ Ecr').
    + intros j c1 k1 Hj. apply lookup_app_Some in Hj as [Hj|[Hlen Hj]].
      * destruct (Hbase j c1 k1 Hj) as (E1 & E3 & R).
        pose proof (lookup_lt_Some _ _ _ Hj).
        split; [done|]. split; [|done].
        rewrite (getZ_setZ_ne _ _ _ _ _ Ecr'); [done | lia].
      * apply list_lookup_singleton_Some in Hj as [Hj [= <- <-]].
        assert (Z.of_nat j = i) as -> by lia.
        split; [done|]. split; [by eapply getZ_setZ_eq|]. lia.
    + intros j Hj. rewrite (getZ_setZ_ne _ _ _ _ _ Ecr'); [apply Htop; lia | lia].
    + rewrite (choices_snoc base c r2 q Eq), List.app_assoc. done.
    + rewrite (choices_snoc base c r2 q Eq). by apply chain_snoc.
  - destruct (setZ_is_Some cr i (int8 (-1))) as [cr' Ecr']; [lia|].
    rewrite Ecr'. simpl. rewrite int8_m1 in Ecr'.
    eexists. split; [done|]. simpl. split; [done|]. split; [done|].
    right. split. { intros r' q1 Hr' E1. apply (Hblocked r'); [lia | done]. }
    split; [|done].
    constructor; unfold depth; simpl; try done; try lia.
    + by rewrite (setZ_length _ _ _ _ Ecr').
    + intros j c1 k1 Hj. destruct (Hbase j c1 k1 Hj) as (E1 & E3 & R).
      pose proof (lookup_lt_Some _ _ _ Hj).
      split; [done|]. split; [|done].
      rewrite (getZ_setZ_ne _ _ _ _ _ Ecr'); [done | lia].
    + intros j Hj. rewrite (getZ_setZ _ _ j _ _ Ecr').
      destruct (Z.eqb_spec i j); [done | apply Htop; lia].
Qed.

(** * Runs *)

Lemma steps_trans aux m1 m2 a b c :
  steps aux m1 a b → steps aux m2 b c → steps aux (m1 + m2) a c.
Proof.
  revert a. induction m1 as [|m1 IH]; intros a; simpl.
  - by intros ->.
  - intros (a1 & E & H) H2. exists a1. split; [done|]. by apply IH.
Qed.

Lemma steps_one aux a b : step aux a = Next b → steps aux 1 a b.
Proof. intros E. exists b. done. Qed.

Lemma run_steps aux m k a b :
  steps aux m a b → run aux (m + k) a = run aux k b.
Proof.
  revert a. induction m as [|m IH]; intros a; simpl.
  - by intros ->.
  - intros (a1 & -> & H). by apply IH.
Qed.

(** * The invariant holds along every run *)

Lemma step_advance_forward s stk st :
  inv s stk st → st_pc st = Advance → st_dir st = 1 →
  ∃ c, getZ (st_cc st) (st_i st) = Some c ∧ 0 <= c < 324 ∧
       weight inc (hintP s ++ choices stk) c = 0 ∧
       st_i st = Z.of_nat (length stk) ∧ st_i st < 81 - st_hints st ∧
       getZ (st_cr st) (st_i st) = Some (-1).
Proof.
  intros Hinv Hpc Hdir.
  destruct (inv_adv _ _ _ Hinv Hpc Hdir) as (Hlt & c & Ecc & Hc & Hw).
  pose proof (inv_depth _ _ _ Hinv) as Hd. unfold depth in Hd.
  rewrite Hdir in Hd. simpl in Hd.
  pose proof (inv_hints _ _ _ Hinv).
  exists c. repeat (split; [done|]).
  apply (inv_cr_top _ _ _ Hinv). unfold depth. rewrite Hdir. simpl. lia.
Qed.

Lemma step_advance_backward s stk st :
  inv s stk st → st_pc st = Advance → st_dir st = -1 → 0 <= st_i st →
  ∃ base c k, stk = base ++ [(c, k)] ∧
       getZ (st_cc st) (st_i st) = Some c ∧ 0 <= c < 324 ∧
       getZ (st_cr st) (st_i st) = Some k ∧ 0 <= k < 9 ∧
       st_i st = Z.of_nat (length base) ∧ st_i st < 81 - st_hints st.
Proof.
  intros Hinv Hpc Hdir Hi.
  pose proof (inv_depth _ _ _ Hinv) as Hd. unfold depth in Hd.
  pose proof (inv_bound _ _ _ Hinv) as Hb. unfold depth in Hb.
  rewrite Hdir in Hd, Hb. simpl in Hd, Hb.
  destruct stk as [|[c k] base _] using rev_ind; [simpl in Hd; lia|].
  rewrite length_app in Hd. simpl in Hd.
  destruct (inv_stack _ _ _ Hinv (length base) c k) as (Ecc & Ecr & Hc & Hk).
  { rewrite lookup_app_r by lia. by rewrite Nat.sub_diag. }
  assert (Z.of_nat (length base) = st_i st) as E by lia. rewrite E in Ecc, Ecr.
  exists base, c, k. repeat (split; [done|]). lia.
Qed.

(** One step keeps the invariant and only adds lines. *)
Lemma inv_step s stk st st' :
  inv s stk st → step the_matrix st = Next st' →
  ∃ stk' L, inv s stk' st' ∧ st_stdout st' = st_stdout st ++ L.
Proof.
  intros Hinv Hstep.
  pose proof (inv_depth _ _ _ Hinv) as Hd. unfold depth in Hd.
  pose proof (inv_bound _ _ _ Hinv) as Hb. unfold depth in Hb.
  destruct (st_pc st) eqn:Hpc.
  - destruct (decide (0 <= st_i st < 81 - st_hints st)) as [Hi|Hi].
    + destruct (inv_dir _ _ _ Hinv) as [Hdir|Hdir].
      * destruct (step_scan s stk st Hinv Hpc Hdir Hi) as (st1 & E & _ & Eout & Hinv1 & _).
        assert (st1 = st') as -> by congruence.
        exists stk, []. by rewrite app_nil_r.
      * destruct (step_pass s stk st Hinv Hpc Hdir Hi) as (st1 & E & _ & Eout & Hinv1 & _).
        assert (st1 = st') as -> by congruence.
        exists stk, []. by rewrite app_nil_r.
    + destruct (decide (st_i st < 0)) as [Hneg|Hpos].
      * rewrite (step_stop st Hpc Hneg) in Hstep. done.
      * destruct (step_print s stk st Hinv Hpc) as (st1 & g & E & _ & _ & _ & Eout & Hinv1 & _);
          [lia | lia |].
        assert (st1 = st') as -> by congruence.
        exists stk, [g]. done.
  - destruct (decide (st_i st < 0)) as [Hneg|Hpos].
    { rewrite (step_advance_fault st Hpc Hneg) in Hstep. done. }
    destruct (inv_dir _ _ _ Hinv) as [Hdir|Hdir].
    + destruct (step_advance_forward s stk st Hinv Hpc Hdir)
        as (c & Ecc & Hc & _ & Ei & Hlt & Ecr).
      destruct (step_advance_core s stk c (-1) st Hpc Ei Hlt Ecc Hc Ecr)
        as (st1 & E & _ & Eout & Hres); [by left|].
      assert (st1 = st') as -> by congruence.
      destruct Hres as [(r2 & q & _ & _ & _ & _ & Hinv1 & _)|(_ & Hinv1 & _)].
      * exists (stk ++ [(c, r2)]), []. by rewrite app_nil_r.
      * exists stk, []. by rewrite app_nil_r.
    + destruct (step_advance_backward s stk st Hinv Hpc Hdir)
        as (base & c & k & -> & Ecc & Hc & Ecr & Hk & Ei & Hlt); [lia|].
      destruct (step_advance_core s base c k st Hpc Ei Hlt Ecc Hc Ecr)
        as (st1 & E & _ & Eout & Hres); [by right|].
      assert (st1 = st') as -> by congruence.
      destruct Hres as [(r2 & q & _ & _ & _ & _ & Hinv1 & _)|(_ & Hinv1 & _)].
      * exists (base ++ [(c, r2)]), []. by rewrite app_nil_r.
      * exists base, []. by rewrite app_nil_r.
Qed.

Lemma inv_steps s n stk st st' :
  inv s stk st → steps the_matrix n st st' → ∃ stk', inv s stk' st'.
Proof.
  revert stk st. induction n as [|n IH]; intros stk st Hinv; simpl.
  - intros <-. eauto.
  - intros (st1 & E & H).
    destruct (inv_step s stk st st1 Hinv E) as (stk1 & _ & Hinv1 & _). eauto.
Qed.

(** Every state of a run on an input of at least 81 characters satisfies the
    invariant. *)
Lemma reachable_inv s st0 n st :
  (81 <= length s)%nat → sd_init the_matrix s = Some st0 →
  steps the_matrix n st0 st → ∃ stk, inv s stk st.
Proof.
  intros Hs E0 Hsteps. destruct (sd_init_spec s Hs) as (st0' & E0' & Hinv & _).
  assert (st0' = st0) as -> by congruence.
  by apply (inv_steps s n [] st0).
Qed.

Lemma yields_line_ok s g :
  (81 <= length s)%nat → yields s g → line_ok s g.
Proof.
  intros Hs (st0 & n & st & E0 & Hsteps & Hg).
  destruct (reachable_inv s st0 n st Hs E0 Hsteps) as [stk Hinv].
  pose proof (inv_lines _ _ _ Hinv) as Hl.
  rewrite list.Forall_forall in Hl. by apply Hl.
Qed.

(** C2: in every grid that [sd_solve] writes, every cell that holds a digit
    '1'-'9' in the input holds that same digit. *)
Theorem sd_solve_keeps_givens (s g : list Z) (x ch : Z) :
  (81 <= length s)%nat → yields s g →
  0 <= x < 81 → getZ s x = Some ch → is_digit ch = true →
  getZ g x = Some ch.
Proof.
  intros Hs Hy Hx Es Hd.
  destruct (yields_line_ok s g Hs Hy) as (_ & _ & Hk & _). by apply Hk.
Qed.

(** C8: whenever the forward scan runs at a depth [i < 81 - hints], some
    constraint has its counter [sc[c]] at 0, so the scan does not end with
    its initial [min = 10]; a dead end at line 137 is always [min = 0]. *)
Theorem scan_sentinel_unreachable (s : list Z) (st0 st : state) (n : nat) :
  (81 <= length s)%nat → sd_init the_matrix s = Some st0 →
  steps the_matrix n st0 st →
  st_pc st = Head → st_dir st = 1 → 0 <= st_i st < 81 - st_hints st →
  (∃ c, 0 <= c < 324 ∧ getZ (st_sc st) c = Some 0) ∧
  ∃ min cc' c0',
    scan the_matrix (st_sr st) (st_sc st) (st_i st) 324 0 10 (st_cc st) (st_c0 st)
      = Some (min, cc', c0') ∧ min ≠ 10 ∧
    ((min =? 0) || (min =? 10) = true → min = 0).
Proof.
  intros Hs E0 Hsteps Hpc Hdir Hi.
  destruct (reachable_inv s st0 n st Hs E0 Hsteps) as [stk Hinv].
  pose proof (inv_length_P _ _ _ Hinv) as HlenP. unfold depth in HlenP.
  rewrite Hdir in HlenP. simpl in HlenP.
  pose proof (inv_hints _ _ _ Hinv) as Hh.
  destruct (chain_uncovered_cell s (choices stk) (inv_chain _ _ _ Hinv))
    as (x & Hx & Hw); [lia|].
  assert (getZ (st_sc st) x = Some 0) as Ex.
  { rewrite (tracks_sc _ _ _ _ (inv_tracks _ _ _ Hinv)) by lia. by rewrite Hw. }
  split; [exists x; split; [lia | done]|].
  destruct (scan_spec (st_sr st) (st_sc st) _ (st_i st) (st_cc st) (st_c0 st)
              (inv_tracks _ _ _ Hinv) (inv_len_cc _ _ _ Hinv))
    as (min & cc' & c0' & E & _ & Hres); [lia | apply (inv_c0 _ _ _ Hinv) |].
  exists min, cc', c0'. split; [done|].
  destruct Hres as [(-> & _ & Hall)|(Hmin & _)]; [|lia].
  exfalso. apply (Hall x); [lia | done].
Qed.

(** * Counting solutions *)

Lemma occ_nil g : occ g [] = 0%nat.
Proof. done. Qed.

Lemma occ_app g L1 L2 : occ g (L1 ++ L2) = (occ g L1 + occ g L2)%nat.
Proof. unfold occ. by rewrite list.filter_app, length_app. Qed.

Lemma occ_singleton_eq g : occ g [g] = 1%nat.
Proof. unfold occ. rewrite filter_cons_True by done. done. Qed.

Lemma occ_singleton_ne g l : l ≠ g → occ g [l] = 0%nat.
Proof. intros H. unfold occ. rewrite filter_cons_False by done. done. Qed.

Lemma occ_all_same g L :
  (∀ l, l ∈ L → l = g) → occ g L = 1%nat → L = [g].
Proof.
  intros Hall Hocc. destruct L as [|l L]; [done|].
  assert (l = g) as -> by (apply Hall; left).
  change (g :: L) with ([g] ++ L) in Hocc.
  rewrite occ_app, occ_singleton_eq in Hocc.
  destruct L as [|l' L]; [done|]. exfalso.
  assert (l' = g) as -> by (apply Hall; right; left).
  change (g :: L) with ([g] ++ L) in Hocc.
  rewrite occ_app, occ_singleton_eq in Hocc. lia.
Qed.

(** * Dead ends hold no solution *)

Lemma weight_nonzero f P k :
  weight f P k ≠ 0 → ∃ p, p ∈ P ∧ f p k ≠ 0.
Proof.
  induction P as [|p P IH]; simpl; [done|]. intros H.
  destruct (decide (f p k = 0)) as [E|E].
  - destruct IH as (q & Hq & Hf); [lia|]. exists q. split; [by right | done].
  - exists p. split; [left | done].
Qed.

Lemma hit_nonzero_shares p q : hit p q ≠ 0 → shares p q.
Proof.
  intros H. unfold hit in H.
  assert (q ∈ Ts p) as Hin.
  { apply countZ_pos. pose proof (countZ_nonneg q (Ts p)). lia. }
  apply elem_of_Ts in Hin as (c & Hc & Hq). exists c. split; [done|].
  pose proof (Cs_range _ _ Hc) as Hcr.
  destruct (Rs_facts c Hcr) as (_ & _ & _ & Hr & _).
  apply Rs_Cs; auto.
Qed.

(** A choice of an uncovered constraint that the applied choices exclude is
    in no valid grid that contains the applied choices. *)
Lemma blocked_not_contained g P c q :
  valid_grid g → extends g P → (∀ p, p ∈ P → 0 <= p < 729) →
  0 <= c < 324 → weight inc P c = 0 → q ∈ Rs c → weight hit P q ≠ 0 →
  ¬ contains g q.
Proof.
  intros Hg Hext Hrange Hc Hw Hq Hblocked Hcont.
  apply weight_nonzero in Hblocked as (p & Hp & Hhit).
  apply hit_nonzero_shares in Hhit.
  destruct (Rs_facts c Hc) as (_ & _ & _ & Hr & _).
  assert (p = q) as ->.
  { apply (valid_grid_exclusive g); auto. }
  apply (proj1 (weight_inc_zero P c) Hw q Hp).
  apply Rs_Cs; auto.
Qed.

Lemma dead_no_solution g P :
  valid_grid g → extends g P → (∀ p, p ∈ P → 0 <= p < 729) → ¬ dead P.
Proof.
  intros Hg Hext Hrange (c & Hc & Hw & Hall).
  destruct (valid_grid_covers g c Hg Hc) as (q & Hq & Hcont).
  by apply (blocked_not_contained g P c q Hg Hext Hrange Hc Hw Hq (Hall q Hq)).
Qed.

Lemma extends_app g P Q : extends g (P ++ Q) ↔ extends g P ∧ extends g Q.
Proof.
  unfold extends. split.
  - intros H. split; intros q Hq; apply H, elem_of_app; auto.
  - intros [H1 H2] q [Hq|Hq]%elem_of_app; auto.
Qed.

Lemma extends_hints s g : keeps_hints s g → extends g (hintP s).
Proof. intros Hk p Hp. by apply (hintP_contains s). Qed.

Lemma extends_singleton g q : extends g [q] ↔ contains g q.
Proof.
  unfold extends. split.
  - intros H. apply H. by apply list_elem_of_singleton.
  - intros H p Hp%list_elem_of_singleton. by subst.
Qed.

(** * The search visits every solution once *)

Lemma Rs_one_contained g c r r' q q' :
  valid_grid g → 0 <= c < 324 →
  getZ (Rs c) r = Some q → getZ (Rs c) r' = Some q' →
  contains g q → contains g q' → r = r'.
Proof.
  intros Hg Hc Eq Eq' Hq Hq'.
  destruct (Rs_facts c Hc) as (_ & _ & Hnd & Hr & _).
  apply getZ_Some in Eq as [Hr0 Eq], Eq' as [Hr0' Eq'].
  pose proof (list_elem_of_lookup_2 _ _ _ Eq) as Hin.
  pose proof (list_elem_of_lookup_2 _ _ _ Eq') as Hin'.
  assert (q = q') as <-.
  { apply (valid_grid_exclusive g); auto. by apply (in_Rs_shares c). }
  pose proof (NoDup_lookup _ _ _ _ Hnd Eq Eq'). lia.
Qed.

Lemma inv_range s stk st p :
  inv s stk st → p ∈ hintP s ++ choices stk → 0 <= p < 729.
Proof. intros Hinv. apply (chain_all_range s _ p (inv_chain _ _ _ Hinv)). Qed.

(** The loop over the choices of one constraint, given what the search does
    one level deeper. *)
Lemma candidates s n base c :
  (∀ stk st, inv s stk st → st_pc st = Head → st_dir st = 1 →
     st_i st = 81 - st_hints st - Z.of_nat n → explored s stk st) →
  0 <= c < 324 → weight inc (hintP s ++ choices base) c = 0 →
  ∀ (b : nat) k0 st,
    8 - k0 < Z.of_nat b →
    st_pc st = Advance → st_i st = Z.of_nat (length base) →
    st_i st = 81 - st_hints st - Z.of_nat (S n) →
    getZ (st_cc st) (st_i st) = Some c → getZ (st_cr st) (st_i st) = Some k0 →
    ((st_dir st = 1 ∧ k0 = -1 ∧ inv s base st) ∨
     (st_dir st = -1 ∧ 0 <= k0 < 9 ∧ inv s (base ++ [(c, k0)]) st)) →
    ∃ m st' L, steps the_matrix m st st' ∧ inv s base st' ∧
      st_pc st' = Head ∧ st_dir st' = -1 ∧ st_i st' = st_i st - 1 ∧
      st_stdout st' = st_stdout st ++ L ∧
      ∀ g, valid_grid g → keeps_hints s g →
        (extends g (choices base) ∧ later_choice g c k0 → occ g L = 1%nat) ∧
        (¬ (extends g (choices base) ∧ later_choice g c k0) → occ g L = 0%nat).
Proof.
  intros IHn Hc Hw. induction b as [|b IHb]; intros k0 st Hb Hpc Ei En Ecc Ecr Hcase;
    [destruct Hcase as [(_ & -> & _)|(_ & ? & _)]; lia|].
  assert (st_hints st = Z.of_nat (length (hintP s))) as Hh.
  { destruct Hcase as [(_ & _ & Hinv)|(_ & _ & Hinv)]; apply (inv_hints _ _ _ Hinv). }
  destruct (step_advance_core s base c k0 st Hpc Ei) as (st1 & E & Hpc1 & Eout1 & Hres);
    try done; [lia|].
  destruct Hres as [(r2 & q & Hr2 & Eq & Hfree & Hblocked & Hinv1 & Hdir1 & Hi1)
                   |(Hblocked & Hinv1 & Hdir1 & Hi1)].
  - (* a free choice is applied: search below it, then try the later ones *)
    pose proof (inv_hints _ _ _ Hinv1) as Hh1.
    destruct (IHn (base ++ [(c, r2)]) st1 Hinv1 Hpc1 Hdir1)
      as (m1 & st2 & L1 & Hsteps1 & Hinv2 & Hdir2 & Hi2 & Eout2 & Hpc2 & Hfound1); [lia|].
    pose proof (inv_hints _ _ _ Hinv2) as Hh2.
    assert (∃ m2 st3, steps the_matrix m2 st2 st3 ∧ inv s (base ++ [(c, r2)]) st3 ∧
              st_pc st3 = Advance ∧ st_dir st3 = -1 ∧ st_i st3 = st_i st ∧
              st_stdout st3 = st_stdout st2) as (m2 & st3 & Hsteps2 & Hinv3 & Hpc3 & Hdir3 & Hi3 & Eout3).
    { destruct Hpc2 as [Hpc2|[Hpc2 _]].
      - destruct (step_pass s _ st2 Hinv2 Hpc2 Hdir2) as (st3 & E3 & ? & ? & ? & ? & ?); [lia|].
        exists 1%nat, st3. split; [by apply steps_one|]. repeat (split; [done|]).
        split; [lia | done].
      - exists 0%nat, st2. split; [done|]. repeat (split; [done|]). split; [lia | done]. }
    pose proof (inv_hints _ _ _ Hinv3) as Hh3.
    destruct (step_advance_backward s _ st3 Hinv3 Hpc3 Hdir3)
      as (base' & c' & k' & Ebase & Ecc3 & _ & Ecr3 & _ & _ & _); [lia|].
    apply app_inj_tail in Ebase as [<- [= <- <-]].
    destruct (IHb r2 st3) as (m3 & st' & L2 & Hsteps3 & Hinv' & Hpc' & Hdir' & Hi' & Eout' & Hfound2);
      try done; try lia.
    { right. split; [done|]. split; [lia | done]. }
    exists (1 + (m1 + (m2 + m3)))%nat, st', (L1 ++ L2).
    split. { apply (steps_trans _ 1 _ st st1); [by apply steps_one|].
             apply (steps_trans _ m1 _ st1 st2); [done|].
             by apply (steps_trans _ m2 _ st2 st3). }
    split; [done|]. split; [done|]. split; [done|]. split; [lia|].
    split. { rewrite Eout', Eout3, Eout2, Eout1. by rewrite List.app_assoc. }
    intros g Hg Hk. rewrite occ_app.
    destruct (Hfound1 g Hg Hk) as [Hin1 Hout1].
    destruct (Hfound2 g Hg Hk) as [Hin2 Hout2].
    rewrite (choices_snoc base c r2 q Eq) in Hin1, Hout1.
    assert (extends g (choices base) → extends g (hintP s ++ choices base)) as Hext.
    { intros H. apply extends_app. split; [by apply extends_hints | done]. }
    assert (∀ p, p ∈ hintP s ++ choices base → 0 <= p < 729) as Hrange.
    { intros p. apply (chain_all_range s _ p (inv_chain _ _ _ Hinv')). }
    assert (q ∈ Rs c) as Hq.
    { apply getZ_Some in Eq as [_ Eq]. by eapply list_elem_of_lookup_2. }
    split.
    + intros [Hbase (r & q' & Hr & Eq' & Hcont)].
      destruct (Z.lt_trichotomy r r2) as [Hlt|[->|Hgt]].
      * exfalso.
        assert (q' ∈ Rs c) as Hq'.
        { apply getZ_Some in Eq' as [_ Eq']. by eapply list_elem_of_lookup_2. }
        apply (blocked_not_contained g _ c q' Hg (Hext Hbase) Hrange Hc Hw Hq'); [|done].
        apply (Hblocked r); [lia | done].
      * assert (q' = q) as -> by congruence.
        rewrite Hin1, Hout2; [done | |].
        -- intros [_ (r' & q'' & Hr' & Eq'' & Hcont'')].
           pose proof (Rs_one_contained g c r2 r' q q'' Hg Hc Eq Eq'' Hcont Hcont''). lia.
        -- apply extends_app. split; [done | by apply extends_singleton].
      * rewrite Hout1, Hin2; [done | |].
        -- split; [done|]. exists r, q'. split; [lia | done].
        -- intros [_ Hcq%extends_singleton]%extends_app.
           pose proof (Rs_one_contained g c r2 r q q' Hg Hc Eq Eq' Hcq Hcont). lia.
    + intros Hnot. rewrite Hout1, Hout2; [done | |].
      * intros [Hbase (r & q' & Hr & Hrest)]. apply Hnot. split; [done|].
        exists r, q'. split; [lia | done].
      * intros [Hbase Hcq%extends_singleton]%extends_app. apply Hnot. split; [done|].
        exists r2, q. done.
  - (* no free choice is left: this depth is given up *)
    exists 1%nat, st1, []. split; [by apply steps_one|].
    split; [done|]. split; [done|]. split; [done|]. split; [done|].
    split; [by rewrite app_nil_r|].
    intros g Hg Hk. split; [|done].
    intros [Hbase (r & q' & Hr & Eq' & Hcont)]. exfalso.
    assert (q' ∈ Rs c) as Hq'.
    { apply getZ_Some in Eq' as [_ Eq']. by eapply list_elem_of_lookup_2. }
    apply (blocked_not_contained g (hintP s ++ choices base) c q' Hg); try done.
    + apply extends_app. split; [by apply extends_hints | done].
    + intros p. apply (chain_all_range s _ p (inv_chain _ _ _ Hinv1)).
    + by apply (Hblocked r).
Qed.

(** The search below a node, by induction on the number of cells still to
    fill. *)
Lemma explore s n :
  ∀ stk st, inv s stk st → st_pc st = Head → st_dir st = 1 →
    st_i st = 81 - st_hints st - Z.of_nat n → explored s stk st.
Proof.
  induction n as [|n IHn]; intros stk st Hinv Hpc Hdir Hi.
  - (* the stack is full: the grid is written *)
    pose proof (inv_depth _ _ _ Hinv) as Hd. unfold depth in Hd.
    rewrite Hdir in Hd. simpl in Hd.
    destruct (step_print s stk st Hinv Hpc)
      as (st' & g & E & Hpc' & Hdir' & Hi' & Eout & Hinv' & Hlen & Lg & Hcont); [lia | lia |].
    exists 1%nat, st', [g]. split; [by apply steps_one|].
    split; [done|]. split; [done|]. split; [done|]. split; [done|].
    split; [by left|].
    intros g0 Hg0 Hk0. split.
    + intros Hext.
      assert (g0 = g) as ->; [|apply occ_singleton_eq].
      apply (full_chain_determines s (choices stk)); try done.
      * apply (inv_chain _ _ _ Hinv).
      * by destruct Hg0.
      * apply extends_app. split; [by apply extends_hints | done].
    + intros Hnot. apply occ_singleton_ne. intros ->. apply Hnot.
      intros q Hq. apply Hcont, elem_of_app. by right.
  - pose proof (inv_depth _ _ _ Hinv) as Hd. unfold depth in Hd.
    rewrite Hdir in Hd. simpl in Hd.
    destruct (step_scan s stk st Hinv Hpc Hdir) as (st1 & E & Hpc1 & Eout1 & Hinv1 & Hres);
      [lia|].
    destruct Hres as [(Hdir1 & Hi1)|(Hdir1 & Hi1 & Hdead)].
    + (* a constraint is fixed for this depth *)
      destruct (step_advance_forward s stk st1 Hinv1 Hpc1 Hdir1)
        as (c & Ecc & Hc & Hw & Ei & Hlt & Ecr).
      pose proof (inv_hints _ _ _ Hinv) as Hh. pose proof (inv_hints _ _ _ Hinv1) as Hh1.
      destruct (candidates s n stk c IHn Hc Hw 10 (-1) st1)
        as (m & st' & L & Hsteps & Hinv' & Hpc' & Hdir' & Hi' & Eout' & Hfound);
        try done; try lia.
      { by left. }
      exists (1 + m)%nat, st', L.
      split; [apply (steps_trans _ 1 _ st st1); [by apply steps_one | done]|].
      split; [done|]. split; [done|]. split; [lia|].
      split; [by rewrite Eout', Eout1|]. split; [by left|].
      intros g Hg Hk. destruct (Hfound g Hg Hk) as [Hin Hout].
      assert (later_choice g c (-1)) as Hlater.
      { destruct (valid_grid_covers g c Hg Hc) as (q & Hq & Hcont).
        destruct (Rs_elem c q Hq) as (r & Hr & Eq). exists r, q.
        split; [lia | done]. }
      split; [intros Hext; by apply Hin|].
      intros Hnot. apply Hout. intros [Hext _]. done.
    + (* a dead constraint: nothing below this node *)
      exists 1%nat, st1, []. split; [by apply steps_one|].
      split; [done|]. split; [done|]. split; [done|].
      split; [by rewrite app_nil_r|]. split; [by right|].
      intros g Hg Hk. split; [|done]. intros Hext. exfalso.
      apply (dead_no_solution g (hintP s ++ choices stk) Hg); [| |done].
      * apply extends_app. split; [by apply extends_hints | done].
      * intros p. apply (chain_all_range s _ p (inv_chain _ _ _ Hinv)).
Qed.

(** * The result of [sd_solve] *)

Lemma run_more aux k fuel st L r :
  run aux fuel st = Returned L r → run aux (fuel + k) st = Returned L r.
Proof.
  revert st. induction fuel as [|fuel IH]; intros st; simpl; [done|].
  destruct (step aux st); [apply IH | done | done].
Qed.

Lemma run_more_undefined aux k fuel st :
  run aux fuel st = Undefined → run aux (fuel + k) st = Undefined.
Proof.
  revert st. induction fuel as [|fuel IH]; intros st; simpl; [done|].
  destruct (step aux st); [apply IH | done | done].
Qed.

(** On every input of at least 81 characters the search comes to an end:
    either it returns, having written every solution of the puzzle exactly
    once, or it reaches the out-of-bounds read of line 139, having written
    nothing, and then the puzzle has no solution. *)
Lemma sd_solve_result s :
  (81 <= length s)%nat →
  ∃ fuel L,
    (sd_solve the_matrix fuel s = Returned L 0 ∨
     (sd_solve the_matrix fuel s = Undefined ∧ L = [])) ∧
    Forall (line_ok s) L ∧ found_once s [] L.
Proof.
  intros Hs. destruct (sd_init_spec s Hs) as (st0 & E0 & Hinv0 & Hpc0 & Hdir0 & Hi0 & Hout0).
  pose proof (hintP_length s) as Hlen. pose proof (inv_hints _ _ _ Hinv0) as Hh.
  destruct (explore s (Z.to_nat (81 - st_hints st0)) [] st0 Hinv0 Hpc0 Hdir0)
    as (m & st' & L & Hsteps & Hinv' & Hdir' & Hi' & Eout & Hpc' & Hfound); [lia|].
  rewrite Hout0 in Eout. simpl in Eout.
  exists (m + 1)%nat, L. split; [|split; [|done]].
  - unfold sd_solve. rewrite E0, (run_steps _ m 1 st0 st' Hsteps). simpl.
    destruct Hpc' as [Hpc'|[Hpc' ->]].
    + left. rewrite (step_stop st' Hpc') by lia. by rewrite Eout.
    + right. rewrite (step_advance_fault st' Hpc') by lia. done.
  - rewrite <- Eout. apply (inv_lines _ _ _ Hinv').
Qed.

(** The model always halts: with enough fuel [sd_solve] returns 0 or stops at
    the out-of-bounds read. *)
Lemma sd_solve_halts s :
  (81 <= length s)%nat →
  ∃ fuel, (∃ L, sd_solve the_matrix fuel s = Returned L 0) ∨
          sd_solve the_matrix fuel s = Undefined.
Proof.
  intros Hs. destruct (sd_solve_result s Hs) as (fuel & L & [H|[H _]] & _); eauto.
Qed.

(** When the givens are part of a valid grid, a line whose only possible
    conflicts are between givens is a valid grid. *)
Lemma line_ok_valid s g l :
  solves s g → line_ok s l → solves s l.
Proof.
  intros [Hg Hkg] (Hlen & Hdig & Hkl & Hconf). split; [|done].
  apply no_conflict_valid; try done.
  intros x y Hx Hy Hne Hsh.
  destruct (Hconf x y Hx Hy Hne Hsh) as [[p Ep] [q Eq]].
  apply hint_at_Some in Ep as (ch & Esx & Hdx & _).
  apply hint_at_Some in Eq as (ch' & Esy & Hdy & _).
  pose proof (Hkl x ch Hx Esx Hdx) as Elx. pose proof (Hkl y ch' Hy Esy Hdy) as Ely.
  pose proof (Hkg x ch Hx Esx Hdx) as Egx. pose proof (Hkg y ch' Hy Esy Hdy) as Egy.
  destruct (pl_digit l x ch Elx Hdx Hx) as (Epl & _).
  destruct (pl_digit l y ch' Ely Hdy Hy) as (Epl' & _).
  destruct (pl_digit g x ch Egx Hdx Hx) as (Epg & Hrx & Hcx & _ & Hcontx).
  destruct (pl_digit g y ch' Egy Hdy Hy) as (Epg' & Hry & Hcy & _ & Hconty).
  rewrite Epl, <- Epg, Epl', <- Epg' in Hsh.
  pose proof (valid_grid_exclusive g _ _ Hg Hrx Hry Hcontx Hconty Hsh) as E.
  rewrite E in Hcx. lia.
Qed.

(** Every solution of the puzzle is among the lines [sd_solve] returns. *)
Lemma sd_solve_complete s fuel L r g :
  (81 <= length s)%nat → sd_solve the_matrix fuel s = Returned L r →
  solves s g → g ∈ L.
Proof.
  intros Hs Hrun [Hg Hk].
  destruct (sd_solve_result s Hs) as (fuel' & L' & Hres & _ & Hfound).
  destruct (Hfound g Hg Hk) as [Hocc _].
  assert (occ g L' = 1%nat) as H1 by (apply Hocc; intros q Hq; by apply elem_of_nil in Hq).
  unfold sd_solve in *. destruct (sd_init the_matrix s) as [st0|]; [|done].
  assert (L' = L) as <-.
  { destruct Hres as [Hres|[Hres ->]].
    - apply (run_more _ fuel) in Hres. apply (run_more _ fuel') in Hrun.
      rewrite Nat.add_comm in Hres. congruence.
    - apply (run_more_undefined _ fuel) in Hres. apply (run_more _ fuel') in Hrun.
      rewrite Nat.add_comm in Hres. congruence. }
  unfold occ in H1. destruct (filter (fun l => l = g) L') as [|l ls] eqn:E; [done|].
  assert (l ∈ filter (fun l => l = g) L') as Hin by (rewrite E; left).
  apply list_elem_of_filter in Hin as [-> Hin]. done.
Qed.

(** C1: on a puzzle with exactly one solution [sd_solve] returns after
    writing exactly one line, and that line is a grid in which every row,
    column and 3x3 box contains each digit '1'-'9' exactly once (it is the
    solution). *)
Theorem sd_solve_unique_solution (s g : list Z) :
  (81 <= length s)%nat → solves s g → (∀ g', solves s g' → g' = g) →
  ∃ fuel out, sd_solve the_matrix fuel s = Returned [out] 0 ∧
              valid_grid out ∧ keeps_hints s out ∧ out = g.
Proof.
  intros Hs Hsol Huniq.
  destruct (sd_solve_result s Hs) as (fuel & L & Hres & Hlines & Hfound).
  destruct Hsol as [Hg Hk].
  destruct (Hfound g Hg Hk) as [Hocc _].
  assert (occ g L = 1%nat) as H1 by (apply Hocc; intros q Hq; by apply elem_of_nil in Hq).
  assert (L = [g]) as ->.
  { apply occ_all_same; [|done]. intros l Hl. apply Huniq.
    apply (line_ok_valid s g); [done|]. rewrite list.Forall_forall in Hlines. auto. }
  exists fuel, g. destruct Hres as [Hres|[_ [=]]]. done.
Qed.

(** * Conflicting givens *)

Lemma row_cells_unit x : 0 <= x < 81 → row_cells (x / 9) ∈ units ∧ x ∈ row_cells (x / 9).
Proof.
  intros Hx. split.
  - unfold units. apply elem_of_app. left.
    apply (list_elem_of_fmap_2 row_cells). apply elem_of_seqZ.
    Z.div_mod_to_equations. lia.
  - unfold row_cells. apply list_elem_of_fmap. exists (x mod 9).
    split; [Z.div_mod_to_equations; lia|]. apply elem_of_seqZ.
    Z.div_mod_to_equations. lia.
Qed.

(** C6 as amended: [sd_solve] does not check the givens against each other.
    On an input with two equal digits in one row it may write grids, but
    every grid it writes still holds both of them, so it writes no valid
    grid. *)
Theorem conflicting_hints_yield_no_valid_grid (s g : list Z) :
  (81 <= length s)%nat → row_conflict s → yields s g →
  (∃ x y ch, 0 <= x < 81 ∧ 0 <= y < 81 ∧ x / 9 = y / 9 ∧ x mod 9 ≠ y mod 9 ∧
     is_digit ch = true ∧ getZ g x = Some ch ∧ getZ g y = Some ch) ∧
  ¬ valid_grid g.
Proof.
  intros Hs (x & y & ch & Hx & Hy & Hrow & Hcol & Hd & Esx & Esy) Hyield.
  destruct (yields_line_ok s g Hs Hyield) as (_ & _ & Hk & _).
  pose proof (Hk x ch Hx Esx Hd) as Egx. pose proof (Hk y ch Hy Esy Hd) as Egy.
  split; [exists x, y, ch; done|].
  intros [_ Hval].
  destruct (row_cells_unit x Hx) as [Hu Hxu].
  destruct (row_cells_unit y Hy) as [_ Hyu]. rewrite <- Hrow in Hyu.
  destruct (units_shape _ Hu) as (_ & Hnd & _).
  apply is_digit_spec in Hd.
  pose proof (Hval _ ch Hu Hd) as Hcount.
  assert (2 <= countZ ch (map (cell_value g) (row_cells (x / 9)))); [|lia].
  apply (countZ_map_twice (cell_value g) _ x y); try done.
  - intros ->. done.
  - by apply cell_value_Some.
  - by apply cell_value_Some.
Qed.

(** * Concrete runs *)

Lemma run_Returned_steps aux fuel st L r :
  run aux fuel st = Returned L r →
  ∃ n st', steps aux n st st' ∧ st_stdout st' = L.
Proof.
  revert st. induction fuel as [|fuel IH]; intros st; simpl; [done|].
  destruct (step aux st) as [st1| |] eqn:E; [|by intros [= <- _]; exists 0%nat, st|done].
  intros H. destruct (IH st1 H) as (n & st' & Hsteps & Hout).
  exists (S n), st'. split; [|done]. exists st1. done.
Qed.

Lemma returned_yields s fuel L r g :
  sd_solve the_matrix fuel s = Returned L r → g ∈ L → yields s g.
Proof.
  unfold sd_solve. destruct (sd_init the_matrix s) as [st0|] eqn:E0; [|done].
  intros Hrun Hg. destruct (run_Returned_steps _ _ _ _ _ Hrun) as (n & st & Hsteps & <-).
  exists st0, n, st. done.
Qed.

Lemma valid_gridb_spec g : valid_gridb g = true → valid_grid g.
Proof.
  unfold valid_gridb. rewrite andb_true_iff, forallb_forall.
  intros [Hlen Hall]. split; [lia|]. intros u d Hu%list_elem_of_In Hd.
  specialize (Hall u Hu). rewrite forallb_forall in Hall.
  specialize (Hall d). apply Z.eqb_eq, Hall.
  apply list_elem_of_In, elem_of_seqZ. lia.
Qed.

Lemma keeps_hintsb_spec s g : keeps_hintsb s g = true → keeps_hints s g.
Proof.
  unfold keeps_hintsb. intros H x ch Hx Es Hd.
  pose proof (forallb_seqZ _ _ H x Hx) as Hc. cbv beta in Hc.
  rewrite Es, Hd in Hc. simpl in Hc. by apply bool_decide_eq_true in Hc.
Qed.

Lemma solves_classic : solves puzzle_classic solved_classic.
Proof.
  split; [apply valid_gridb_spec | apply keeps_hintsb_spec]; vm_compute; reflexivity.
Qed.

Lemma length_classic : (81 <= length puzzle_classic)%nat.
Proof. vm_compute. lia. Qed.

Lemma unique_classic g : solves puzzle_classic g → g = solved_classic.
Proof.
  intros Hsol.
  pose proof (sd_solve_complete _ _ _ _ g length_classic sd_solve_classic Hsol) as Hin.
  by apply list_elem_of_singleton in Hin.
Qed.

Lemma yields_classic : yields puzzle_classic solved_classic.
Proof.
  apply (returned_yields _ _ _ _ _ sd_solve_classic). by apply list_elem_of_singleton.
Qed.

Lemma sd_solve_conflict :
  sd_solve the_matrix 10 puzzle_conflict = Returned [grid_conflict] 0.
Proof. vm_compute. reflexivity. Qed.

Lemma row_conflict_puzzle : row_conflict puzzle_conflict.
Proof. exists 0, 1, 51. vm_compute. repeat split; congruence. Qed.

Lemma hints_classic : Z.of_nat (length (hintP puzzle_classic)) = 30.
Proof. vm_compute. reflexivity. Qed.

(** * The theorems at concrete inputs *)

Lemma sd_solve_unique_solution_witness :
  (81 <= length puzzle_classic)%nat ∧ solves puzzle_classic solved_classic ∧
  (∀ g', solves puzzle_classic g' → g' = solved_classic) ∧
  ∃ fuel out, sd_solve the_matrix fuel puzzle_classic = Returned [out] 0 ∧
              valid_grid out ∧ keeps_hints puzzle_classic out ∧ out = solved_classic.
Proof.
  split; [apply length_classic|]. split; [apply solves_classic|].
  split; [apply unique_classic|].
  apply (sd_solve_unique_solution puzzle_classic solved_classic).
  - apply length_classic.
  - apply solves_classic.
  - apply unique_classic.
Defined.

Lemma sd_solve_keeps_givens_witness :
  (81 <= length puzzle_classic)%nat ∧ yields puzzle_classic solved_classic ∧
  0 <= 0 < 81 ∧ getZ puzzle_classic 0 = Some 53 ∧ is_digit 53 = true ∧
  getZ solved_classic 0 = Some 53.
Proof.
  split; [apply length_classic|]. split; [apply yields_classic|].
  split; [lia|]. split; [reflexivity|]. split; [reflexivity|].
  apply (sd_solve_keeps_givens puzzle_classic solved_classic 0 53).
  - apply length_classic.
  - apply yields_classic.
  - lia.
  - reflexivity.
  - reflexivity.
Defined.

Lemma sd_update_inverse_witness :
  ∃ sr1 sc1,
    Forall in_int16 (replicate 729 0) ∧ Forall in_int8 (replicate 324 0) ∧
    sd_update the_matrix (replicate 729 0) (replicate 324 0) 400 1 = Some (sr1, sc1) ∧
    sd_update the_matrix sr1 sc1 400 (-1) = Some (replicate 729 0, replicate 324 0).
Proof.
  assert (Forall in_int16 (replicate 729 0)) as H16.
  { apply Forall_replicate. unfold in_int16. lia. }
  assert (Forall in_int8 (replicate 324 0)) as H8.
  { apply Forall_replicate. unfold in_int8. lia. }
  eexists _, _. split; [exact H16|]. split; [exact H8|].
  assert (sd_update the_matrix (replicate 729 0) (replicate 324 0) 400 1 =
          Some (bumps int16 1 (Ts 400) (replicate 729 0),
                bumps int8 1 (Cs 400) (replicate 324 0))) as E.
  { apply sd_update_matrix; [lia | apply length_replicate | apply length_replicate]. }
  split; [exact E|].
  exact (sd_update_inverse the_matrix _ _ 400 _ _ H16 H8 E).
Defined.

Lemma genmat_placement_constraints_witness :
  0 <= 4 < 9 ∧ 0 <= 7 < 9 ∧ 0 <= 2 < 9 ∧
  ∃ a, sd_genmat = Some a ∧
    getZ (aux_c a) (81 * 4 + 9 * 7 + 2) =
      Some [9 * 4 + 7; (4 / 3 * 3 + 7 / 3) * 9 + 2 + 81;
            9 * 4 + 2 + 162; 9 * 7 + 2 + 243] ∧
    0 <= 9 * 4 + 7 < 81 ∧
    81 <= (4 / 3 * 3 + 7 / 3) * 9 + 2 + 81 < 162 ∧
    162 <= 9 * 4 + 2 + 162 < 243 ∧
    243 <= 9 * 7 + 2 + 243 < 324.
Proof.
  split; [lia|]. split; [lia|]. split; [lia|].
  apply (genmat_placement_constraints 4 7 2); lia.
Defined.

Lemma conflicting_hints_yield_no_valid_grid_witness :
  (81 <= length puzzle_conflict)%nat ∧ row_conflict puzzle_conflict ∧
  yields puzzle_conflict grid_conflict ∧
  (∃ x y ch, 0 <= x < 81 ∧ 0 <= y < 81 ∧ x / 9 = y / 9 ∧ x mod 9 ≠ y mod 9 ∧
     is_digit ch = true ∧ getZ grid_conflict x = Some ch ∧
     getZ grid_conflict y = Some ch) ∧
  ¬ valid_grid grid_conflict.
Proof.
  assert (81 <= length puzzle_conflict)%nat as Hlen by (vm_compute; lia).
  assert (yields puzzle_conflict grid_conflict) as Hy.
  { apply (returned_yields _ _ _ _ _ sd_solve_conflict).
    by apply list_elem_of_singleton. }
  split; [exact Hlen|]. split; [apply row_conflict_puzzle|]. split; [exact Hy|].
  exact (conflicting_hints_yield_no_valid_grid puzzle_conflict grid_conflict
           Hlen row_conflict_puzzle Hy).
Defined.

Lemma scan_sentinel_unreachable_witness :
  ∃ st0,
    (81 <= length puzzle_classic)%nat ∧
    sd_init the_matrix puzzle_classic = Some st0 ∧
    steps the_matrix 0 st0 st0 ∧
    st_pc st0 = Head ∧ st_dir st0 = 1 ∧ 0 <= st_i st0 < 81 - st_hints st0 ∧
    (∃ c, 0 <= c < 324 ∧ getZ (st_sc st0) c = Some 0) ∧
    ∃ min cc' c0',
      scan the_matrix (st_sr st0) (st_sc st0) (st_i st0) 324 0 10 (st_cc st0) (st_c0 st0)
        = Some (min, cc', c0') ∧ min ≠ 10 ∧
      ((min =? 0) || (min =? 10) = true → min = 0).
Proof.
  destruct (sd_init_spec puzzle_classic length_classic)
    as (st0 & E0 & Hinv & Hpc & Hdir & Hi & _).
  assert (0 <= st_i st0 < 81 - st_hints st0) as Hrange.
  { rewrite Hi, (inv_hints _ _ _ Hinv), hints_classic. lia. }
  exists st0. split; [apply length_classic|]. split; [exact E0|].
  split; [reflexivity|]. split; [exact Hpc|]. split; [exact Hdir|].
  split; [exact Hrange|].
  exact (scan_sentinel_unreachable puzzle_classic st0 st0 0 length_classic E0
           eq_refl Hpc Hdir Hrange).
Defined.


(** * Further properties of [sd_solve] *)

Lemma givens_conflictb_spec s : givens_conflict s → givens_conflictb s = true.
Proof.
  intros (u & x & y & ch & Hu & Hx & Hy & Hne & Hd & Ex & Ey).
  unfold givens_conflictb.
  apply existsb_exists. exists u. split; [by apply list_elem_of_In|].
  apply existsb_exists. exists x. split; [by apply list_elem_of_In|].
  apply existsb_exists. exists y. split; [by apply list_elem_of_In|].
  rewrite Ex, Ey, Hd, Z.eqb_refl. destruct (Z.eqb_spec x y); done.
Qed.

Lemma solvable_no_conflict s g : solves s g → ¬ givens_conflict s.
Proof.
  intros [[Hlen Hval] Hk] (u & x & y & ch & Hu & Hx & Hy & Hne & Hd & Ex & Ey).
  destruct (units_shape u Hu) as (_ & Hnd & Hr).
  pose proof (Hk x ch (Hr x Hx) Ex Hd) as Egx.
  pose proof (Hk y ch (Hr y Hy) Ey Hd) as Egy.
  assert (49 <= ch <= 57) as Hch.
  { unfold is_digit in Hd. apply andb_true_iff in Hd as [H1 H2]. lia. }
  pose proof (Hval u ch Hu Hch) as H1.
  pose proof (countZ_map_twice (cell_value g) u x y ch Hnd Hx Hy Hne
                (cell_value_Some _ _ _ Egx) (cell_value_Some _ _ _ Egy)).
  lia.
Qed.

Lemma line_ok_no_conflict s l :
  ¬ givens_conflict s → line_ok s l → solves s l.
Proof.
  intros Hnc (Hlen & Hdig & Hkl & Hconf). split; [|done].
  apply no_conflict_valid; try done.
  intros x y Hx Hy Hne Hsh. apply Hnc.
  destruct (Hconf x y Hx Hy Hne Hsh) as [[p Ep] [q Eq]].
  apply hint_at_Some in Ep as (ch & Esx & Hdx & _).
  apply hint_at_Some in Eq as (ch' & Esy & Hdy & _).
  pose proof (Hkl x ch Hx Esx Hdx) as Elx. pose proof (Hkl y ch' Hy Esy Hdy) as Ely.
  destruct (pl_digit l x ch Elx Hdx Hx) as (_ & Hrx & Hcx & Hmx & _).
  destruct (pl_digit l y ch' Ely Hdy Hy) as (_ & Hry & Hcy & Hmy & _).
  destruct Hsh as (c & Hc1 & Hc2).
  pose proof (Cs_range _ _ Hc1) as Hc.
  destruct (Z_lt_ge_dec c 81) as [Hlt|Hge].
  { pose proof (Cs_cell _ _ Hrx Hc1 Hlt). pose proof (Cs_cell _ _ Hry Hc2 Hlt). lia. }
  destruct (Rs_unit c ltac:(lia)) as [Hu Hm].
  apply Rs_Cs in Hc1; [|done..]. apply Rs_Cs in Hc2; [|done..].
  pose proof (Hm _ Hc1). pose proof (Hm _ Hc2).
  assert (ch' = ch) as -> by lia.
  exists (unit_cells_of c), x, y, ch.
  split; [done|]. unfold unit_cells_of.
  split; [rewrite <- Hcx; by apply (list_elem_of_fmap_2 (fun q => q / 9))|].
  split; [rewrite <- Hcy; by apply (list_elem_of_fmap_2 (fun q => q / 9))|]. done.
Qed.

Lemma sd_solve_returned s fuel L r :
  (81 <= length s)%nat → sd_solve the_matrix fuel s = Returned L r →
  Forall (line_ok s) L ∧ found_once s [] L.
Proof.
  intros Hs Hrun.
  destruct (sd_solve_result s Hs) as (fuel' & L' & Hres & Hok & Hfound).
  unfold sd_solve in *. destruct (sd_init the_matrix s) as [st0|]; [|done].
  assert (L' = L) as <-; [|done].
  destruct Hres as [Hres|[Hres ->]].
  - apply (run_more _ fuel) in Hres. apply (run_more _ fuel') in Hrun.
    rewrite Nat.add_comm in Hres. congruence.
  - apply (run_more_undefined _ fuel) in Hres. apply (run_more _ fuel') in Hrun.
    rewrite Nat.add_comm in Hres. congruence.
Qed.

Lemma extends_nil g : extends g [].
Proof. intros q Hq. by apply elem_of_nil in Hq. Qed.

Lemma occ_NoDup L : (∀ g, g ∈ L → occ g L = 1%nat) → NoDup L.
Proof.
  induction L as [|l L IH]; intros H; [constructor|].
  assert (occ l (l :: L) = 1%nat) as H1 by (apply H; left).
  change (l :: L) with ([l] ++ L) in H1. rewrite occ_app, occ_singleton_eq in H1.
  assert (l ∉ L) as Hl.
  { intros Hin. unfold occ in H1.
    destruct (filter (fun l0 => l0 = l) L) as [|a b] eqn:E; [|simpl in H1; lia].
    assert (l ∈ filter (fun l0 => l0 = l) L) as Hf by (by apply list_elem_of_filter).
    rewrite E in Hf. by apply elem_of_nil in Hf. }
  constructor; [done|]. apply IH. intros g Hg.
  assert (occ g (l :: L) = 1%nat) as H2 by (apply H; by right).
  change (l :: L) with ([l] ++ L) in H2. rewrite occ_app in H2.
  rewrite occ_singleton_ne in H2; [done|]. intros ->. done.
Qed.

(** X1. When no two givens with the same digit share a row, a column or a
    box, the lines [sd_solve] has written when it returns are exactly the
    solutions of the puzzle (the valid grids that keep the givens), each
    written once, however many there are. *)
Theorem sd_solve_lists_solutions (s : list Z) (fuel : nat) (L : list (list Z)) (r : Z) :
  (81 <= length s)%nat → ¬ givens_conflict s →
  sd_solve the_matrix fuel s = Returned L r →
  NoDup L ∧ ∀ g, g ∈ L ↔ solves s g.
Proof.
  intros Hs Hnc Hrun.
  destruct (sd_solve_returned s fuel L r Hs Hrun) as [Hok Hfound].
  assert (∀ g, g ∈ L → solves s g) as Hsound.
  { intros g Hg. apply line_ok_no_conflict; [done|].
    by apply (proj1 (list.Forall_forall _ _) Hok). }
  assert (∀ g, solves s g → occ g L = 1%nat) as Honce.
  { intros g [Hg Hk]. apply (Hfound g Hg Hk), extends_nil. }
  split.
  - apply occ_NoDup. intros g Hg. apply Honce, Hsound, Hg.
  - intros g. split; [apply Hsound|]. intros Hg. specialize (Honce g Hg).
    unfold occ in Honce.
    destruct (filter (fun l => l = g) L) as [|l ls] eqn:E; [done|].
    assert (l ∈ filter (fun l => l = g) L) as Hin by (rewrite E; left).
    apply list_elem_of_filter in Hin as [-> Hin]. done.
Qed.

(** X2. At every point of a run on givens without a conflict, every line
    written so far is a valid grid that keeps the givens. *)
Theorem sd_solve_writes_only_solutions (s g : list Z) :
  (81 <= length s)%nat → ¬ givens_conflict s → yields s g →
  valid_grid g ∧ keeps_hints s g.
Proof.
  intros Hs Hnc Hy. apply (line_ok_no_conflict s g Hnc), yields_line_ok; done.
Qed.

(** X3. A puzzle whose givens have no conflict but which has no solution makes
    [sd_solve], when it returns, return without having written a line. *)
Theorem sd_solve_unsolvable_writes_nothing (s : list Z) (fuel : nat)
    (L : list (list Z)) (r : Z) :
  (81 <= length s)%nat → ¬ givens_conflict s → (∀ g, ¬ solves s g) →
  sd_solve the_matrix fuel s = Returned L r → L = [].
Proof.
  intros Hs Hnc Hno Hrun. destruct L as [|l L]; [done|]. exfalso.
  apply (Hno l), (line_ok_no_conflict s l Hnc), yields_line_ok; [done|].
  apply (returned_yields _ _ _ _ _ Hrun). left.
Qed.

(** X4. Every run on an input of at least 81 characters ends: with enough
    steps [sd_solve] either returns 0, or reads [cc[-1]]; the latter only
    for a puzzle that has no solution. *)
Theorem sd_solve_ends (s : list Z) :
  (81 <= length s)%nat →
  ∃ fuel, (∃ L, sd_solve the_matrix fuel s = Returned L 0) ∨
          (sd_solve the_matrix fuel s = Undefined ∧ ∀ g, ¬ solves s g).
Proof.
  intros Hs.
  destruct (sd_solve_result s Hs) as (fuel & L & [H|[H ->]] & _ & Hfound).
  - exists fuel. left. eauto.
  - exists fuel. right. split; [done|]. intros g [Hg Hk].
    destruct (Hfound g Hg Hk) as [Hocc _]. specialize (Hocc (extends_nil g)).
    by rewrite occ_nil in Hocc.
Qed.

(** X6. Whatever the givens, every line written is a complete grid: 81
    characters, each one a digit from 1 to 9. *)
Theorem sd_solve_lines_complete (s g : list Z) :
  (81 <= length s)%nat → yields s g →
  length g = 81%nat ∧ ∀ x, 0 <= x < 81 → ∃ ch, getZ g x = Some ch ∧ 49 <= ch <= 57.
Proof.
  intros Hs Hy. destruct (yields_line_ok s g Hs Hy) as (Hlen & Hdig & _).
  split; [done|]. intros x Hx. destruct (Hdig x Hx) as (ch & E & Hd).
  exists ch. split; [done|]. unfold is_digit in Hd.
  apply andb_true_iff in Hd as [H1 H2]. lia.
Qed.

(** * Where the search can leave the arrays *)

Lemma quiet_step s stk k st st' :
  inv s stk st → quiet k st → step the_matrix st = Next st' →
  ∃ stk', inv s stk' st' ∧ quiet (S k) st'.
Proof.
  intros Hinv [Q1 Q2] Hstep.
  pose proof (inv_depth _ _ _ Hinv) as Hd. unfold depth in Hd.
  pose proof (inv_bound _ _ _ Hinv) as Hb. unfold depth in Hb.
  destruct (st_pc st) eqn:Hpc.
  - destruct (decide (0 <= st_i st < 81 - st_hints st)) as [Hi|Hi].
    + destruct (inv_dir _ _ _ Hinv) as [Hdir|Hdir].
      * destruct (step_scan s stk st Hinv Hpc Hdir Hi)
          as (st1 & E & Hpc1 & Eout & Hinv1 & Hres).
        assert (st1 = st') as -> by congruence.
        exists stk. split; [done|]. split; intros H1; [congruence|].
        intros Hneg. destruct Hres as [[_ Ei]|(_ & Ei & _)]; [lia|].
        destruct (Q1 eq_refl Hdir ltac:(lia)) as [-> Hq]. split; congruence.
      * destruct (step_pass s stk st Hinv Hpc Hdir Hi)
          as (st1 & E & Hpc1 & Eout & Hinv1 & Hdir1 & Ei).
        assert (st1 = st') as -> by congruence.
        exists stk. split; [done|]. split; intros H1; [congruence|]. lia.
    + destruct (decide (st_i st < 0)) as [Hneg|Hpos].
      * rewrite (step_stop st Hpc Hneg) in Hstep. done.
      * destruct (step_print s stk st Hinv Hpc)
          as (st1 & g & E & Hpc1 & Hdir1 & _ & _ & Hinv1 & _); [lia | lia |].
        assert (st1 = st') as -> by congruence.
        exists stk. split; [done|]. split; intros H1; [lia|congruence].
  - destruct (decide (st_i st < 0)) as [Hneg|Hpos].
    { rewrite (step_advance_fault st Hpc Hneg) in Hstep. done. }
    destruct (inv_dir _ _ _ Hinv) as [Hdir|Hdir].
    + destruct (step_advance_forward s stk st Hinv Hpc Hdir)
        as (c & Ecc & Hc & _ & Ei & Hlt & Ecr).
      destruct (step_advance_core s stk c (-1) st Hpc Ei Hlt Ecc Hc Ecr)
        as (st1 & E & Hpc1 & Eout & Hres); [by left|].
      assert (st1 = st') as -> by congruence.
      destruct Hres as [(r2 & q & _ & _ & _ & _ & Hinv1 & Hdir1 & Ei1)
                       |(_ & Hinv1 & Hdir1 & Ei1)].
      * exists (stk ++ [(c, r2)]). split; [done|]. split; intros H1; [lia|congruence].
      * exists stk. split; [done|]. split; intros H1; [lia|congruence].
    + destruct (step_advance_backward s stk st Hinv Hpc Hdir)
        as (base & c & k1 & -> & Ecc & Hc & Ecr & Hk & Ei & Hlt); [lia|].
      destruct (step_advance_core s base c k1 st Hpc Ei Hlt Ecc Hc Ecr)
        as (st1 & E & Hpc1 & Eout & Hres); [by right|].
      assert (st1 = st') as -> by congruence.
      destruct Hres as [(r2 & q & _ & _ & _ & _ & Hinv1 & Hdir1 & Ei1)
                       |(_ & Hinv1 & Hdir1 & Ei1)].
      * exists (base ++ [(c, r2)]). split; [done|]. split; intros H1; [lia|congruence].
      * exists base. split; [done|]. split; intros H1; [lia|congruence].
Qed.

Lemma quiet_steps s n k stk st st' :
  inv s stk st → quiet k st → steps the_matrix n st st' →
  ∃ stk', inv s stk' st' ∧ quiet (k + n) st'.
Proof.
  revert k stk st. induction n as [|n IH]; intros k stk st Hinv Hq; simpl.
  - intros <-. rewrite Nat.add_0_r. eauto.
  - intros (st1 & E & H).
    destruct (quiet_step s stk k st st1 Hinv Hq E) as (stk1 & Hinv1 & Hq1).
    replace (k + S n)%nat with (S k + n)%nat by lia. eauto.
Qed.

(** X5. The search leaves its arrays at one place only.  In a run on an input
    of at least 81 characters, the only step that reads or writes outside an
    array is the bottom half of the first loop iteration, entered with
    [i = -1] after the first scan has found a constraint without a
    candidate (line 137 followed by line 139); nothing has been written at
    that point.  Every later iteration stays inside the arrays. *)
Theorem sd_solve_faults_only_at_start (s : list Z) (st0 st : state) (n : nat) :
  (81 <= length s)%nat → sd_init the_matrix s = Some st0 →
  steps the_matrix n st0 st → step the_matrix st = Fault →
  n = 1%nat ∧ st_pc st = Advance ∧ st_i st = -1 ∧ st_dir st = -1 ∧
  st_stdout st = [].
Proof.
  intros Hs E0 Hsteps Hf.
  destruct (sd_init_spec s Hs) as (st0' & E0' & Hinv0 & Hpc0 & Hdir0 & Hi0 & Hout0).
  assert (st0' = st0) as -> by congruence.
  assert (quiet 0 st0) as Hq0.
  { split; [done|]. intros H. congruence. }
  destruct (quiet_steps s n 0 [] st0 st Hinv0 Hq0 Hsteps) as (stk & Hinv & [Q1 Q2]).
  pose proof (inv_depth _ _ _ Hinv) as Hd. unfold depth in Hd.
  pose proof (inv_bound _ _ _ Hinv) as Hb. unfold depth in Hb.
  destruct (st_pc st) eqn:Hpc.
  - exfalso. destruct (decide (0 <= st_i st < 81 - st_hints st)) as [Hi|Hi].
    + destruct (inv_dir _ _ _ Hinv) as [Hdir|Hdir].
      * destruct (step_scan s stk st Hinv Hpc Hdir Hi) as (st1 & E & _). congruence.
      * destruct (step_pass s stk st Hinv Hpc Hdir Hi) as (st1 & E & _). congruence.
    + destruct (decide (st_i st < 0)) as [Hneg|Hpos].
      * rewrite (step_stop st Hpc Hneg) in Hf. done.
      * destruct (step_print s stk st Hinv Hpc) as (st1 & g & E & _); [lia | lia |].
        congruence.
  - destruct (decide (st_i st < 0)) as [Hneg|Hpos].
    + destruct (Q2 eq_refl Hneg) as [En Hout]. simpl in En.
      destruct (inv_dir _ _ _ Hinv) as [Hdir|Hdir]; rewrite Hdir in Hd; simpl in Hd;
        repeat split; try done; lia.
    + exfalso. destruct (inv_dir _ _ _ Hinv) as [Hdir|Hdir].
      * destruct (step_advance_forward s stk st Hinv Hpc Hdir)
          as (c & Ecc & Hc & _ & Ei & Hlt & Ecr).
        destruct (step_advance_core s stk c (-1) st Hpc Ei Hlt Ecc Hc Ecr)
          as (st1 & E & _); [by left|]. congruence.
      * destruct (step_advance_backward s stk st Hinv Hpc Hdir)
          as (base & c & k1 & -> & Ecc & Hc & Ecr & Hk & Ei & Hlt); [lia|].
        destruct (step_advance_core s base c k1 st Hpc Ei Hlt Ecc Hc Ecr)
          as (st1 & E & _); [by right|]. congruence.
Qed.

(** * A grid given in full *)

Lemma hints_upto_full s n :
  (∀ x, 0 <= x < Z.of_nat n → is_Some (hint_at s x)) →
  length (hints_upto s n) = n.
Proof.
  induction n as [|n IH]; intros H; [done|].
  rewrite hints_upto_S, length_app, IH by (intros x Hx; apply H; lia).
  destruct (H (Z.of_nat n) ltac:(lia)) as [p ->]. simpl. lia.
Qed.

Lemma getZ_take {A} (a : list A) (n : nat) i :
  i < Z.of_nat n → getZ (take n a) i = getZ a i.
Proof.
  intros Hi. unfold getZ. destruct (i <? 0) eqn:E; [done|].
  apply lookup_take_lt. lia.
Qed.

(** X7. When all of the first 81 characters are digits, the loop body never
    searches: [sd_solve] writes these 81 characters back as its only line
    and returns 0, whether or not they form a valid grid. *)
Theorem sd_solve_full_grid (s : list Z) (k : nat) :
  (81 <= length s)%nat →
  (∀ x, 0 <= x < 81 → ∃ ch, getZ s x = Some ch ∧ is_digit ch = true) →
  sd_solve the_matrix (2 + k) s = Returned [take 81 s] 0.
Proof.
  intros Hs Hall.
  destruct (sd_init_spec s Hs) as (st0 & E0 & Hinv & Hpc & Hdir & Hi & Hout).
  assert (length (hintP s) = 81%nat) as Hh.
  { apply (hints_upto_full s 81). intros x Hx.
    destruct (Hall x ltac:(lia)) as (ch & E & Hd).
    exists (x * 9 + (ch - 49)). apply hint_at_Some. eauto. }
  pose proof (inv_hints _ _ _ Hinv) as Hhints. rewrite Hh in Hhints.
  destruct (step_print s [] st0 Hinv Hpc)
    as (st1 & g & E1 & Hpc1 & _ & Hi1 & Hout1 & _ & _ & Hlen & Hcont); [lia | lia |].
  assert (step the_matrix st1 = Stop) as E2 by (apply step_stop; [done|lia]).
  unfold sd_solve. rewrite E0. cbn [run Nat.add]. rewrite E1.
  destruct k; cbn [run]; rewrite E2, Hout1, Hout; simpl; f_equal; f_equal.
  all: apply list_eq_getZ; intros x.
  all: destruct (decide (0 <= x < 81)) as [Hx|Hx].
  all: try (rewrite (proj2 (getZ_None g x)) by lia;
            rewrite (proj2 (getZ_None (take 81 s) x)); [done|];
            rewrite length_take; lia).
  all: rewrite getZ_take by lia.
  all: destruct (Hall x Hx) as (ch & E & Hd); rewrite E.
  all: assert (x * 9 + (ch - 49) ∈ hintP s ++ choices []) as Hin
      by (apply elem_of_app; left; apply elem_of_hintP; exists x; split;
          [done|apply hint_at_Some; eauto]).
  all: apply Hcont in Hin; unfold contains in Hin.
  all: assert (49 <= ch <= 57) as Hch
      by (unfold is_digit in Hd; apply andb_true_iff in Hd as [H1 H2]; lia).
  all: replace ((x * 9 + (ch - 49)) / 9) with x in Hin
      by (apply (Z.div_unique _ 9 x (ch - 49)); lia).
  all: replace ((x * 9 + (ch - 49)) mod 9) with (ch - 49) in Hin
      by (apply (Z.mod_unique _ 9 x (ch - 49)); lia).
  all: rewrite Hin; f_equal; lia.
Qed.

(** * Further properties of [sd_update] *)



Lemma length_aux_c : length (aux_c the_matrix) = 729%nat.
Proof. vm_compute. reflexivity. Qed.

(** X9. On the matrix built by [sd_genmat] and counter arrays of the sizes
    [sd_solve] declares, [sd_update] stays inside all arrays exactly when its
    choice [r] is in [0, 729); for any other [r] the very first read,
    [aux->c[r][0]], is already outside the table.  A call that stays inside
    leaves the sizes of [sr] and [sc] unchanged. *)
Theorem sd_update_in_bounds (a : sdaux_t) (sr sc : list Z) (r v : Z) :
  sd_genmat = Some a → length sr = 729%nat → length sc = 324%nat →
  (is_Some (sd_update a sr sc r v) ↔ 0 <= r < 729) ∧
  (getZ2 (aux_c a) r 0 = None ↔ ¬ 0 <= r < 729) ∧
  ∀ sr' sc', sd_update a sr sc r v = Some (sr', sc') →
             length sr' = 729%nat ∧ length sc' = 324%nat.
Proof.
  rewrite sd_genmat_eq. intros [= <-] Hsr Hsc.
  assert (getZ2 (aux_c the_matrix) r 0 = None ↔ ¬ 0 <= r < 729) as Hfirst.
  { unfold getZ2. split.
    - intros H Hr. destruct (Cs_facts r Hr) as (E & Hl & _). rewrite E in H. simpl in H.
      apply getZ_None in H. rewrite Hl in H. lia.
    - intros Hr. rewrite (proj2 (getZ_None (aux_c the_matrix) r)); [done|].
      rewrite length_aux_c. lia. }
  split; [|split; [exact Hfirst|]].
  - split.
    + intros [[sr' sc'] H]. apply sd_update_spec in H as (cs & xs & Ht & _).
      unfold touches in Ht.
      destruct (reads (getZ2 (aux_c the_matrix) r) 0 4) as [cs0|] eqn:Er; [|done].
      pose proof (reads_length _ _ _ _ Er) as Hl.
      pose proof (reads_lookup _ _ _ _ Er 0%nat ltac:(lia)) as H0.
      destruct (decide (0 <= r < 729)) as [Hr|Hr]; [done|]. exfalso.
      apply Hfirst in Hr. change (0 + Z.of_nat 0) with 0 in H0. rewrite Hr in H0.
      destruct cs0; simpl in *; [lia|done].
    + intros Hr. rewrite sd_update_matrix by done. eauto.
  - intros sr' sc' H. apply sd_update_spec in H as (cs & xs & _ & _ & _ & -> & ->).
    rewrite !bumps_length. done.
Qed.




(** * The matrix and the rules of Sudoku *)

Lemma elem_of_four (c a1 a2 a3 a4 : Z) :
  c ∈ [a1; a2; a3; a4] ↔ c = a1 ∨ c = a2 ∨ c = a3 ∨ c = a4.
Proof. rewrite !elem_of_cons, elem_of_nil. tauto. Qed.

(** X11. The matrix of [sd_genmat] encodes the rules of Sudoku: the choices
    "digit [k] in cell ([i], [j])" and "digit [k'] in cell ([i'], [j'])"
    have a constraint in common exactly when they fill the same cell, or
    put the same digit into the same row, the same column or the same 3x3
    box. *)
Theorem genmat_shared_constraint (a : sdaux_t) (i j k i' j' k' : Z)
    (cs cs' : list Z) :
  sd_genmat = Some a →
  0 <= i < 9 → 0 <= j < 9 → 0 <= k < 9 →
  0 <= i' < 9 → 0 <= j' < 9 → 0 <= k' < 9 →
  getZ (aux_c a) (81 * i + 9 * j + k) = Some cs →
  getZ (aux_c a) (81 * i' + 9 * j' + k') = Some cs' →
  (∃ c, c ∈ cs ∧ c ∈ cs') ↔
  (i = i' ∧ j = j') ∨
  (k = k' ∧ (i = i' ∨ j = j' ∨ (i / 3 = i' / 3 ∧ j / 3 = j' / 3))).
Proof.
  rewrite sd_genmat_eq. intros [= <-] Hi Hj Hk Hi' Hj' Hk'.
  rewrite !matrix_incidences by done. intros [= <-] [= <-]. unfold incidences.
  assert (0 <= i / 3 <= 2) by (Z.div_mod_to_equations; lia).
  assert (0 <= j / 3 <= 2) by (Z.div_mod_to_equations; lia).
  assert (0 <= i' / 3 <= 2) by (Z.div_mod_to_equations; lia).
  assert (0 <= j' / 3 <= 2) by (Z.div_mod_to_equations; lia).
  split.
  - intros (c & Hc & Hc'). apply elem_of_four in Hc, Hc'. lia.
  - intros [[-> ->]|[-> [->|[->|[E1 E2]]]]].
    + exists (9 * i' + j'). split; left.
    + exists (9 * i' + k' + 162). split; do 2 right; left.
    + exists (9 * j' + k' + 243). split; do 3 right; left.
    + exists ((i / 3 * 3 + j / 3) * 9 + k' + 81). split; [right; left|].
      rewrite E1, E2. right; left.
Qed.

(** * Runs that return no value *)



(** * The driver, line by line *)

Lemma fgets_line n l rest :
  10 ∉ l → (length l < n)%nat → fgets n (l ++ 10 :: rest) = (l ++ [10], rest).
Proof.
  revert n. induction l as [|ch l IH]; intros n Hl Hn.
  - destruct n; [simpl in Hn; lia|]. done.
  - destruct n; [simpl in Hn; lia|]. simpl in *.
    apply not_elem_of_cons in Hl as [Hch Hl].
    destruct (Z.eqb_spec ch 10) as [->|_]; [done|].
    rewrite IH by (done || lia). done.
Qed.

Lemma fgets_nil n : fgets n [] = ([], []).
Proof. by destruct n. Qed.

Lemma fgets_split n input line rest :
  fgets n input = (line, rest) → input = line ++ rest.
Proof.
  revert input line rest. induction n as [|n IH]; intros input line rest.
  - simpl. by intros [= <- <-].
  - destruct input as [|ch input]; simpl; [by intros [= <- <-]|].
    destruct (ch =? 10); [by intros [= <- <-]|].
    destruct (fgets n input) as [line' rest'] eqn:E. intros [= <- <-].
    simpl. f_equal. by apply IH.
Qed.

#[local] Transparent c_string.

Lemma c_string_length buf : (length (c_string buf) <= length buf)%nat.
Proof.
  induction buf as [|ch buf IH]; simpl; [lia|]. destruct (ch =? 0); simpl; lia.
Qed.

Lemma c_string_nul l : c_string (l ++ [0]) = c_string l.
Proof.
  induction l as [|ch l IH]; simpl; [done|]. destruct (ch =? 0); [done|]. by rewrite IH.
Qed.

Lemma main_loop_lines aux fuel ls outs :
  Forall (fun l => (10 ∉ l) ∧ (length l <= 1022)%nat) ls →
  Forall2 (fun l o => line_output aux fuel l = Some o) ls outs →
  ∀ n rest out0,
    main_loop aux fuel (length ls + n) (input_of_lines ls ++ rest) out0 =
    main_loop aux fuel n rest (out0 ++ concat outs).
Proof.
  intros Hls H. induction H as [|l o ls outs Ho _ IH]; intros n rest out0.
  - cbn. by rewrite app_nil_r.
  - apply list.Forall_cons in Hls as [[Hnl Hlen] Hls].
    replace (input_of_lines (l :: ls) ++ rest)
      with (l ++ 10 :: (input_of_lines ls ++ rest))
      by (unfold input_of_lines; simpl; by rewrite <- !List.app_assoc).
    cbn [length Nat.add main_loop]. rewrite (fgets_line 1023 l _ Hnl) by lia.
    destruct (l ++ [10]) as [|ch line] eqn:E; [by destruct l|]. rewrite <- E.
    unfold line_output in Ho. cbv zeta in Ho.
    destruct (strlen ((l ++ [10]) ++ [0]) <? 81).
    + injection Ho as <-. cbn [concat app]. by apply IH.
    + destruct (sd_solve aux fuel ((l ++ [10]) ++ [0])) as [lines ret| |]; try done.
      injection Ho as <-. rewrite (IH Hls). cbn [concat].
      by rewrite <- !List.app_assoc.
Qed.

Lemma main_loop_enough aux fuel n :
  ∀ m input out, (length input < n)%nat → (length input < m)%nat →
    main_loop aux fuel n input out = main_loop aux fuel m input out.
Proof.
  induction n as [|n IH]; intros m input out Hn Hm; [lia|].
  destruct m; [lia|]. cbn [main_loop].
  destruct (fgets 1023 input) as [line rest] eqn:E.
  destruct line as [|ch line]; [done|].
  apply fgets_split in E. subst input. simpl in Hn, Hm.
  rewrite length_app in Hn, Hm.
  destruct (strlen ((ch :: line) ++ [0]) <? 81); [apply IH; lia|].
  destruct (sd_solve aux fuel ((ch :: line) ++ [0])); try done. apply IH; lia.
Qed.

Lemma input_of_lines_app ls1 ls2 :
  input_of_lines (ls1 ++ ls2) = input_of_lines ls1 ++ input_of_lines ls2.
Proof. unfold input_of_lines. by rewrite map_app, concat_app. Qed.

Lemma main_lines a fuel ls outs rest :
  sd_genmat = Some a →
  Forall (fun l => (10 ∉ l) ∧ (length l <= 1022)%nat) ls →
  Forall2 (fun l o => line_output a fuel l = Some o) ls outs →
  main fuel (input_of_lines ls ++ rest) =
  main_loop a fuel (S (length rest)) rest (concat outs).
Proof.
  intros Ha Hls H. unfold main. rewrite Ha.
  rewrite (main_loop_enough a fuel _
             (length ls + S (length (input_of_lines ls ++ rest)))); [|lia..].
  rewrite (main_loop_lines a fuel ls outs Hls H). cbn [app].
  apply main_loop_enough; rewrite ?length_app; lia.
Qed.

(** X12. [main] treats its input line by line, and no puzzle influences
    another.  For an input made of lines of at most 1022 characters, each
    ended by a newline: if [sd_solve] returns on every line that the guard
    of line 161 does not skip, the output is the concatenation, in order, of
    what each line gives on its own -- nothing for a skipped line, else the
    lines written by [sd_solve] followed by an empty line -- and [main]
    returns 0; if [sd_solve] runs into the read of [cc[-1]] on some line
    that the guard does not skip, having returned on all the lines before,
    [main] does not return either. *)
Theorem main_line_by_line (a : sdaux_t) (fuel : nat) (ls : list (list Z)) :
  sd_genmat = Some a →
  Forall (fun l => (10 ∉ l) ∧ (length l <= 1022)%nat) ls →
  (∀ outs, Forall2 (fun l o => line_output a fuel l = Some o) ls outs →
     main fuel (input_of_lines ls) = MReturned (concat outs) 0) ∧
  (∀ ls1 l ls2 outs1, ls = ls1 ++ l :: ls2 →
     Forall2 (fun l o => line_output a fuel l = Some o) ls1 outs1 →
     81 <= strlen ((l ++ [10]) ++ [0]) →
     sd_solve a fuel ((l ++ [10]) ++ [0]) = Undefined →
     main fuel (input_of_lines ls) = MUndefined).
Proof.
  intros Ha Hls. split.
  - intros outs H.
    pose proof (main_lines a fuel ls outs [] Ha Hls H) as E.
    rewrite app_nil_r in E. rewrite E. cbn [length main_loop].
    rewrite fgets_nil. reflexivity.
  - intros ls1 l ls2 outs1 -> H Hlen Hund.
    apply list.Forall_app in Hls as [Hls1 Hls2].
    apply list.Forall_cons in Hls2 as [[Hnl Hl] _].
    rewrite input_of_lines_app.
    rewrite (main_lines a fuel ls1 outs1 _ Ha Hls1 H).
    replace (input_of_lines (l :: ls2)) with (l ++ 10 :: input_of_lines ls2)
      by (unfold input_of_lines; simpl; by rewrite <- !List.app_assoc).
    cbn [main_loop]. rewrite (fgets_line 1023 l _ Hnl) by lia.
    destruct (l ++ [10]) as [|ch line] eqn:E; [by destruct l|].
    destruct (Z.ltb_spec (strlen ((ch :: line) ++ [0])) 81); [lia|].
    by rewrite Hund.
Qed.

Lemma fgets_app n p rest :
  fgets n ((p ++ [10]) ++ rest) =
  ((fgets n (p ++ [10])).1, (fgets n (p ++ [10])).2 ++ rest).
Proof.
  revert n. induction p as [|ch p IH]; intros n.
  - destruct n; done.
  - destruct n; [done|]. cbn [app fgets].
    destruct (ch =? 10); [done|]. rewrite IH.
    by destruct (fgets n (p ++ [10])).
Qed.

Lemma fgets_rest_line_end n p line rest :
  fgets n (p ++ [10]) = (line, rest) → rest = [] ∨ ∃ p', rest = p' ++ [10].
Proof.
  intros E. apply fgets_split in E.
  destruct rest as [|x rest _] using rev_ind; [by left|]. right.
  rewrite List.app_assoc in E. apply app_inj_tail in E as [_ ->]. eauto.
Qed.

Lemma fgets_nonempty n ch input : (fgets (S n) (ch :: input)).1 ≠ [].
Proof.
  simpl. destruct (ch =? 10); [done|]. by destruct (fgets n input).
Qed.

Lemma main_loop_skips_short aux fuel line rest :
  10 ∉ line → (length line <= 79)%nat →
  ∀ n m pre out,
    pre = [] ∨ (∃ p, pre = p ++ [10]) →
    (length (pre ++ line ++ 10%Z :: rest) < n)%nat →
    (length (pre ++ rest) < m)%nat →
    main_loop aux fuel n (pre ++ line ++ 10 :: rest) out =
    main_loop aux fuel m (pre ++ rest) out.
Proof.
  intros Hnl Hlen. induction n as [|n IH]; intros m pre out Hpre Hn Hm; [lia|].
  destruct Hpre as [->|[p ->]].
  - cbn [app] in *.
    rewrite (main_loop_skips aux fuel n _ out (line ++ [10]) rest).
    + apply main_loop_enough; [|done]. rewrite length_app in Hn. simpl in Hn. lia.
    + apply fgets_line; [done|lia].
    + by destruct line.
    + unfold strlen. rewrite c_string_nul.
      pose proof (c_string_length (line ++ [10])) as H'.
      rewrite length_app in H'. simpl in H'. lia.
  - destruct m; [lia|]. cbn [main_loop]. rewrite !fgets_app.
    destruct (fgets 1023 (p ++ [10])) as [chunk pre'] eqn:E. cbn [fst snd].
    pose proof (fgets_rest_line_end _ _ _ _ E) as Hpre'.
    pose proof (fgets_split _ _ _ _ E) as Hsplit.
    assert (chunk ≠ []) as Hne.
    { destruct p as [|ch p]; [by injection E as <- _|].
      pose proof (fgets_nonempty 1022 ch (p ++ [10])) as H.
      change (fgets 1023 ((ch :: p) ++ [10])) with (fgets 1023 (ch :: p ++ [10])) in E.
      by rewrite E in H. }
    destruct chunk as [|ch chunk]; [done|].
    assert (length (pre' ++ line ++ 10%Z :: rest) < n)%nat as Hn'.
    { rewrite Hsplit in Hn. rewrite !length_app in *. simpl in *. lia. }
    assert (length (pre' ++ rest) < m)%nat as Hm'.
    { rewrite Hsplit in Hm. rewrite !length_app in *. simpl in *. lia. }
    destruct (strlen ((ch :: chunk) ++ [0]) <? 81); [by apply IH|].
    destruct (sd_solve aux fuel ((ch :: chunk) ++ [0])); try done. by apply IH.
Qed.

(** X13. A line of at most 79 characters before its newline is ignored by
    [main], wherever it stands in the input: with the line at the start of
    the input or after any text that ends with a newline, [main] behaves
    exactly as on the input without that line. *)
Theorem main_skips_short_line (fuel : nat) (pre line rest : list Z) :
  pre = [] ∨ (∃ p, pre = p ++ [10]) →
  10 ∉ line → (length line <= 79)%nat →
  main fuel (pre ++ line ++ 10 :: rest) = main fuel (pre ++ rest).
Proof.
  intros Hpre Hnl Hlen. unfold main. destruct sd_genmat as [a|]; [|done].
  apply main_loop_skips_short; try done; lia.
Qed.

Lemma sd_solve_more_returned aux fuel k s L r :
  sd_solve aux fuel s = Returned L r → sd_solve aux (fuel + k) s = Returned L r.
Proof.
  unfold sd_solve. destruct (sd_init aux s); [apply run_more | done].
Qed.

Lemma sd_solve_more_undefined fuel k s :
  (81 <= length s)%nat →
  sd_solve the_matrix fuel s = Undefined → sd_solve the_matrix (fuel + k) s = Undefined.
Proof.
  intros Hs. destruct (sd_init_spec s Hs) as (st0 & E0 & _).
  unfold sd_solve. rewrite E0. apply run_more_undefined.
Qed.

Lemma main_loop_ends n :
  ∀ input out, (length input < n)%nat →
    ∃ fuel0 res, (res = MUndefined ∨ ∃ o, res = MReturned o 0) ∧
      ∀ k, main_loop the_matrix (fuel0 + k) n input out = res.
Proof.
  induction n as [|n IH]; intros input out Hn; [lia|].
  cbn [main_loop].
  destruct (fgets 1023 input) as [line rest] eqn:E.
  destruct line as [|ch line].
  { exists 0%nat, (MReturned out 0). split; [right; eauto | done]. }
  apply fgets_split in E. subst input. rewrite length_app in Hn. simpl in Hn.
  destruct (Z.ltb_spec (strlen ((ch :: line) ++ [0])) 81) as [Hlt|Hge].
  { apply IH. lia. }
  assert (81 <= length ((ch :: line) ++ [0%Z]))%nat as Hs.
  { unfold strlen in Hge. pose proof (c_string_length ((ch :: line) ++ [0])). lia. }
  destruct (sd_solve_result _ Hs) as (fuel1 & L & [Hres|[Hres _]] & _).
  - destruct (IH rest (out ++ puts_bytes L ++ [10]) ltac:(lia))
      as (fuel2 & res & Hres2 & Hall).
    exists (fuel1 + fuel2)%nat, res. split; [done|]. intros k.
    replace (fuel1 + fuel2 + k)%nat with (fuel1 + (fuel2 + k))%nat by lia.
    rewrite (sd_solve_more_returned _ _ _ _ _ _ Hres).
    replace (fuel1 + (fuel2 + k))%nat with (fuel2 + (fuel1 + k))%nat by lia.
    apply Hall.
  - exists fuel1, MUndefined. split; [by left|]. intros k.
    by rewrite (sd_solve_more_undefined _ _ _ Hs Hres).
Qed.

(** X15. The program ends on every input: with enough steps allowed for each
    puzzle, [main] returns 0, or one of its calls of [sd_solve] runs into the
    read of [cc[-1]]. *)
Theorem main_ends (stdin : list Z) :
  ∃ fuel, (∃ out, main fuel stdin = MReturned out 0) ∨ main fuel stdin = MUndefined.
Proof.
  unfold main. rewrite sd_genmat_eq.
  destruct (main_loop_ends (S (length stdin)) stdin [] ltac:(lia))
    as (fuel0 & res & Hres & Hall).
  exists fuel0. specialize (Hall 0%nat). rewrite Nat.add_0_r in Hall. rewrite Hall.
  destruct Hres as [->|[o ->]]; eauto.
Qed.

(** * Which character marks an empty cell *)

Lemma omap_ext_in {A B} (f g : A → option B) (l : list A) :
  (∀ x, x ∈ l → f x = g x) → omap f l = omap g l.
Proof.
  induction l as [|a l IH]; intros H; [done|]. simpl.
  rewrite (H a) by left.
  destruct (g a); [f_equal|]; apply IH; intros x Hx; apply H; by right.
Qed.

Lemma same_givens_hint_at s s' x :
  (81 <= length s)%nat → (81 <= length s')%nat → same_givens s s' →
  0 <= x < 81 → hint_at s x = hint_at s' x.
Proof.
  intros Hs Hs' H Hx. unfold hint_at.
  destruct (getZ_is_Some s x ltac:(lia)) as [ch E].
  destruct (getZ_is_Some s' x ltac:(lia)) as [ch' E'].
  rewrite E, E'. simpl. specialize (H x ch ch' Hx E E').
  destruct (is_digit ch) eqn:D.
  - rewrite <- H by (by left). by rewrite D.
  - destruct (is_digit ch') eqn:D'; [|done].
    rewrite H in D by (by right). congruence.
Qed.

Lemma same_givens_hintP s s' :
  (81 <= length s)%nat → (81 <= length s')%nat → same_givens s s' →
  hintP s = hintP s'.
Proof.
  intros Hs Hs' H. unfold hintP. apply omap_ext_in. intros x Hx.
  apply elem_of_seqZ in Hx. apply same_givens_hint_at; first [done | lia].
Qed.

#[local] Transparent for_range.

Lemma for_range_rel {St} (R : St → St → Prop) (body1 body2 : Z → St → option St)
    n lo s1 s2 :
  R s1 s2 →
  (∀ k a b, lo <= k < lo + Z.of_nat n → R a b →
            option_Forall2 R (body1 k a) (body2 k b)) →
  option_Forall2 R (for_range lo n body1 s1) (for_range lo n body2 s2).
Proof.
  revert lo s1 s2. induction n as [|n IH]; intros lo s1 s2 H0 Hstep; simpl.
  - by constructor.
  - destruct (Hstep lo s1 s2 ltac:(lia) H0) as [a b Hab|]; simpl; [|constructor].
    apply IH; [done|]. intros k a' b' Hk. apply Hstep. lia.
Qed.

Lemma sd_init_cell_rel aux s s' k a b :
  (81 <= length s)%nat → (81 <= length s')%nat → same_givens s s' →
  0 <= k < 81 →
  same_but_out a b ∧ length (st_out a) = length (st_out b) →
  option_Forall2 (fun a b => same_but_out a b ∧ length (st_out a) = length (st_out b))
    (sd_init_cell aux s k a) (sd_init_cell aux s' k b).
Proof.
  intros Hs Hs' Hg Hk [(_ & Hi & Hdir & Hc0 & Hh & Hsc & Hcr & Hcc & Hsr & Hout) Hlen].
  unfold sd_init_cell.
  destruct (getZ_is_Some s k ltac:(lia)) as [ch E].
  destruct (getZ_is_Some s' k ltac:(lia)) as [ch' E'].
  rewrite E, E'. simpl.
  assert ((if is_digit ch then ch - 49 else -1) =
          (if is_digit ch' then ch' - 49 else -1)) as Ea.
  { specialize (Hg k ch ch' Hk E E').
    destruct (is_digit ch) eqn:D.
    - rewrite <- Hg by (by left). by rewrite D.
    - destruct (is_digit ch') eqn:D'; [|done].
      rewrite Hg in D by (by right). congruence. }
  rewrite <- Ea, <- Hsr, <- Hsc, <- Hcc, <- Hcr, <- Hh, <- Hi, <- Hdir, <- Hc0, <- Hout.
  destruct (if 0 <=? (if is_digit ch then ch - 49 else -1)
            then sd_update aux (st_sr a) (st_sc a)
                   (k * 9 + (if is_digit ch then ch - 49 else -1)) 1
            else Some (st_sr a, st_sc a)) as [[sr sc]|]; simpl; [|constructor].
  destruct (setZ (st_cc a) k (int16 (-1))) as [cc|]; simpl; [|constructor].
  destruct (setZ (st_cr a) k (int8 (-1))) as [cr|]; simpl; [|constructor].
  unfold setZ. rewrite <- Hlen.
  destruct ((0 <=? k) && (k <? Z.of_nat (length (st_out a)))); simpl; constructor.
  split; [done|]. simpl. by rewrite !length_insert.
Qed.

Lemma sd_init_rel aux s s' :
  (81 <= length s)%nat → (81 <= length s')%nat → same_givens s s' →
  option_Forall2 same_but_out (sd_init aux s) (sd_init aux s').
Proof.
  intros Hs Hs' Hg. unfold sd_init.
  destruct (for_range_rel
    (fun a b => same_but_out a b ∧ length (st_out a) = length (st_out b))
    (sd_init_cell aux s) (sd_init_cell aux s') 81 0
    (mk_state Head 0 1 0 0 (replicate 324 0) (replicate 81 0)
            (replicate 81 0) (replicate 729 0) (replicate 82 0) [])
    (mk_state Head 0 1 0 0 (replicate 324 0) (replicate 81 0)
            (replicate 81 0) (replicate 729 0) (replicate 82 0) []))
    as [a b [(_ & Hi & Hdir & Hc0 & Hh & Hsc & Hcr & Hcc & Hsr & Hout) Hlen]|].
  - done.
  - intros k a b Hk Hab. apply sd_init_cell_rel; first [done | lia].
  - simpl. unfold setZ. rewrite <- Hlen.
    destruct ((0 <=? 81) && (81 <? Z.of_nat (length (st_out a)))); simpl; constructor.
    unfold same_but_out. simpl. done.
  - constructor.
Qed.

Lemma inv_stack_unique s s' stk stk' st st2 :
  inv s stk st → inv s' stk' st2 → same_but_out st st2 → stk = stk'.
Proof.
  intros H1 H2 (_ & Hi & Hdir & _ & _ & _ & Hcr & Hcc & _).
  pose proof (inv_depth _ _ _ H1) as D1. pose proof (inv_depth _ _ _ H2) as D2.
  unfold depth in D1, D2. rewrite <- Hi, <- Hdir, D1 in D2.
  apply list_eq. intros j.
  destruct (stk !! j) as [[c k]|] eqn:E1.
  - destruct (lookup_lt_is_Some_2 stk' j) as [[c' k'] E2].
    { apply lookup_lt_Some in E1. lia. }
    destruct (inv_stack _ _ _ H1 j c k E1) as (A1 & A2 & _).
    destruct (inv_stack _ _ _ H2 j c' k' E2) as (B1 & B2 & _).
    rewrite E2. rewrite <- Hcc in B1. rewrite <- Hcr in B2. congruence.
  - symmetry. apply lookup_ge_None. apply lookup_ge_None in E1. lia.
Qed.

Lemma step_rel s s' stk st st2 :
  hintP s = hintP s' → inv s stk st → inv s' stk st2 → same_but_out st st2 →
  match step the_matrix st, step the_matrix st2 with
  | Next a, Next b => same_but_out a b
  | Stop, Stop | Fault, Fault => True
  | _, _ => False
  end.
Proof.
  intros HP Hinv Hinv2 Hsame.
  assert ((st_pc st = Head ∧ 0 <= st_i st ∧ 81 - st_hints st <= st_i st) ∨
          ¬ (st_pc st = Head ∧ 0 <= st_i st ∧ 81 - st_hints st <= st_i st))
    as [(Hpc & Hi0 & Hi)|Hno].
  { destruct (st_pc st); [|right; by intros [? _]].
    destruct (decide (0 <= st_i st ∧ 81 - st_hints st <= st_i st));
      [by left | right; tauto]. }
  - (* the line is written: both buffers hold the same 81 characters *)
    destruct Hsame as (Epc & Ei & Edir & Ec0 & Eh & Esc & Ecr & Ecc & Esr & Eout).
    destruct (step_print s stk st Hinv Hpc Hi0 Hi)
      as (a & g & E1 & Hpa & Hda & Hia & Houta & _ & HlenP & Hlg & Hcont).
    destruct (step_print s' stk st2 Hinv2) as
      (b & g2 & E2 & Hpb & Hdb & Hib & Houtb & _ & _ & Hlg2 & Hcont2);
      [congruence | lia | lia |].
    rewrite E1, E2.
    assert (g = g2) as <-.
    { apply (full_chain_determines s (choices stk) g g2); try done.
      - apply (inv_chain _ _ _ Hinv).
      - by rewrite HP. }
    clear Hcont Hcont2 HlenP.
    destruct st as [pc i dir c0 hints sc cr cc sr out lines].
    destruct st2 as [pc2 i2 dir2 c02 hints2 sc2 cr2 cc2 sr2 out2 lines2].
    simpl in *. subst.
    unfold step, step_head in E1, E2. simpl in E1, E2.
    destruct ((0 <=? i2) && (i2 <? 81 - hints2)) eqn:C.
    { apply andb_true_iff in C as [_ C]. lia. }
    destruct (i2 <? 0) eqn:C2; [lia|].
    destruct (fill_out the_matrix cc2 cr2 i2 out) as [o1|]; simpl in E1; [|done].
    destruct (fill_out the_matrix cc2 cr2 i2 out2) as [o2|]; simpl in E2; [|done].
    injection E1 as <-. injection E2 as <-. simpl in *.
    unfold same_but_out. simpl. repeat (split; [done|]). congruence.
  - destruct st as [pc i dir c0 hints sc cr cc sr out lines].
    destruct st2 as [pc2 i2 dir2 c02 hints2 sc2 cr2 cc2 sr2 out2 lines2].
    destruct Hsame as (Epc & Ei & Edir & Ec0 & Eh & Esc & Ecr & Ecc & Esr & Eout).
    simpl in *. subst. clear Hinv Hinv2.
    unfold step. simpl. destruct pc2.
    + unfold step_head.
      destruct ((0 <=? i2) && (i2 <? 81 - hints2)) eqn:C.
      * destruct (dir2 =? 1); [|done].
        destruct (scan the_matrix sr2 sc2 i2 324 0 10 cc2 c02) as [[[mn cc'] c0']|];
          simpl; [|done].
        destruct ((mn =? 0) || (mn =? 10)); [|done].
        destruct (setZ cr2 i2 (int8 (-1))); simpl; done.
      * destruct (Z.ltb_spec i2 0); [done|]. exfalso. apply Hno.
        apply andb_false_iff in C. split; [done|]. split; [lia|].
        destruct C as [C|C]; lia.
    + unfold step_advance.
      destruct (getZ cc2 i2) as [c|]; simpl; [|done].
      destruct (getZ cr2 i2) as [k|]; simpl; [|done].
      destruct (if (dir2 =? -1) && (0 <=? k)
                then getZ2 (aux_r the_matrix) c k ≫=
                       (fun r => sd_update the_matrix sr2 sc2 r (-1))
                else Some (sr2, sc2)) as [[sr1 sc1]|]; simpl; [|done].
      destruct (find_free the_matrix sr1 c 10 (k + 1)) as [r2|]; simpl; [|done].
      destruct (r2 <? 9).
      * destruct (getZ2 (aux_r the_matrix) c r2) as [r|]; simpl; [|done].
        destruct (sd_update the_matrix sr1 sc1 r 1) as [[sr3 sc3]|]; simpl; [|done].
        destruct (setZ cr2 i2 (int8 r2)); simpl; done.
      * destruct (setZ cr2 i2 (int8 (-1))); simpl; done.
Qed.

Lemma run_rel s s' fuel :
  hintP s = hintP s' →
  ∀ stk st st2, inv s stk st → inv s' stk st2 → same_but_out st st2 →
    run the_matrix fuel st = run the_matrix fuel st2.
Proof.
  intros HP. induction fuel as [|fuel IH]; intros stk st st2 H1 H2 Hsame; [done|].
  cbn [run]. pose proof (step_rel s s' stk st st2 HP H1 H2 Hsame) as Hstep.
  destruct (step the_matrix st) as [a| |] eqn:E1,
           (step the_matrix st2) as [b| |] eqn:E2; try done.
  - destruct (inv_step s stk st a H1 E1) as (stk1 & _ & Ha & _).
    destruct (inv_step s' stk st2 b H2 E2) as (stk2 & _ & Hb & _).
    pose proof (inv_stack_unique _ _ _ _ _ _ Ha Hb Hstep) as <-.
    by apply (IH stk1).
  - destruct Hsame as (_ & _ & _ & _ & _ & _ & _ & _ & _ & ->). done.
Qed.

(** X14. Only the digits among the first 81 characters matter.  Any character
    other than '1' to '9' stands for an empty cell, and which one is used
    makes no difference: two inputs that hold the same digits at the same
    places give the same lines and the same result. *)
Theorem sd_solve_blank_characters (s s' : list Z) (fuel : nat) :
  (81 <= length s)%nat → (81 <= length s')%nat → same_givens s s' →
  sd_solve the_matrix fuel s = sd_solve the_matrix fuel s'.
Proof.
  intros Hs Hs' Hg.
  pose proof (same_givens_hintP s s' Hs Hs' Hg) as HP.
  destruct (sd_init_spec s Hs) as (st0 & E0 & Hinv & _).
  destruct (sd_init_spec s' Hs') as (st0' & E0' & Hinv' & _).
  pose proof (sd_init_rel the_matrix s s' Hs Hs' Hg) as Hrel.
  unfold sd_solve. rewrite E0, E0' in *.
  inversion Hrel as [a b Hsame|]; subst.
  by apply (run_rel s s' fuel HP []).
Qed.

Lemma same_givensb_spec s s' : same_givensb s s' = true → same_givens s s'.
Proof.
  intros H x ch ch' Hx E E' Hd.
  pose proof (forallb_seqZ _ _ H x Hx) as Hc. cbv beta in Hc. rewrite E, E' in Hc.
  apply orb_true_iff in Hc as [Hc|Hc]; [|lia].
  apply negb_true_iff, orb_false_iff in Hc as [H1 H2].
  destruct Hd; congruence.
Qed.

(** * The further properties at concrete inputs *)

Lemma length_two : (81 <= length puzzle_two)%nat.
Proof. vm_compute. lia. Qed.

Lemma sd_solve_two :
  sd_solve the_matrix 40 puzzle_two = Returned [solved_classic; solved_two] 0.
Proof. vm_compute. reflexivity. Qed.

Lemma solves_two : solves puzzle_two solved_two.
Proof.
  split; [apply valid_gridb_spec | apply keeps_hintsb_spec]; vm_compute; reflexivity.
Qed.

Lemma no_conflict_two : ¬ givens_conflict puzzle_two.
Proof. exact (solvable_no_conflict _ _ solves_two). Qed.

Lemma length_stuck : (81 <= length puzzle_stuck)%nat.
Proof. vm_compute. lia. Qed.

Lemma sd_solve_stuck : sd_solve the_matrix 10 puzzle_stuck = Returned [] 0.
Proof. vm_compute. reflexivity. Qed.

Lemma no_conflict_stuck : ¬ givens_conflict puzzle_stuck.
Proof.
  intros H. apply givens_conflictb_spec in H. vm_compute in H. discriminate.
Qed.

Lemma unsolvable_stuck g : ¬ solves puzzle_stuck g.
Proof.
  intros H.
  pose proof (sd_solve_complete _ _ _ _ g length_stuck sd_solve_stuck H) as Hin.
  by apply elem_of_nil in Hin.
Qed.

Lemma length_conflict : (81 <= length puzzle_conflict)%nat.
Proof. vm_compute. lia. Qed.

Lemma length_dead_cell : (81 <= length puzzle_dead_cell)%nat.
Proof. vm_compute. lia. Qed.

Lemma sd_solve_lists_solutions_witness :
  (81 <= length puzzle_two)%nat ∧ ¬ givens_conflict puzzle_two ∧
  sd_solve the_matrix 40 puzzle_two = Returned [solved_classic; solved_two] 0 ∧
  NoDup [solved_classic; solved_two] ∧
  ∀ g, g ∈ [solved_classic; solved_two] ↔ solves puzzle_two g.
Proof.
  split; [apply length_two|]. split; [apply no_conflict_two|].
  split; [apply sd_solve_two|].
  exact (sd_solve_lists_solutions puzzle_two 40 _ 0 length_two no_conflict_two
           sd_solve_two).
Defined.

Lemma sd_solve_writes_only_solutions_witness :
  (81 <= length puzzle_two)%nat ∧ ¬ givens_conflict puzzle_two ∧
  yields puzzle_two solved_two ∧
  valid_grid solved_two ∧ keeps_hints puzzle_two solved_two.
Proof.
  assert (yields puzzle_two solved_two) as Hy.
  { apply (returned_yields _ _ _ _ _ sd_solve_two). right. left. }
  split; [apply length_two|]. split; [apply no_conflict_two|]. split; [exact Hy|].
  exact (sd_solve_writes_only_solutions puzzle_two solved_two length_two
           no_conflict_two Hy).
Defined.

Lemma sd_solve_unsolvable_writes_nothing_witness :
  (81 <= length puzzle_stuck)%nat ∧ ¬ givens_conflict puzzle_stuck ∧
  (∀ g, ¬ solves puzzle_stuck g) ∧
  sd_solve the_matrix 10 puzzle_stuck = Returned [] 0 ∧
  @nil (list Z) = [].
Proof.
  split; [apply length_stuck|]. split; [apply no_conflict_stuck|].
  split; [apply unsolvable_stuck|]. split; [apply sd_solve_stuck|].
  exact (sd_solve_unsolvable_writes_nothing puzzle_stuck 10 [] 0 length_stuck
           no_conflict_stuck unsolvable_stuck sd_solve_stuck).
Defined.

Lemma sd_solve_ends_witness :
  (81 <= length puzzle_dead_cell)%nat ∧
  ∃ fuel, (∃ L, sd_solve the_matrix fuel puzzle_dead_cell = Returned L 0) ∨
          (sd_solve the_matrix fuel puzzle_dead_cell = Undefined ∧
           ∀ g, ¬ solves puzzle_dead_cell g).
Proof.
  split; [apply length_dead_cell|].
  exact (sd_solve_ends puzzle_dead_cell length_dead_cell).
Defined.

Lemma sd_solve_faults_only_at_start_witness :
  ∃ st0 st,
    (81 <= length puzzle_dead_cell)%nat ∧
    sd_init the_matrix puzzle_dead_cell = Some st0 ∧
    steps the_matrix 1 st0 st ∧ step the_matrix st = Fault ∧
    1%nat = 1%nat ∧ st_pc st = Advance ∧ st_i st = -1 ∧ st_dir st = -1 ∧
    st_stdout st = [].
Proof.
  assert (∃ st0 st, sd_init the_matrix puzzle_dead_cell = Some st0 ∧
            steps the_matrix 1 st0 st ∧ step the_matrix st = Fault)
    as (st0 & st & E0 & Hsteps & Hf).
  { eexists _, _. split; [vm_compute; reflexivity|]. split.
    - eexists. split; [vm_compute; reflexivity|]. reflexivity.
    - vm_compute. reflexivity. }
  exists st0, st. split; [apply length_dead_cell|]. split; [exact E0|].
  split; [exact Hsteps|]. split; [exact Hf|].
  exact (sd_solve_faults_only_at_start puzzle_dead_cell st0 st 1 length_dead_cell
           E0 Hsteps Hf).
Defined.

Lemma sd_solve_lines_complete_witness :
  (81 <= length puzzle_conflict)%nat ∧ yields puzzle_conflict grid_conflict ∧
  length grid_conflict = 81%nat ∧
  ∀ x, 0 <= x < 81 → ∃ ch, getZ grid_conflict x = Some ch ∧ 49 <= ch <= 57.
Proof.
  assert (yields puzzle_conflict grid_conflict) as Hy.
  { apply (returned_yields _ _ _ _ _ sd_solve_conflict). left. }
  split; [apply length_conflict|]. split; [exact Hy|].
  exact (sd_solve_lines_complete puzzle_conflict grid_conflict length_conflict Hy).
Defined.

Lemma sd_solve_full_grid_witness :
  (81 <= length grid_conflict)%nat ∧
  (∀ x, 0 <= x < 81 →
     ∃ ch, getZ grid_conflict x = Some ch ∧ is_digit ch = true) ∧
  sd_solve the_matrix (2 + 0) grid_conflict = Returned [take 81 grid_conflict] 0.
Proof.
  assert (length grid_conflict = 81%nat) as Hl by (vm_compute; reflexivity).
  assert (81 <= length grid_conflict)%nat as Hlen by lia.
  assert (∀ x, 0 <= x < 81 →
     ∃ ch, getZ grid_conflict x = Some ch ∧ is_digit ch = true) as Hall.
  { intros x Hx.
    assert (Forall (fun ch => is_digit ch = true) grid_conflict) as Hd
      by (vm_compute; repeat constructor).
    destruct (getZ_is_Some grid_conflict x ltac:(lia)) as [ch E].
    exists ch. split; [done|]. exact (Forall_getZ _ _ _ _ Hd E). }
  split; [exact Hlen|]. split; [exact Hall|].
  exact (sd_solve_full_grid grid_conflict 0 Hlen Hall).
Defined.


Lemma sd_update_in_bounds_witness :
  sd_genmat = Some the_matrix ∧
  length (replicate 729 0 : list Z) = 729%nat ∧
  length (replicate 324 0 : list Z) = 324%nat ∧
  (is_Some (sd_update the_matrix (replicate 729 0) (replicate 324 0) 729 1) ↔
   0 <= 729 < 729) ∧
  (getZ2 (aux_c the_matrix) 729 0 = None ↔ ¬ 0 <= 729 < 729) ∧
  ∀ sr' sc',
    sd_update the_matrix (replicate 729 0) (replicate 324 0) 729 1 = Some (sr', sc') →
    length sr' = 729%nat ∧ length sc' = 324%nat.
Proof.
  split; [apply sd_genmat_eq|].
  split; [apply length_replicate|]. split; [apply length_replicate|].
  exact (sd_update_in_bounds the_matrix (replicate 729 0) (replicate 324 0) 729 1
           sd_genmat_eq (length_replicate _ _) (length_replicate _ _)).
Defined.


Lemma genmat_shared_constraint_witness :
  sd_genmat = Some the_matrix ∧
  0 <= 4 < 9 ∧ 0 <= 7 < 9 ∧ 0 <= 2 < 9 ∧ 0 <= 5 < 9 ∧ 0 <= 6 < 9 ∧ 0 <= 2 < 9 ∧
  getZ (aux_c the_matrix) (81 * 4 + 9 * 7 + 2) = Some [43; 128; 200; 308] ∧
  getZ (aux_c the_matrix) (81 * 5 + 9 * 6 + 2) = Some [51; 128; 209; 299] ∧
  ((∃ c, c ∈ [43; 128; 200; 308] ∧ c ∈ [51; 128; 209; 299]) ↔
   (4 = 5 ∧ 7 = 6) ∨
   (2 = 2 ∧ (4 = 5 ∨ 7 = 6 ∨ (4 / 3 = 5 / 3 ∧ 7 / 3 = 6 / 3)))).
Proof.
  assert (getZ (aux_c the_matrix) (81 * 4 + 9 * 7 + 2) = Some [43; 128; 200; 308])
    as E1 by (vm_compute; reflexivity).
  assert (getZ (aux_c the_matrix) (81 * 5 + 9 * 6 + 2) = Some [51; 128; 209; 299])
    as E2 by (vm_compute; reflexivity).
  split; [apply sd_genmat_eq|].
  do 6 (split; [lia|]). split; [exact E1|]. split; [exact E2|].
  exact (genmat_shared_constraint the_matrix 4 7 2 5 6 2 _ _ sd_genmat_eq
           ltac:(lia) ltac:(lia) ltac:(lia) ltac:(lia) ltac:(lia) ltac:(lia) E1 E2).
Defined.

Lemma main_line_by_line_witness :
  sd_genmat = Some the_matrix ∧
  Forall (fun l => (10 ∉ l) ∧ (length l <= 1022)%nat)
    [line_short; puzzle_classic; puzzle_stuck] ∧
  Forall2 (fun l o => line_output the_matrix 300 l = Some o)
    [line_short; puzzle_classic; puzzle_stuck]
    [[]; solved_classic ++ [10; 10]; [10]] ∧
  main 300 (input_of_lines [line_short; puzzle_classic; puzzle_stuck]) =
    MReturned (concat [[]; solved_classic ++ [10; 10]; [10]]) 0 ∧
  Forall (fun l => (10 ∉ l) ∧ (length l <= 1022)%nat)
    [puzzle_classic; puzzle_dead_cell; puzzle_classic] ∧
  Forall2 (fun l o => line_output the_matrix 300 l = Some o)
    [puzzle_classic] [solved_classic ++ [10; 10]] ∧
  81 <= strlen ((puzzle_dead_cell ++ [10]) ++ [0]) ∧
  sd_solve the_matrix 300 ((puzzle_dead_cell ++ [10]) ++ [0]) = Undefined ∧
  main 300 (input_of_lines [puzzle_classic; puzzle_dead_cell; puzzle_classic]) =
    MUndefined.
Proof.
  assert (∀ l, bool_decide (10 ∉ l) = true → (length l <=? 1022)%nat = true →
            (10 ∉ l) ∧ (length l <= 1022)%nat) as Hline.
  { intros l H1 H2. split; [by apply bool_decide_eq_true in H1|].
    by apply Nat.leb_le. }
  assert (Forall (fun l => (10 ∉ l) ∧ (length l <= 1022)%nat)
            [line_short; puzzle_classic; puzzle_stuck]) as HA.
  { repeat (apply List.Forall_cons; [apply Hline; vm_compute; reflexivity|]).
    apply List.Forall_nil. }
  assert (Forall2 (fun l o => line_output the_matrix 300 l = Some o)
            [line_short; puzzle_classic; puzzle_stuck]
            [[]; solved_classic ++ [10; 10]; [10]]) as HA2.
  { repeat (apply Forall2_cons; [vm_compute; reflexivity|]). apply Forall2_nil. }
  assert (Forall (fun l => (10 ∉ l) ∧ (length l <= 1022)%nat)
            [puzzle_classic; puzzle_dead_cell; puzzle_classic]) as HB.
  { repeat (apply List.Forall_cons; [apply Hline; vm_compute; reflexivity|]).
    apply List.Forall_nil. }
  assert (Forall2 (fun l o => line_output the_matrix 300 l = Some o)
            [puzzle_classic] [solved_classic ++ [10; 10]]) as HB2.
  { repeat (apply Forall2_cons; [vm_compute; reflexivity|]). apply Forall2_nil. }
  assert (81 <= strlen ((puzzle_dead_cell ++ [10]) ++ [0])) as HB3
    by (vm_compute; discriminate).
  assert (sd_solve the_matrix 300 ((puzzle_dead_cell ++ [10]) ++ [0]) = Undefined)
    as HB4 by (vm_compute; reflexivity).
  split; [apply sd_genmat_eq|]. split; [exact HA|]. split; [exact HA2|].
  split; [exact (proj1 (main_line_by_line the_matrix 300 _ sd_genmat_eq HA) _ HA2)|].
  split; [exact HB|]. split; [exact HB2|]. split; [exact HB3|]. split; [exact HB4|].
  exact (proj2 (main_line_by_line the_matrix 300 _ sd_genmat_eq HB)
           [puzzle_classic] puzzle_dead_cell [puzzle_classic] _ eq_refl HB2 HB3 HB4).
Defined.

Lemma main_skips_short_line_witness :
  ((puzzle_classic ++ [10] : list Z) = [] ∨
   ∃ p, (puzzle_classic ++ [10] : list Z) = p ++ [10]) ∧
  (10 ∉ line_short) ∧ (length line_short <= 79)%nat ∧
  main 300 ((puzzle_classic ++ [10]) ++ line_short ++ 10 :: puzzle_classic ++ [10]) =
    main 300 ((puzzle_classic ++ [10]) ++ puzzle_classic ++ [10]).
Proof.
  assert ((puzzle_classic ++ [10] : list Z) = [] ∨
          ∃ p, (puzzle_classic ++ [10] : list Z) = p ++ [10]) as Hp
    by (right; by exists puzzle_classic).
  assert (10 ∉ line_short) as H
    by (apply (bool_decide_unpack _); vm_compute; exact I).
  assert (length line_short <= 79)%nat as Hl by (vm_compute; lia).
  split; [exact Hp|]. split; [exact H|]. split; [exact Hl|].
  exact (main_skips_short_line 300 (puzzle_classic ++ [10]) line_short
           (puzzle_classic ++ [10]) Hp H Hl).
Defined.

Lemma sd_solve_blank_characters_witness :
  (81 <= length puzzle_classic)%nat ∧ (81 <= length puzzle_classic_zeros)%nat ∧
  same_givens puzzle_classic puzzle_classic_zeros ∧
  sd_solve the_matrix 300 puzzle_classic =
    sd_solve the_matrix 300 puzzle_classic_zeros.
Proof.
  assert (81 <= length puzzle_classic_zeros)%nat as Hl by (vm_compute; lia).
  assert (same_givens puzzle_classic puzzle_classic_zeros) as Hg
    by (apply same_givensb_spec; vm_compute; reflexivity).
  split; [apply length_classic|]. split; [exact Hl|]. split; [exact Hg|].
  exact (sd_solve_blank_characters puzzle_classic puzzle_classic_zeros 300
           length_classic Hl Hg).
Defined.
